(** * mdl-ext: the collapsible component (src/collapsible/collapsible.js)

    A shallow embedding of the [Collapsible] class and of the part of the
    DOM it talks to, followed by the properties of the component.

    Strings are byte strings (UTF-8).  An element object is named by a
    reference; the shape of the trees never changes in this component, only
    attributes and class lists do, so the shape is kept apart from the
    per-element state. *)

From Stdlib Require Import ZArith Ascii String.
From stdpp Require Import base option strings list gmap.

Local Open Scope string_scope.
Local Open Scope list_scope.

(** ** Strings *)

Module Str.

(** [s.split(' ')]: cut at every single space; never the empty array. *)
Fixpoint split (s : string) : list string :=
  match s with
  | EmptyString => [""]
  | String c rest =>
      if Ascii.eqb c " "%char then "" :: split rest
      else match split rest with
           | [] => [String c ""]
           | h :: t => String c h :: t
           end
  end.

(** [a.join(' ')]. *)
Fixpoint join (l : list string) : string :=
  match l with
  | [] => ""
  | [x] => x
  | x :: rest => x ++ " " ++ join rest
  end.

Fixpoint hasSpace (s : string) : bool :=
  match s with
  | EmptyString => false
  | String c rest => Ascii.eqb c " "%char || hasSpace rest
  end.

Definition isUpper (c : Ascii.ascii) : bool :=
  let n := Ascii.nat_of_ascii c in (65 <=? n)%nat && (n <=? 90)%nat.
Definition isLower (c : Ascii.ascii) : bool :=
  let n := Ascii.nat_of_ascii c in (97 <=? n)%nat && (n <=? 122)%nat.
Definition isDigit (c : Ascii.ascii) : bool :=
  let n := Ascii.nat_of_ascii c in (48 <=? n)%nat && (n <=? 57)%nat.

Definition lowerChar (c : Ascii.ascii) : Ascii.ascii :=
  if isUpper c then Ascii.ascii_of_nat (Ascii.nat_of_ascii c + 32) else c.

(** [s.toLowerCase()] on the ASCII letters.  The component only compares
    the outcome with the ASCII words "true", "false", "button" and
    "hidden"; no character outside ASCII lowers to a letter of these
    words, so on those comparisons this is the full operation. *)
Fixpoint toLowerCase (s : string) : string :=
  match s with
  | EmptyString => EmptyString
  | String c rest => String (lowerChar c) (toLowerCase rest)
  end.

(** Does [s] hold [sub] somewhere? *)
Fixpoint includes (sub s : string) : bool :=
  String.prefix sub s ||
  match s with
  | EmptyString => false
  | String _ rest => includes sub rest
  end.

(** The double quote, as a string. *)
Definition quote : string := String (Ascii.ascii_of_nat 34) EmptyString.

(** A JS string used as a condition: only the empty string is falsy. *)
Definition truthy (s : string) : bool := negb (String.eqb s "").

End Str.

(** ** The DOM *)

(** Identity of an element object. *)
Abbreviation Ref := nat.

(** The shape of a tree of elements. *)
#[local] Unset Elimination Schemes.
Inductive Tree := Node (ref : Ref) (children : list Tree).

#[local] Set Elimination Schemes.

Definition root (t : Tree) : Ref := match t with Node r _ => r end.

(** What an element holds.  [classList] is the token list of the class
    attribute; [type], [disabled] and [href] are the reflected properties
    that [isFocusable] reads ([type] is [None] where the element has no
    such property). *)
Record Element := {
  nodeName : string;
  attributes : gmap string string;
  classList : list string;
  type : option string;
  disabled : bool;
  href : string
}.

Inductive Mutation :=
| SetAttribute (r : Ref) (name value : string)
| RemoveAttribute (r : Ref) (name : string)
| ClassListAdd (r : Ref) (token : string).

(** Identity of a function object.  A listener is recognised by the function
    it was added with, and the two handlers of a component are arrow functions
    held in fields of the instance: every instance has two of its own. *)
Inductive Handler := Closure (identity : nat).

#[global] Instance Handler_eq_dec : EqDecision Handler.
Proof. solve_decision. Defined.

Inductive Exception :=
| Error (message : string)
| SyntaxError (selector : string)
| TypeError (message : string).

(** The answer of a selector query. *)
Inductive Selected :=
| Invalid
| Matched (r : option Ref).

(** The browser around the component: the document tree, the trees that are
    not attached to it, the state of every element, the listeners, and two
    things the component takes from its surroundings: the selector engine for
    selectors that are more than one id or one class ([engine], given the
    element states and the trees to search), and the strings that successive
    calls of [randomString()] return ([randomString], with [drawn] counting
    the calls so far).  [closures] counts the functions made so far, which
    gives the next ones their identity.  [log] records every mutation in the
    order made. *)
Record World := {
  document : Tree;
  detached : list Tree;
  elements : Ref -> Element;
  listeners : list (Ref * string * Handler);
  engine : (Ref -> Element) -> list Tree -> string -> Selected;
  randomString : nat -> string;
  drawn : nat;
  closures : nat;
  log : list Mutation
}.

Definition withElement (w : World) (r : Ref) (e : Element) (m : Mutation) : World :=
  {| document := document w; detached := detached w;
     elements := fun r' => if Nat.eqb r' r then e else elements w r';
     listeners := listeners w; engine := engine w;
     randomString := randomString w; drawn := drawn w;
     closures := closures w; log := log w ++ [m] |}.

Definition withAttributes (e : Element) (a : gmap string string) : Element :=
  {| nodeName := nodeName e; attributes := a; classList := classList e;
     type := type e; disabled := disabled e; href := href e |}.

Definition withClassList (e : Element) (c : list string) : Element :=
  {| nodeName := nodeName e; attributes := attributes e; classList := c;
     type := type e; disabled := disabled e; href := href e |}.

Definition withListeners (w : World) (l : list (Ref * string * Handler)) : World :=
  {| document := document w; detached := detached w; elements := elements w;
     listeners := l; engine := engine w;
     randomString := randomString w; drawn := drawn w;
     closures := closures w; log := log w |}.

Definition withClosures (w : World) (n : nat) : World :=
  {| document := document w; detached := detached w; elements := elements w;
     listeners := listeners w; engine := engine w;
     randomString := randomString w; drawn := drawn w;
     closures := n; log := log w |}.

(** *** Attributes and classes *)

Definition getAttribute (w : World) (r : Ref) (name : string) : option string :=
  attributes (elements w r) !! name.

Definition hasAttribute (w : World) (r : Ref) (name : string) : bool :=
  match getAttribute w r name with Some _ => true | None => false end.

Definition setAttribute (r : Ref) (name value : string) (w : World) : World :=
  withElement w r
    (withAttributes (elements w r) (<[name := value]> (attributes (elements w r))))
    (SetAttribute r name value).

Definition removeAttribute (r : Ref) (name : string) (w : World) : World :=
  withElement w r
    (withAttributes (elements w r) (delete name (attributes (elements w r))))
    (RemoveAttribute r name).

(** [element.id]: the id attribute, the empty string when there is none. *)
Definition elementId (w : World) (r : Ref) : string :=
  default "" (getAttribute w r "id").

Definition classList_contains (w : World) (r : Ref) (token : string) : bool :=
  bool_decide (token ∈ classList (elements w r)).

Definition classList_add (r : Ref) (token : string) (w : World) : World :=
  withElement w r
    (if classList_contains w r token then elements w r
     else withClassList (elements w r) (classList (elements w r) ++ [token]))
    (ClassListAdd r token).

(** *** Tree order *)

Fixpoint preorder (t : Tree) : list Ref :=
  match t with
  | Node r kids => r :: flat_map preorder kids
  end.

Fixpoint subtree (r : Ref) (t : Tree) : option Tree :=
  match t with
  | Node r' kids =>
      if Nat.eqb r' r then Some t
      else (fix among (ts : list Tree) : option Tree :=
              match ts with
              | [] => None
              | k :: ts' =>
                  match subtree r k with
                  | Some s => Some s
                  | None => among ts'
                  end
              end) kids
  end.

Fixpoint firstSome {A B} (f : A -> option B) (l : list A) : option B :=
  match l with
  | [] => None
  | x :: l' => match f x with Some y => Some y | None => firstSome f l' end
  end.

(** The trees below [r]: its children, wherever [r] sits. *)
Definition childrenOf (w : World) (r : Ref) : list Tree :=
  match firstSome (subtree r) (document w :: detached w) with
  | Some (Node _ kids) => kids
  | None => []
  end.

(** The element siblings that follow [r] under its parent, in order; the
    head is [r.nextElementSibling]. *)
Fixpoint siblingsAfter (r : Ref) (t : Tree) : option (list Ref) :=
  match t with
  | Node _ kids =>
      (fix among (ts : list Tree) : option (list Ref) :=
         match ts with
         | [] => None
         | k :: ts' =>
             if Nat.eqb (root k) r then Some (map root ts')
             else match siblingsAfter r k with
                  | Some l => Some l
                  | None => among ts'
                  end
         end) kids
  end.

Definition followingSiblings (w : World) (r : Ref) : list Ref :=
  default [] (firstSome (siblingsAfter r) (document w :: detached w)).

Definition nextElementSibling (w : World) (r : Ref) : option Ref :=
  head (followingSiblings w r).

(** *** Selectors *)

Module Css.

Definition isNameStart (c : Ascii.ascii) : bool :=
  Str.isUpper c || Str.isLower c || Ascii.eqb c "_"%char.

Definition isNameChar (c : Ascii.ascii) : bool :=
  isNameStart c || Str.isDigit c || Ascii.eqb c "-"%char.

Fixpoint allChars (p : Ascii.ascii -> bool) (s : string) : bool :=
  match s with
  | EmptyString => true
  | String c rest => p c && allChars p rest
  end.

(** Would these characters start an identifier? *)
Definition startsIdent (s : string) : bool :=
  match s with
  | EmptyString => false
  | String c rest =>
      isNameStart c ||
      (Ascii.eqb c "-"%char &&
       match rest with
       | EmptyString => false
       | String d _ => isNameStart d
       end)
  end.

(** A plain identifier: ASCII letters, digits, [_] and [-], starting as an
    identifier does. *)
Definition isIdent (s : string) : bool :=
  allChars isNameChar s && startsIdent s.

Inductive Selector :=
| IdSelector (name : string)
| ClassSelector (name : string).

Inductive Parse :=
| Simple (s : Selector)
| Malformed
| Other.

(** What follows [#] or [.]: a plain identifier makes a simple selector;
    nothing at all, or name characters that do not start an identifier (a
    leading digit, a lone [-], [-] and a digit), is not a selector; every
    other string (a [--] start, escapes, bytes outside ASCII, combinators,
    attribute tests, ...) is left to the surrounding selector engine. *)
Definition classify (k : string -> Selector) (name : string) : Parse :=
  if String.eqb name "" then Malformed
  else if allChars isNameChar name then
    if startsIdent name then Simple (k name)
    else if String.prefix "--" name then Other
    else Malformed
  else Other.

Definition parse (selector : string) : Parse :=
  match selector with
  | String "#"%char name => classify IdSelector name
  | String "."%char name => classify ClassSelector name
  | _ => Other
  end.

End Css.

(** Does the element match?  Ids and classes are compared as they are (a
    document in no-quirks mode). *)
Definition matches (w : World) (s : Css.Selector) (r : Ref) : bool :=
  match s with
  | Css.IdSelector name => bool_decide (getAttribute w r "id" = Some name)
  | Css.ClassSelector name => classList_contains w r name
  end.

(** First match in tree order among the given trees. *)
Definition select (w : World) (scope : list Tree) (selector : string) : Selected :=
  match Css.parse selector with
  | Css.Simple s => Matched (List.find (matches w s) (flat_map preorder scope))
  | Css.Malformed => Invalid
  | Css.Other => engine w (elements w) scope selector
  end.

(** ** Computations: a state over [World] that may throw *)

Inductive Outcome (A : Type) :=
| Returns (a : A) (w : World)
| Throws (e : Exception) (w : World).
Arguments Returns {A} a w.
Arguments Throws {A} e w.

Definition M (A : Type) : Type := World -> Outcome A.

#[global] Instance M_ret : MRet M := fun A a w => Returns a w.
#[global] Instance M_bind : MBind M := fun A B f m w =>
  match m w with
  | Returns a w' => f a w'
  | Throws e w' => Throws e w'
  end.

Definition gets {A} (f : World -> A) : M A := fun w => Returns (f w) w.
Definition modify (f : World -> World) : M unit := fun w => Returns tt (f w).
Definition throw {A} (e : Exception) : M A := fun w => Throws e w.

Definition skip : M unit := mret tt.

(** The world a computation ends in, returned or thrown. *)
Definition after {A} (o : Outcome A) : World :=
  match o with Returns _ w => w | Throws _ w => w end.

Fixpoint forEach {A} (l : list A) (f : A -> M unit) : M unit :=
  match l with
  | [] => mret tt
  | x :: l' => f x ;; forEach l' f
  end.

(** [l.map(f)] for an [f] that may throw: left to right, stopping at the
    first throw. *)
Fixpoint traverse {A B} (f : A -> M B) (l : list A) : M (list B) :=
  match l with
  | [] => mret []
  | x :: l' => y ← f x; ys ← traverse f l'; mret (y :: ys)
  end.

(** [for (let i = n - 1; i >= 0; --i) body(i)]. *)
Fixpoint countDown (n : nat) (body : nat -> M unit) : M unit :=
  match n with
  | O => mret tt
  | S i => body i ;; countDown i body
  end.

(** [document.querySelector(selector)]. *)
Definition document_querySelector (selector : string) : M (option Ref) :=
  fun w =>
    match select w [document w] selector with
    | Matched r => Returns r w
    | Invalid => Throws (SyntaxError selector) w
    end.

(** [element.querySelector(selector)]: among the descendants of [r]. *)
Definition querySelector (r : Ref) (selector : string) : M (option Ref) :=
  fun w =>
    match select w (childrenOf w r) selector with
    | Matched found => Returns found w
    | Invalid => Throws (SyntaxError selector) w
    end.

(** ** The two number conversions [isFocusable] applies to a tabindex *)

Module Js.

Definition bytes (l : list nat) : string :=
  fold_right (fun n s => String (Ascii.ascii_of_nat n) s) EmptyString l.

(** The white space and line terminators that the conversions strip:
    U+0009..U+000D, U+0020, U+00A0, U+1680, U+2000..U+200A, U+2028,
    U+2029, U+202F, U+205F, U+3000, U+FEFF. *)
Definition whiteSpace : list string :=
  map bytes
    ([[9]; [10]; [11]; [12]; [13]; [32]; [194; 160]; [225; 154; 128]] ++
     map (fun n => [226; 128; n]) (seq 128 11) ++
     [[226; 128; 168]; [226; 128; 169]; [226; 128; 175]; [226; 129; 159];
      [227; 128; 128]; [239; 187; 191]]).

Fixpoint dropPrefix (p s : string) : option string :=
  match p, s with
  | EmptyString, _ => Some s
  | String a p', String b s' => if Ascii.eqb a b then dropPrefix p' s' else None
  | String _ _, EmptyString => None
  end.

Fixpoint stripWith (ws : list string) (fuel : nat) (s : string) : string :=
  match fuel with
  | O => s
  | S fuel' =>
      match firstSome (fun p => dropPrefix p s) ws with
      | Some s' => stripWith ws fuel' s'
      | None => s
      end
  end.

Definition trimStart (s : string) : string :=
  stripWith whiteSpace (String.length s) s.

Definition trimEnd (s : string) : string :=
  String.rev (stripWith (map String.rev whiteSpace) (String.length s) (String.rev s)).

Definition trim (s : string) : string := trimEnd (trimStart s).

Definition digitValue (c : Ascii.ascii) : option Z :=
  let n := Z.of_nat (Ascii.nat_of_ascii c) in
  if Str.isDigit c then Some (n - 48)%Z
  else if Str.isLower c then Some (n - 87)%Z
  else if Str.isUpper c then Some (n - 55)%Z
  else None.

Definition isDigitIn (radix : Z) (c : Ascii.ascii) : bool :=
  match digitValue c with
  | Some v => (v <? radix)%Z
  | None => false
  end.

(** The longest run of digits of the radix at the start, as its value,
    with what is left; [None] when there is no digit. *)
Fixpoint digitsFrom (radix : Z) (acc : option Z) (s : string) : option Z * string :=
  match s with
  | EmptyString => (acc, s)
  | String c rest =>
      if isDigitIn radix c
      then digitsFrom radix
             (Some (default 0%Z acc * radix + default 0%Z (digitValue c))%Z) rest
      else (acc, s)
  end.

Definition digits (radix : Z) (s : string) : option Z * string :=
  digitsFrom radix None s.

Definition dropSign (s : string) : bool * string :=
  match s with
  | String "-"%char rest => (true, rest)
  | String "+"%char rest => (false, rest)
  | _ => (false, s)
  end.

(** [parseInt(s)] with no radix given; [None] is NaN. *)
Definition parseInt (s : string) : option Z :=
  let '(negative, body) := dropSign (trimStart s) in
  let '(radix, body) :=
    match body with
    | String "0"%char (String x rest) =>
        if Ascii.eqb x "x"%char || Ascii.eqb x "X"%char then (16%Z, rest)
        else (10%Z, body)
    | _ => (10%Z, body)
    end in
  match fst (digits radix body) with
  | Some v => Some (if negative then (- v)%Z else v)
  | None => None
  end.

(** [x > -1] for the outcome of [parseInt]. *)
Definition gtMinusOne (x : option Z) : bool :=
  match x with
  | Some v => (-1 <? v)%Z
  | None => false
  end.

Definition allDigits (radix : Z) (s : string) : bool :=
  match digits radix s with
  | (Some _, EmptyString) => true
  | _ => false
  end.

Definition exponentOk (s : string) : bool :=
  match s with
  | EmptyString => true
  | String e rest =>
      (Ascii.eqb e "e"%char || Ascii.eqb e "E"%char) &&
      allDigits 10 (snd (dropSign rest))
  end.

Definition unsignedDecimalOk (s : string) : bool :=
  String.eqb s "Infinity" ||
  match digits 10 s with
  | (whole, String "."%char rest) =>
      match digits 10 rest with
      | (fraction, rest') =>
          (bool_decide (is_Some whole) || bool_decide (is_Some fraction)) &&
          exponentOk rest'
      end
  | (Some _, rest) => exponentOk rest
  | (None, _) => false
  end.

(** Is the string a numeric literal once trimmed (the empty string is 0)? *)
Definition numeric (s : string) : bool :=
  let t := trim s in
  String.eqb t "" ||
  match t with
  | String "0"%char (String x rest) =>
      if Ascii.eqb x "x"%char || Ascii.eqb x "X"%char then allDigits 16 rest
      else if Ascii.eqb x "o"%char || Ascii.eqb x "O"%char then allDigits 8 rest
      else if Ascii.eqb x "b"%char || Ascii.eqb x "B"%char then allDigits 2 rest
      else unsignedDecimalOk t
  | _ => unsignedDecimalOk (snd (dropSign t))
  end.

(** [isNaN(s)] on a string. *)
Definition isNaN (s : string) : bool := negb (numeric s).

End Js.

(** [isFocusable(element)].  The pattern [/input|select|textarea|button/i]
    is looked for anywhere in the node name. *)
Definition isFocusable (element : Ref) : M bool :=
  fun w =>
    let native :=
      let name := nodeName (elements w element) in
      if existsb (fun word => Str.includes word (Str.toLowerCase name))
           ["input"; "select"; "textarea"; "button"]
      then match type (elements w element) with
           | Some t =>
               Returns (negb (String.eqb (Str.toLowerCase t) "hidden") &&
                        negb (disabled (elements w element))) w
           | None => Throws (TypeError "element.type is undefined") w
           end
      else if String.eqb name "A"
      then Returns (Str.truthy (href (elements w element))) w
      else Returns false w in
    match getAttribute w element "tabindex" with
    | Some tabindex =>
        if negb (Js.isNaN tabindex)
        then Returns (Js.gtMinusOne (Js.parseInt tabindex)) w
        else native
    | None => native
    end.

(** ** The component *)

Definition JS_COLLAPSIBLE := "mdlext-js-collapsible".
Definition COLLAPSIBLE_CONTROL_CLASS := "mdlext-collapsible-control".
Definition COLLAPSIBLE_REGION_CLASS := "mdlext-collapsible-region".

(** The fields of a [Collapsible] once its control element is found; the
    two handlers are the functions made for this instance. *)
Record Collapsible := {
  element_ : Ref;
  controlElement_ : Ref;
  keyDownHandler : Handler;
  clickHandler : Handler
}.

Section Methods.

Variable this : Collapsible.

Let controlElement := controlElement_ this.

Definition isExpanded (w : World) : bool :=
  match getAttribute w controlElement "aria-expanded" with
  | Some v => String.eqb (Str.toLowerCase v) "true"
  | None => false
  end.

Definition isDisabled (w : World) : bool :=
  match getAttribute w controlElement "disabled" with
  | Some v => negb (String.eqb (Str.toLowerCase v) "false")
  | None => false
  end ||
  match getAttribute w controlElement "aria-disabled" with
  | Some v => negb (String.eqb (Str.toLowerCase v) "false")
  | None => false
  end.

Definition regionIds (w : World) : list string :=
  match getAttribute w controlElement "aria-controls" with
  | Some v => Str.split v
  | None => []
  end.

(** The whole [map] runs before the [filter]. *)
Definition regionElements : M (list Ref) :=
  ids ← gets regionIds;
  found ← traverse (fun i => document_querySelector ("#" ++ i)) ids;
  mret (omap (fun el => el) found).

Definition collapse : M unit :=
  modify (setAttribute controlElement "aria-expanded" "false") ;;
  regions ← regionElements;
  countDown (length regions) (fun i =>
    match regions !! i with
    | Some region => modify (setAttribute region "hidden" "")
    | None => throw (TypeError "regions[i] is undefined")
    end).

Definition expand : M unit :=
  modify (setAttribute controlElement "aria-expanded" "true") ;;
  regions ← regionElements;
  forEach regions (fun region => modify (removeAttribute region "hidden")).

Definition toggle : M unit :=
  expanded ← gets isExpanded;
  if (expanded : bool) then collapse else expand.

Definition clickHandler_ : M unit :=
  off ← gets isDisabled;
  if (off : bool) then skip else toggle.

(** [ids.find(...)] gives the id found or [undefined]; the test is on its
    truthiness. *)
Definition addRegionId (regionId : string) : M unit :=
  ids ← gets regionIds;
  if negb (from_option Str.truthy false
             (List.find (fun i => String.eqb regionId i) ids))
  then modify (setAttribute controlElement "aria-controls"
                 (Str.join (ids ++ [regionId])))
  else skip.

(** [randomString()], taken from the surroundings. *)
Definition randomStringM : M string :=
  fun w =>
    Returns (randomString w (drawn w))
      {| document := document w; detached := detached w;
         elements := elements w; listeners := listeners w;
         engine := engine w; randomString := randomString w;
         drawn := S (drawn w); closures := closures w; log := log w |}.

Definition addRegionElement (region : Ref) : M unit :=
  hasId ← gets (fun w => hasAttribute w region "id");
  (if (hasId : bool) then skip
   else s ← randomStringM;
        modify (setAttribute region "id" ("region-" ++ s))) ;;
  modify (classList_add region COLLAPSIBLE_REGION_CLASS) ;;
  modify (setAttribute region "role" "region") ;;
  expanded ← gets isExpanded;
  (if (expanded : bool) then modify (removeAttribute region "hidden")
   else modify (setAttribute region "hidden" "")) ;;
  regionId ← gets (fun w => elementId w region);
  addRegionId regionId.

(** [region] may be [null]; nothing happens then, nor when its id is
    empty. *)
Definition removeRegionElement (region : option Ref) : M unit :=
  match region with
  | None => skip
  | Some r =>
      rid ← gets (fun w => elementId w r);
      if Str.truthy rid then
        ids ← gets regionIds;
        modify (setAttribute controlElement "aria-controls"
                  (Str.join (List.filter (fun i => String.eqb i rid) ids)))
      else skip
  end.

Definition removeEventListener (r : Ref) (kind : string) (h : Handler) : M unit :=
  modify (fun w => withListeners w
    (List.filter (fun l => negb (bool_decide (l = (r, kind, h)))) (listeners w))).

Definition addEventListener (r : Ref) (kind : string) (h : Handler) : M unit :=
  modify (fun w =>
    if bool_decide ((r, kind, h) ∈ listeners w) then w
    else withListeners w (listeners w ++ [(r, kind, h)])).

Definition removeListeners : M unit :=
  removeEventListener controlElement "keydown" (keyDownHandler this) ;;
  removeEventListener controlElement "click" (clickHandler this).

Definition addListeners : M unit :=
  addEventListener controlElement "keydown" (keyDownHandler this) ;;
  addEventListener controlElement "click" (clickHandler this).

(** The sibling walk of [initRegions]: [sibs] are the element siblings
    after the root, nearest first. *)
Fixpoint scanSiblings (w : World) (sibs : list Ref) : list Ref :=
  match sibs with
  | [] => []
  | r :: rest =>
      if classList_contains w r COLLAPSIBLE_REGION_CLASS
      then r :: scanSiblings w rest
      else if classList_contains w r JS_COLLAPSIBLE then []
      else scanSiblings w rest
  end.

Definition initRegions : M unit :=
  listed ← gets (fun w => hasAttribute w controlElement "aria-controls");
  regions ← (if (listed : bool) then regionElements
             else gets (fun w => scanSiblings w (followingSiblings w (element_ this))));
  forEach regions addRegionElement.

End Methods.

Definition initControl (element : Ref) : M Ref :=
  found ← querySelector element ("." ++ COLLAPSIBLE_CONTROL_CLASS);
  onRoot ← gets (fun w => classList_contains w element COLLAPSIBLE_CONTROL_CLASS);
  match (match (found : option Ref) with
         | Some c => Some c
         | None => if (onRoot : bool) then Some element else None
         end) with
  | None =>
      throw (Error ("A collapsible must contain an element with class=" ++
                    Str.quote ++ COLLAPSIBLE_CONTROL_CLASS ++ Str.quote))
  | Some control =>
      expandedSet ← gets (fun w => hasAttribute w control "aria-expanded");
      (if (expandedSet : bool) then skip
       else modify (setAttribute control "aria-expanded" "false")) ;;
      name ← gets (fun w => nodeName (elements w control));
      (if String.eqb (Str.toLowerCase name) "button" then skip
       else modify (setAttribute control "role" "button")) ;;
      tabbed ← gets (fun w => hasAttribute w control "tabindex");
      (if (tabbed : bool) then skip
       else modify (setAttribute control "tabindex" "0")) ;;
      mret control
  end.

(** The class fields [keyDownHandler] and [clickHandler]: two new functions
    for the instance under construction. *)
Definition newHandlers : M (Handler * Handler) :=
  fun w =>
    Returns (Closure (closures w), Closure (S (closures w)))
      (withClosures w (S (S (closures w)))).

(** [new Collapsible(element)]: the fields are set up and the constructor
    runs [init]. *)
Definition init (element : Ref) : M Collapsible :=
  handlers ← newHandlers;
  control ← initControl element;
  let this := {| element_ := element; controlElement_ := control;
                 keyDownHandler := fst (handlers : Handler * Handler);
                 clickHandler := snd handlers |} in
  initRegions this ;;
  removeListeners this ;;
  addListeners this ;;
  mret this.

(** The exception a computation ended with, if it threw. *)
Definition exception {A} (o : Outcome A) : option Exception :=
  match o with Returns _ _ => None | Throws e _ => Some e end.

(** The value a computation returned, if it did. *)
Definition returned {A} (o : Outcome A) : option A :=
  match o with Returns a _ => Some a | Throws _ _ => None end.

(** [document.querySelector('#' + i)] for a plain identifier [i]: the first
    element of the document, in tree order, whose id attribute is [i]. *)
Definition lookupId (w : World) (i : string) : option Ref :=
  List.find (matches w (Css.IdSelector i)) (preorder (document w)).

(** [document.querySelector('#' + i)] for any id, where it does not throw. *)
Definition resolve (w : World) (i : string) : option Ref :=
  match select w [document w] ("#" ++ i) with
  | Matched r => r
  | Invalid => None
  end.

(** How often [i] occurs in an id list. *)
Definition occurrences (i : string) (ids : list string) : nat :=
  length (List.filter (String.eqb i) ids).

(** The three state-changing calls of the public interface, and a run of
    them, one after the other. *)
Inductive Call := Expand | Collapse | Toggle.

Definition call (this : Collapsible) (c : Call) : M unit :=
  match c with
  | Expand => expand this
  | Collapse => collapse this
  | Toggle => toggle this
  end.

Definition run (this : Collapsible) (cs : list Call) : M unit :=
  forEach cs (call this).

(** What a call means for the expanded state, given the state before. *)
Definition intent (c : Call) (before : bool) : bool :=
  match c with
  | Expand => true
  | Collapse => false
  | Toggle => negb before
  end.

(** The regions [initRegions] works on. *)
Definition discoverRegions (this : Collapsible) : M (list Ref) :=
  listed ← gets (fun w => hasAttribute w (controlElement_ this) "aria-controls");
  if (listed : bool) then regionElements this
  else gets (fun w => scanSiblings w (followingSiblings w (element_ this))).

(** The elements below [r], in tree order. *)
Definition descendants (w : World) (r : Ref) : list Ref :=
  flat_map preorder (childrenOf w r).

(** ** Notions the properties are stated with *)

(** Two worlds that agree on the document tree and on every id attribute
    answer every id lookup alike. *)
Definition sameIds (w w' : World) : Prop :=
  document w' = document w ∧
  ∀ r, getAttribute w' r "id" = getAttribute w r "id".

(** [hidden] set, or taken away, on a list of elements, first to last. *)
Definition hideAll (rs : list Ref) (w : World) : World :=
  fold_left (fun w r => setAttribute r "hidden" "" w) rs w.

Definition showAll (rs : list Ref) (w : World) : World :=
  fold_left (fun w r => removeAttribute r "hidden" w) rs w.

(** Everything of a world but the attributes and the log. *)
Definition sameRest (w w' : World) : Prop :=
  document w' = document w ∧ detached w' = detached w ∧
  listeners w' = listeners w ∧ engine w' = engine w ∧
  randomString w' = randomString w ∧ drawn w' = drawn w ∧
  ∀ r, nodeName (elements w' r) = nodeName (elements w r) ∧
       classList (elements w' r) = classList (elements w r) ∧
       type (elements w' r) = type (elements w r) ∧
       disabled (elements w' r) = disabled (elements w r) ∧
       href (elements w' r) = href (elements w r).

(** The regions a call of expand or collapse acts on: what the lookup made
    in [w] returned (none when it threw). *)
Definition regionsOf (this : Collapsible) (w : World) : list Ref :=
  match regionElements this w with
  | Returns regions _ => regions
  | Throws _ _ => []
  end.

(** The world after one more call of [randomString()]. *)
Definition bump (w : World) : World :=
  {| document := document w; detached := detached w;
     elements := elements w; listeners := listeners w;
     engine := engine w; randomString := randomString w;
     drawn := S (drawn w); closures := closures w; log := log w |}.

(** What [addRegionElement] has done to the region when it reaches
    [addRegionId]. *)
Definition prepared (this : Collapsible) (region : Ref) (w : World) : World :=
  let w1 :=
    if hasAttribute w region "id" then w
    else setAttribute region "id" ("region-" ++ randomString w (drawn w)) (bump w) in
  let w2 :=
    setAttribute region "role" "region"
      (classList_add region COLLAPSIBLE_REGION_CLASS w1) in
  if isExpanded this w2 then removeAttribute region "hidden" w2
  else setAttribute region "hidden" "" w2.

(** What [addRegionId] does to the world. *)
Definition withRegionId (this : Collapsible) (regionId : string) (w : World) : World :=
  if negb (from_option Str.truthy false
             (List.find (fun i => String.eqb regionId i) (regionIds this w)))
  then setAttribute (controlElement_ this) "aria-controls"
         (Str.join (regionIds this w ++ [regionId])) w
  else w.

(** What [addRegionElement] does to the world, for one region and for a
    list of them. *)
Definition added (this : Collapsible) (region : Ref) (w : World) : World :=
  withRegionId this (elementId (prepared this region w) region)
    (prepared this region w).

Definition addedAll (this : Collapsible) (regions : list Ref) (w : World) : World :=
  fold_left (fun w region => added this region w) regions w.

(** The regions [initRegions] found in [w] (none when the lookup threw). *)
Definition discovered (this : Collapsible) (w : World) : list Ref :=
  match discoverRegions this w with
  | Returns regions _ => regions
  | Throws _ _ => []
  end.

(** The instance that a construction begun in [w] makes. *)
Definition constructed (w : World) (element control : Ref) : Collapsible :=
  {| element_ := element; controlElement_ := control;
     keyDownHandler := Closure (closures w);
     clickHandler := Closure (S (closures w)) |}.

(** The world once the two handlers of a new instance are made. *)
Definition allocated (w : World) : World :=
  withClosures w (S (S (closures w))).

(** The control element [initControl] settles on, if any. *)
Definition findControl (w : World) (element : Ref) : option Ref :=
  match List.find (matches w (Css.ClassSelector COLLAPSIBLE_CONTROL_CLASS))
          (descendants w element) with
  | Some c => Some c
  | None =>
      if classList_contains w element COLLAPSIBLE_CONTROL_CLASS
      then Some element else None
  end.

(** The defaults [initControl] writes on the control element. *)
Definition controlDefaults (control : Ref) (w : World) : World :=
  let w1 :=
    if hasAttribute w control "aria-expanded" then w
    else setAttribute control "aria-expanded" "false" w in
  let w2 :=
    if String.eqb (Str.toLowerCase (nodeName (elements w1 control))) "button" then w1
    else setAttribute control "role" "button" w1 in
  if hasAttribute w2 control "tabindex" then w2
  else setAttribute control "tabindex" "0" w2.

Definition configurationError : Exception :=
  Error ("A collapsible must contain an element with class=" ++
         Str.quote ++ COLLAPSIBLE_CONTROL_CLASS ++ Str.quote).

(** The only attributes in which [w'] differs from [w] are aria-expanded on
    the control element and hidden on the given regions. *)
Definition touchesOnly (control : Ref) (regions : list Ref) (w w' : World) : Prop :=
  sameRest w w' ∧
  (∀ r n, getAttribute w' r n ≠ getAttribute w r n →
          (r = control ∧ n = "aria-expanded") ∨ (n = "hidden" ∧ r ∈ regions)) ∧
  getAttribute w' control "aria-controls" = getAttribute w control "aria-controls".

(** The id list holds plain identifiers only (none, when there is no
    aria-controls attribute). *)
Definition plain (this : Collapsible) (w : World) : Prop :=
  Forall (fun i => Css.isIdent i = true) (regionIds this w).

(** ** Sample pages *)

Module Fixture.

Definition el (name : string) (attrs : list (string * string))
    (classes : list string) : Element :=
  {| nodeName := name; attributes := list_to_map attrs; classList := classes;
     type := None; disabled := false; href := "" |}.

Definition page (shape : Tree) (state : Ref -> Element) : World :=
  {| document := shape; detached := []; elements := state; listeners := [];
     engine := fun _ _ _ => Matched None;
     randomString := fun _ => "k3x9"; drawn := 0; closures := 0; log := [] |}.

(** html(0) > body(1) > [ widget(2), div(3), div(4), div(5) ] *)
Definition shape : Tree :=
  Node 0 [Node 1 [Node 2 []; Node 3 []; Node 4 []; Node 5 []]].

Definition widget : Collapsible :=
  {| element_ := 2; controlElement_ := 2;
     keyDownHandler := Closure 0; clickHandler := Closure 1 |}.

(** A control listing the regions a and b, with a, b and c on the page. *)
Definition listed : World :=
  page shape (fun r =>
    match r with
    | 2 => el "DIV" [("aria-controls", "a b"); ("aria-expanded", "true")]
             [JS_COLLAPSIBLE; COLLAPSIBLE_CONTROL_CLASS]
    | 3 => el "DIV" [("id", "a")] [COLLAPSIBLE_REGION_CLASS]
    | 4 => el "DIV" [("id", "b")] [COLLAPSIBLE_REGION_CLASS]
    | 5 => el "DIV" [("id", "c")] []
    | _ => el "DIV" [] []
    end).

(** The same control, also listing an id no element carries. *)
Definition stale : World :=
  page shape (fun r =>
    match r with
    | 2 => el "DIV" [("aria-controls", "a gone b")]
             [JS_COLLAPSIBLE; COLLAPSIBLE_CONTROL_CLASS]
    | 3 => el "DIV" [("id", "a")] [COLLAPSIBLE_REGION_CLASS]
    | 4 => el "DIV" [("id", "b")] [COLLAPSIBLE_REGION_CLASS]
    | _ => el "DIV" [] []
    end).

(** A control whose aria-controls attribute is the empty string. *)
Definition emptyControls : World :=
  page shape (fun r =>
    match r with
    | 2 => el "DIV" [("aria-controls", "")]
             [JS_COLLAPSIBLE; COLLAPSIBLE_CONTROL_CLASS]
    | _ => el "DIV" [] []
    end).

(** A control listing the region a and the id 9, which no element has. *)
Definition digitId : World :=
  page shape (fun r =>
    match r with
    | 2 => el "DIV" [("aria-controls", "a 9")]
             [JS_COLLAPSIBLE; COLLAPSIBLE_CONTROL_CLASS]
    | 3 => el "DIV" [("id", "a")] [COLLAPSIBLE_REGION_CLASS]
    | _ => el "DIV" [] []
    end).

(** A widget before construction: no aria-controls, two sibling regions
    with the ids a and 1. *)
Definition siblings : World :=
  page shape (fun r =>
    match r with
    | 2 => el "DIV" [] [JS_COLLAPSIBLE; COLLAPSIBLE_CONTROL_CLASS]
    | 3 => el "DIV" [("id", "a")] [COLLAPSIBLE_REGION_CLASS]
    | 4 => el "DIV" [("id", "1")] [COLLAPSIBLE_REGION_CLASS]
    | _ => el "DIV" [] []
    end).

(** A widget before construction whose control has tabindex="abc". *)
Definition oddTabindex : World :=
  page shape (fun r =>
    match r with
    | 2 => el "DIV" [("tabindex", "abc")] [JS_COLLAPSIBLE; COLLAPSIBLE_CONTROL_CLASS]
    | 3 => el "DIV" [("id", "a")] [COLLAPSIBLE_REGION_CLASS]
    | _ => el "DIV" [] []
    end).

(** A widget before construction whose control lists its own id. *)
Definition selfControlled : World :=
  page shape (fun r =>
    match r with
    | 2 => el "DIV" [("id", "me"); ("aria-controls", "me")]
             [JS_COLLAPSIBLE; COLLAPSIBLE_CONTROL_CLASS]
    | _ => el "DIV" [] []
    end).

(** A control without aria-controls, and elements whose id attribute is
    empty (3), holds a space (4), or is plain (5). *)
Definition oddIds : World :=
  page shape (fun r =>
    match r with
    | 2 => el "DIV" [] [JS_COLLAPSIBLE; COLLAPSIBLE_CONTROL_CLASS]
    | 3 => el "DIV" [("id", "")] []
    | 4 => el "DIV" [("id", "a b")] []
    | 5 => el "DIV" [("id", "c")] []
    | _ => el "DIV" [] []
    end).

(** A control that lists the id a twice. *)
Definition listedTwice : World :=
  page shape (fun r =>
    match r with
    | 2 => el "DIV" [("aria-controls", "a a")]
             [JS_COLLAPSIBLE; COLLAPSIBLE_CONTROL_CLASS]
    | 3 => el "DIV" [("id", "a")] []
    | _ => el "DIV" [] []
    end).

(** A control that lists the id a and, as a second id, the text
    a[hidden]~#b.  The selector [#a[hidden]~#b] names the element with id b
    when an earlier sibling with id a carries hidden; on this page a is the
    element 3, b the element 4 right after it and no other element has an id,
    which is what the engine of the page answers with. *)
Definition siblingSelector : World :=
  {| document := shape; detached := [];
     elements := fun r =>
       match r with
       | 2 => el "DIV" [("aria-controls", "a a[hidden]~#b"); ("aria-expanded", "true")]
                [JS_COLLAPSIBLE; COLLAPSIBLE_CONTROL_CLASS]
       | 3 => el "DIV" [("id", "a")] []
       | 4 => el "DIV" [("id", "b")] []
       | _ => el "DIV" [] []
       end;
     listeners := [];
     engine := fun state _ selector =>
       if String.eqb selector "#a[hidden]~#b"
       then Matched (match attributes (state 3) !! "hidden" with
                     | Some _ => Some 4
                     | None => None
                     end)
       else Matched None;
     randomString := fun _ => "k3x9"; drawn := 0; closures := 0; log := [] |}.

(** A page with no control element in or on the widget root. *)
Definition noControl : World :=
  page shape (fun r =>
    match r with
    | 2 => el "DIV" [] [JS_COLLAPSIBLE]
    | _ => el "DIV" [] []
    end).

End Fixture.

(** ** Teardown and the public interface *)

(** [downgrade()]. *)
Definition downgrade (this : Collapsible) : M unit := removeListeners this.

(** The public methods of [MaterialExtCollapsible], which hand over to the
    [Collapsible] the widget holds. *)
Module MaterialExtCollapsible.

Definition getControlElement (this : Collapsible) : Ref := controlElement_ this.

Definition getRegionElements (this : Collapsible) : M (list Ref) :=
  regionElements this.

Definition addRegionElements (this : Collapsible) (elements : list Ref) : M unit :=
  forEach elements (fun element => addRegionElement this element).

Definition removeRegionElements (this : Collapsible)
    (elements : list (option Ref)) : M unit :=
  forEach elements (fun element => removeRegionElement this element).

Definition mdlDowngrade_ (this : Collapsible) : M unit := downgrade this.

End MaterialExtCollapsible.

(** ** Further notions *)

(** A sibling that ends the walk of [initRegions]: it starts another
    collapsible and is no region. *)
Definition startsWidget (w : World) (r : Ref) : bool :=
  negb (classList_contains w r COLLAPSIBLE_REGION_CLASS) &&
  classList_contains w r JS_COLLAPSIBLE.

(** The element has an id attribute that is not empty and has no space. *)
Definition wellNamed (w : World) (r : Ref) : bool :=
  match getAttribute w r "id" with
  | Some i => Str.truthy i && negb (Str.hasSpace i)
  | None => false
  end.

(** expand for [true], collapse for [false]. *)
Definition settle (this : Collapsible) (expanded : bool) : M unit :=
  if expanded then expand this else collapse this.

(** A string of decimal digits, at least one. *)
Definition digitString (s : string) : bool :=
  Str.truthy s && Css.allChars Str.isDigit s.

(** Does the string start with a character that is no decimal digit? *)
Definition startsOtherwise (p : string) : bool :=
  match p with
  | EmptyString => false
  | String a _ => negb (Str.isDigit a)
  end.

(** The two listeners of a component on its control element. *)
Definition ownListeners (this : Collapsible) : list (Ref * string * Handler) :=
  [(controlElement_ this, "keydown", keyDownHandler this);
   (controlElement_ this, "click", clickHandler this)].

(** Was the function of the listener made before now? *)
Definition made (w : World) (l : Ref * string * Handler) : bool :=
  match l with
  | (_, _, Closure n) => Nat.ltb n (closures w)
  end.

(** A page for the listeners: the control element carries the two listeners
    of an earlier instance, and the element 3 a listener of the page's own. *)
Definition listening : World :=
  withClosures
    (withListeners Fixture.listed
       [(2, "keydown", Closure 0); (2, "click", Closure 1); (3, "click", Closure 2)])
    3.

(** A page on which the region b comes first in the document although the
    control lists it last, with a second element that repeats the id a and
    an element with the id c outside the document. *)
Definition shuffled : World :=
  {| document := Node 0 [Node 1 [Node 4 []; Node 2 []; Node 3 []; Node 5 []]];
     detached := [Node 6 []];
     elements := fun r =>
       match r with
       | 2 => Fixture.el "BUTTON" [("aria-controls", "a c b")]
                [JS_COLLAPSIBLE; COLLAPSIBLE_CONTROL_CLASS]
       | 3 => Fixture.el "DIV" [("id", "a")] []
       | 4 => Fixture.el "DIV" [("id", "b")] []
       | 5 => Fixture.el "DIV" [("id", "a")] []
       | 6 => Fixture.el "DIV" [("id", "c")] []
       | _ => Fixture.el "DIV" [] []
       end;
     listeners := []; engine := fun _ _ _ => Matched None;
     randomString := fun _ => "k3x9"; drawn := 0; closures := 0; log := [] |}.

(** A widget whose control element sits below the root, followed by a
    region without id, a plain element, a region with an id, the root of
    another widget and one more region. *)
Definition nested : World :=
  {| document :=
       Node 0 [Node 1 [Node 2 [Node 7 []]; Node 3 []; Node 4 []; Node 5 [];
                       Node 8 []; Node 9 []]];
     detached := [];
     elements := fun r =>
       match r with
       | 2 => Fixture.el "DIV" [] [JS_COLLAPSIBLE; COLLAPSIBLE_CONTROL_CLASS]
       | 7 => Fixture.el "BUTTON" [("aria-expanded", "TRUE")] [COLLAPSIBLE_CONTROL_CLASS]
       | 3 => Fixture.el "DIV" [("id", "first")] [COLLAPSIBLE_REGION_CLASS]
       | 4 => Fixture.el "P" [] []
       | 5 => Fixture.el "DIV" [("id", "second")] [COLLAPSIBLE_REGION_CLASS; JS_COLLAPSIBLE]
       | 8 => Fixture.el "DIV" [] [JS_COLLAPSIBLE]
       | 9 => Fixture.el "DIV" [("id", "third")] [COLLAPSIBLE_REGION_CLASS]
       | _ => Fixture.el "DIV" [] []
       end;
     listeners := []; engine := fun _ _ _ => Matched None;
     randomString := fun _ => "k3x9"; drawn := 0; closures := 0; log := [] |}.

(** ** Strings: splitting and joining *)

Module StrFacts.
Import Str.

Lemma split_not_nil s : split s ≠ [].
Proof.
  induction s as [|c s IH]; simpl; [discriminate|].
  destruct (Ascii.eqb c " "); [discriminate|].
  destruct (split s); discriminate.
Qed.

Lemma join_cons x l : l ≠ [] → join (x :: l) = (x ++ " " ++ join l)%string.
Proof. destruct l; [congruence|reflexivity]. Qed.

Lemma join_split s : join (split s) = s.
Proof.
  induction s as [|c s IH]; [reflexivity|]. simpl.
  destruct (Ascii.eqb_spec c " ") as [->|Hc].
  - rewrite join_cons by apply split_not_nil. simpl. by rewrite IH.
  - pose proof (split_not_nil s) as Hne.
    destruct (split s) as [|h t]; [congruence|].
    destruct t as [|h' t]; simpl in *; by rewrite <- IH.
Qed.

Lemma split_hasSpace s : Forall (fun x => hasSpace x = false) (split s).
Proof.
  induction s as [|c s IH]; simpl; [by repeat constructor|].
  destruct (Ascii.eqb_spec c " ") as [->|Hc]; [by constructor|].
  pose proof (split_not_nil s) as Hne.
  destruct (split s) as [|h t]; [congruence|].
  inversion IH; subst. constructor; [|done]. simpl.
  destruct (Ascii.eqb_spec c " "); [congruence|done].
Qed.

Lemma split_plain x : hasSpace x = false → split x = [x].
Proof.
  induction x as [|c x IH]; simpl; [done|].
  destruct (Ascii.eqb c " "); simpl; [discriminate|].
  intros H. by rewrite (IH H).
Qed.

Lemma split_glue x s :
  hasSpace x = false → split (x ++ " " ++ s)%string = x :: split s.
Proof.
  induction x as [|c x IH]; simpl; [done|].
  destruct (Ascii.eqb c " "); simpl; [discriminate|].
  intros H. by rewrite (IH H).
Qed.

Lemma split_join l :
  l ≠ [] → Forall (fun x => hasSpace x = false) l → split (join l) = l.
Proof.
  induction l as [|x l IH]; [congruence|]. intros _ Hall.
  inversion Hall as [|? ? Hx Hl]; subst.
  destruct l as [|y l]; [by apply split_plain|].
  rewrite join_cons by discriminate.
  rewrite split_glue by done. f_equal. by apply IH.
Qed.

Lemma truthy_true s : truthy s = true ↔ s ≠ "".
Proof.
  unfold truthy. destruct (String.eqb_spec s ""); simpl; split; congruence.
Qed.

End StrFacts.

(** ** Reading attributes after a mutation *)

Lemma getAttribute_setAttribute r n v w r' n' :
  getAttribute (setAttribute r n v w) r' n' =
  if decide (r' = r ∧ n' = n) then Some v else getAttribute w r' n'.
Proof.
  unfold getAttribute, setAttribute; simpl.
  destruct (Nat.eqb_spec r' r) as [->|Hr]; simpl.
  - destruct (decide (n' = n)) as [->|Hn].
    + rewrite lookup_insert_eq. by rewrite decide_True.
    + rewrite lookup_insert_ne by done. rewrite decide_False; [done|tauto].
  - rewrite decide_False; [done|tauto].
Qed.

Lemma getAttribute_removeAttribute r n w r' n' :
  getAttribute (removeAttribute r n w) r' n' =
  if decide (r' = r ∧ n' = n) then None else getAttribute w r' n'.
Proof.
  unfold getAttribute, removeAttribute; simpl.
  destruct (Nat.eqb_spec r' r) as [->|Hr]; simpl.
  - destruct (decide (n' = n)) as [->|Hn].
    + rewrite lookup_delete_eq. by rewrite decide_True.
    + rewrite lookup_delete_ne by done. rewrite decide_False; [done|tauto].
  - rewrite decide_False; [done|tauto].
Qed.

Lemma getAttribute_classList_add r t w r' n' :
  getAttribute (classList_add r t w) r' n' = getAttribute w r' n'.
Proof.
  unfold getAttribute, classList_add; simpl.
  destruct (Nat.eqb_spec r' r) as [->|Hr]; [|done].
  by destruct (classList_contains w r t).
Qed.

Lemma getAttribute_set_other r n v w r' n' :
  n' ≠ n → getAttribute (setAttribute r n v w) r' n' = getAttribute w r' n'.
Proof. intros. rewrite getAttribute_setAttribute, decide_False; [done|tauto]. Qed.

Lemma getAttribute_remove_other r n w r' n' :
  n' ≠ n → getAttribute (removeAttribute r n w) r' n' = getAttribute w r' n'.
Proof. intros. rewrite getAttribute_removeAttribute, decide_False; [done|tauto]. Qed.

Lemma getAttribute_set_same r n v w :
  getAttribute (setAttribute r n v w) r n = Some v.
Proof. rewrite getAttribute_setAttribute, decide_True; done. Qed.

(** ** Looking regions up *)

Section Lookup.

Variable this : Collapsible.

Lemma lookupId_sameIds w w' i : sameIds w w' → lookupId w' i = lookupId w i.
Proof.
  intros [Hd Hid]. unfold lookupId. rewrite Hd.
  induction (preorder (document w)) as [|r l IH]; [done|]. simpl.
  by rewrite Hid, IH.
Qed.

Lemma sameIds_refl w : sameIds w w.
Proof. by split. Qed.

Lemma sameIds_trans w1 w2 w3 : sameIds w1 w2 → sameIds w2 w3 → sameIds w1 w3.
Proof. intros [? H1] [? H2]. split; [congruence|]. intros r. by rewrite H2. Qed.

Lemma sameIds_setAttribute r n v w : n ≠ "id" → sameIds w (setAttribute r n v w).
Proof. intros. split; [done|]. intros r'. by apply getAttribute_set_other. Qed.

Lemma sameIds_removeAttribute r n w : n ≠ "id" → sameIds w (removeAttribute r n w).
Proof. intros. split; [done|]. intros r'. by apply getAttribute_remove_other. Qed.

Lemma isIdent_not_empty i : Css.isIdent i = true → i ≠ "".
Proof. intros H ->. discriminate. Qed.

Lemma classify_ident k i :
  Css.isIdent i = true → Css.classify k i = Css.Simple (k i).
Proof.
  intros H. pose proof (isIdent_not_empty i H) as Hne.
  unfold Css.isIdent in H. apply andb_true_iff in H as [Hall Hstart].
  unfold Css.classify.
  destruct (String.eqb_spec i ""); [done|]. by rewrite Hall, Hstart.
Qed.

Lemma parse_ident i :
  Css.isIdent i = true → Css.parse ("#" ++ i) = Css.Simple (Css.IdSelector i).
Proof. intros H. by rewrite <- (classify_ident Css.IdSelector i H). Qed.

Lemma document_querySelector_ident i w :
  Css.isIdent i = true →
  document_querySelector ("#" ++ i) w = Returns (lookupId w i) w.
Proof.
  intros H. unfold document_querySelector, select.
  rewrite (parse_ident i H). simpl. by rewrite app_nil_r.
Qed.

(** A query leaves the world as it is, and throws nothing but a
    SyntaxError. *)
Lemma document_querySelector_pure s w :
  after (document_querySelector s w) = w ∧
  (∀ e, exception (document_querySelector s w) = Some e → e = SyntaxError s).
Proof.
  unfold document_querySelector.
  destruct (select w [document w] s); simpl; split; try done.
  by intros e [= <-].
Qed.

Lemma traverse_query_pure ids w :
  after (traverse (fun i => document_querySelector ("#" ++ i)) ids w) = w ∧
  (∀ e, exception (traverse (fun i => document_querySelector ("#" ++ i)) ids w) = Some e →
        ∃ s, e = SyntaxError s).
Proof.
  induction ids as [|i ids IH]; simpl; [by split|].
  unfold mbind, M_bind.
  pose proof (document_querySelector_pure ("#" ++ i) w) as [Hw He].
  destruct (document_querySelector ("#" ++ i) w) as [a w1|e w1]; simpl in *.
  - subst w1. destruct IH as [IHw IHe].
    destruct (traverse _ ids w) as [b w2|e w2]; simpl in *; by split.
  - subst w1. split; [done|]. intros e' [= <-]. eauto.
Qed.

Lemma regionElements_pure w :
  after (regionElements this w) = w ∧
  (∀ e, exception (regionElements this w) = Some e → ∃ s, e = SyntaxError s).
Proof.
  unfold regionElements, gets, mbind, M_bind.
  pose proof (traverse_query_pure (regionIds this w) w) as [Hw He].
  destruct (traverse _ (regionIds this w) w) as [b w2|e w2]; simpl in *; by split.
Qed.

Lemma traverse_query_ident ids w :
  Forall (fun i => Css.isIdent i = true) ids →
  traverse (fun i => document_querySelector ("#" ++ i)) ids w =
  Returns (map (lookupId w) ids) w.
Proof.
  induction 1 as [|i ids Hi _ IH]; [done|]. simpl.
  unfold mbind, M_bind. rewrite document_querySelector_ident by done.
  cbv beta iota. by rewrite IH.
Qed.

(** For an id list of plain identifiers the regions are the elements found,
    in list order; an id that names no element leaves no trace. *)
Lemma regionElements_ident w :
  Forall (fun i => Css.isIdent i = true) (regionIds this w) →
  regionElements this w = Returns (omap (lookupId w) (regionIds this w)) w.
Proof.
  intros H. unfold regionElements, gets, mbind, M_bind.
  rewrite traverse_query_ident by done. simpl.
  unfold mret, M_ret. f_equal.
  generalize (regionIds this w). intros l.
  induction l as [|i l IH]; [done|]. simpl.
  destruct (lookupId w i); [f_equal|]; exact IH.
Qed.

Lemma regionIds_sameControls w w' :
  getAttribute w' (controlElement_ this) "aria-controls" =
    getAttribute w (controlElement_ this) "aria-controls" →
  regionIds this w' = regionIds this w.
Proof. unfold regionIds. by intros ->. Qed.

Lemma traverse_query_returns ids w found w' :
  traverse (fun i => document_querySelector ("#" ++ i)) ids w = Returns found w' →
  found = map (resolve w) ids.
Proof.
  revert found w'. induction ids as [|i ids IH]; intros found w'; simpl.
  - unfold mret, M_ret. intros [= <- _]. reflexivity.
  - unfold mbind, M_bind, mret, M_ret, document_querySelector at 1, resolve at 1.
    destruct (select w [document w] ("#" ++ i)) as [|r]; [discriminate|].
    destruct (traverse _ ids w) as [fs w1|] eqn:E; [|discriminate].
    intros [= <- _]. f_equal. by eapply IH.
Qed.

(** The regions come in the order of the id list. *)
Lemma regionElements_order w regions w' :
  regionElements this w = Returns regions w' →
  regions = omap (resolve w) (regionIds this w).
Proof.
  unfold regionElements, gets, mbind, M_bind, mret, M_ret.
  destruct (traverse _ (regionIds this w) w) as [found w1|] eqn:E; [|discriminate].
  apply traverse_query_returns in E as ->. intros [= <- _].
  generalize (regionIds this w). intros l.
  induction l as [|i l IH]; [done|]. simpl.
  destruct (resolve w i); [f_equal|]; exact IH.
Qed.

End Lookup.

(** ** What expand and collapse compute *)

Lemma sameRest_refl w : sameRest w w.
Proof. by repeat split. Qed.

Lemma sameRest_trans w1 w2 w3 : sameRest w1 w2 → sameRest w2 w3 → sameRest w1 w3.
Proof.
  intros (?&?&?&?&?&?&Ha) (?&?&?&?&?&?&Hb).
  repeat split; try congruence;
    destruct (Ha r) as (?&?&?&?&?), (Hb r) as (?&?&?&?&?); congruence.
Qed.

Lemma sameRest_setAttribute r n v w : sameRest w (setAttribute r n v w).
Proof.
  repeat split; try done; simpl; by destruct (Nat.eqb_spec r0 r) as [->|].
Qed.

Lemma sameRest_removeAttribute r n w : sameRest w (removeAttribute r n w).
Proof.
  repeat split; try done; simpl; by destruct (Nat.eqb_spec r0 r) as [->|].
Qed.

Lemma sameRest_hideAll rs w : sameRest w (hideAll rs w).
Proof.
  revert w. induction rs as [|r rs IH]; intros w; [apply sameRest_refl|].
  eapply sameRest_trans; [apply (sameRest_setAttribute r "hidden" "")|apply IH].
Qed.

Lemma sameRest_showAll rs w : sameRest w (showAll rs w).
Proof.
  revert w. induction rs as [|r rs IH]; intros w; [apply sameRest_refl|].
  eapply sameRest_trans; [apply (sameRest_removeAttribute r "hidden")|apply IH].
Qed.

Lemma log_hideAll rs w :
  log (hideAll rs w) = log w ++ map (fun r => SetAttribute r "hidden" "") rs.
Proof.
  revert w. induction rs as [|r rs IH]; intros w; simpl; [by rewrite app_nil_r|].
  unfold hideAll in IH. rewrite IH. simpl. by rewrite <- app_assoc.
Qed.

Lemma log_showAll rs w :
  log (showAll rs w) = log w ++ map (fun r => RemoveAttribute r "hidden") rs.
Proof.
  revert w. induction rs as [|r rs IH]; intros w; simpl; [by rewrite app_nil_r|].
  unfold showAll in IH. rewrite IH. simpl. by rewrite <- app_assoc.
Qed.

Lemma getAttribute_hideAll rs w r n :
  getAttribute (hideAll rs w) r n =
  if decide (n = "hidden" ∧ r ∈ rs) then Some "" else getAttribute w r n.
Proof.
  revert w. induction rs as [|x rs IH]; intros w; simpl.
  - rewrite decide_False; [done|]. intros [_ H]. by apply not_elem_of_nil in H.
  - unfold hideAll in IH. rewrite IH. rewrite getAttribute_setAttribute.
    repeat case_decide; try done; exfalso;
      rewrite elem_of_cons in *; intuition congruence.
Qed.

Lemma getAttribute_showAll rs w r n :
  getAttribute (showAll rs w) r n =
  if decide (n = "hidden" ∧ r ∈ rs) then None else getAttribute w r n.
Proof.
  revert w. induction rs as [|x rs IH]; intros w; simpl.
  - rewrite decide_False; [done|]. intros [_ H]. by apply not_elem_of_nil in H.
  - unfold showAll in IH. rewrite IH. rewrite getAttribute_removeAttribute.
    repeat case_decide; try done; exfalso;
      rewrite elem_of_cons in *; intuition congruence.
Qed.

Lemma hideAll_other rs w r n :
  n ≠ "hidden" → getAttribute (hideAll rs w) r n = getAttribute w r n.
Proof. intros H. rewrite getAttribute_hideAll, decide_False; [done|]. tauto. Qed.

Lemma showAll_other rs w r n :
  n ≠ "hidden" → getAttribute (showAll rs w) r n = getAttribute w r n.
Proof. intros H. rewrite getAttribute_showAll, decide_False; [done|]. tauto. Qed.

Lemma hideAll_hidden rs w :
  Forall (fun r => getAttribute (hideAll rs w) r "hidden" = Some "") rs.
Proof.
  apply Forall_forall. intros r Hr. by rewrite getAttribute_hideAll, decide_True.
Qed.

Lemma showAll_hidden rs w :
  Forall (fun r => getAttribute (showAll rs w) r "hidden" = None) rs.
Proof.
  apply Forall_forall. intros r Hr. by rewrite getAttribute_showAll, decide_True.
Qed.

Lemma elem_of_rev {A} (x : A) (l : list A) : x ∈ rev l ↔ x ∈ l.
Proof. rewrite !list_elem_of_In. symmetry. apply in_rev. Qed.

Lemma forEach_modify {A} (l : list A) (f : A -> World -> World) w :
  forEach l (fun x => modify (f x)) w = Returns tt (fold_left (fun w x => f x w) l w).
Proof. revert w. induction l as [|x l IH]; intros w; [done|]. simpl. apply IH. Qed.

(** The loop of [collapse] walks the regions from the last to the first and
    never reads past the array. *)
Lemma countDown_hide (regions : list Ref) (n : nat) w :
  (n ≤ length regions)%nat →
  countDown n (fun i =>
    match regions !! i with
    | Some region => modify (setAttribute region "hidden" "")
    | None => throw (TypeError "regions[i] is undefined")
    end) w =
  Returns tt (hideAll (rev (take n regions)) w).
Proof.
  revert w. induction n as [|n IH]; intros w Hn; [done|].
  destruct (lookup_lt_is_Some_2 regions n) as [x Hx]; [lia|].
  simpl. unfold mbind, M_bind. rewrite Hx. simpl.
  rewrite IH by lia. rewrite (take_S_r _ _ _ Hx), rev_app_distr. done.
Qed.

Section ExpandCollapse.

Variable this : Collapsible.
Let control := controlElement_ this.

Lemma collapse_eq w :
  let w1 := setAttribute control "aria-expanded" "false" w in
  collapse this w =
  match regionElements this w1 with
  | Returns regions _ => Returns tt (hideAll (rev regions) w1)
  | Throws e _ => Throws e w1
  end.
Proof.
  intros w1. unfold collapse, modify, mbind, M_bind. fold control. fold w1.
  pose proof (regionElements_pure this w1) as [Hw _].
  destruct (regionElements this w1) as [rs w2|e w2]; simpl in Hw; subst w2; [|done].
  rewrite countDown_hide by done. by rewrite firstn_all.
Qed.

Lemma expand_eq w :
  let w1 := setAttribute control "aria-expanded" "true" w in
  expand this w =
  match regionElements this w1 with
  | Returns regions _ => Returns tt (showAll regions w1)
  | Throws e _ => Throws e w1
  end.
Proof.
  intros w1. unfold expand, mbind, M_bind. unfold modify at 1.
  fold control. fold w1.
  pose proof (regionElements_pure this w1) as [Hw _].
  destruct (regionElements this w1) as [rs w2|e w2]; simpl in Hw; subst w2; [|done].
  by rewrite forEach_modify.
Qed.

End ExpandCollapse.

(** ** The order in which collapse and expand work *)

Section Order.

Variable this : Collapsible.
Let control := controlElement_ this.

Lemma after_collapse w :
  let w1 := setAttribute control "aria-expanded" "false" w in
  after (collapse this w) = hideAll (rev (regionsOf this w1)) w1.
Proof.
  intros w1. rewrite collapse_eq. fold control. fold w1. unfold regionsOf.
  by destruct (regionElements this w1).
Qed.

Lemma after_expand w :
  let w1 := setAttribute control "aria-expanded" "true" w in
  after (expand this w) = showAll (regionsOf this w1) w1.
Proof.
  intros w1. rewrite expand_eq. fold control. fold w1. unfold regionsOf.
  by destruct (regionElements this w1).
Qed.

(** What collapse and expand write, and in which order: collapse writes
    aria-expanded="false" on the control element and then sets hidden on the
    regions the id list resolves to, the region of the last id first; expand
    writes aria-expanded="true" and then takes hidden away from the regions in
    the order of the id list.  The regions are looked up once aria-expanded is
    written; when that lookup throws, the call throws with it and no region is
    touched.  [log] holds the mutations in the order made. *)
Lemma collapse_expand_order w :
  let wc := setAttribute control "aria-expanded" "false" w in
  let we := setAttribute control "aria-expanded" "true" w in
  match regionElements this wc with
  | Returns regions _ =>
      regions = omap (resolve wc) (regionIds this w) ∧
      collapse this w = Returns tt (hideAll (rev regions) wc) ∧
      log (after (collapse this w)) =
        log w ++ SetAttribute control "aria-expanded" "false" ::
                 map (fun r => SetAttribute r "hidden" "") (rev regions) ∧
      Forall (fun r => getAttribute (after (collapse this w)) r "hidden" = Some "")
        regions
  | Throws e _ =>
      collapse this w = Throws e wc ∧
      log (after (collapse this w)) =
        log w ++ [SetAttribute control "aria-expanded" "false"]
  end ∧
  match regionElements this we with
  | Returns regions _ =>
      regions = omap (resolve we) (regionIds this w) ∧
      expand this w = Returns tt (showAll regions we) ∧
      log (after (expand this w)) =
        log w ++ SetAttribute control "aria-expanded" "true" ::
                 map (fun r => RemoveAttribute r "hidden") regions ∧
      Forall (fun r => getAttribute (after (expand this w)) r "hidden" = None)
        regions
  | Throws e _ =>
      expand this w = Throws e we ∧
      log (after (expand this w)) =
        log w ++ [SetAttribute control "aria-expanded" "true"]
  end ∧
  getAttribute (after (collapse this w)) control "aria-expanded" = Some "false" ∧
  getAttribute (after (expand this w)) control "aria-expanded" = Some "true".
Proof.
  intros wc we.
  assert (regionIds this wc = regionIds this w) as Hc
    by (apply regionIds_sameControls; by apply getAttribute_set_other).
  assert (regionIds this we = regionIds this w) as He
    by (apply regionIds_sameControls; by apply getAttribute_set_other).
  split; [|split; [|split]].
  - rewrite collapse_eq. fold control. fold wc.
    destruct (regionElements this wc) as [rs w1|e w1] eqn:E; [|by split].
    apply regionElements_order in E. rewrite Hc in E.
    split; [done|]. split; [done|]. simpl. split.
    + rewrite log_hideAll. unfold wc; simpl. rewrite <- app_assoc. reflexivity.
    + apply Forall_forall. intros r Hr.
      rewrite getAttribute_hideAll, decide_True; [done|].
      split; [done|]. exact (proj2 (elem_of_rev _ _) Hr).
  - rewrite expand_eq. fold control. fold we.
    destruct (regionElements this we) as [rs w1|e w1] eqn:E; [|by split].
    apply regionElements_order in E. rewrite He in E.
    split; [done|]. split; [done|]. simpl. split.
    + rewrite log_showAll. unfold we; simpl. rewrite <- app_assoc. reflexivity.
    + apply showAll_hidden.
  - rewrite after_collapse. rewrite hideAll_other by done. apply getAttribute_set_same.
  - rewrite after_expand. rewrite showAll_other by done. apply getAttribute_set_same.
Qed.

(** On the sample page the control lists a (3) and b (4): collapse hides b,
    then a; expand shows a, then b. *)
Example collapse_expand_order_listed :
  log (after (collapse Fixture.widget Fixture.listed)) =
    [SetAttribute 2 "aria-expanded" "false";
     SetAttribute 4 "hidden" ""; SetAttribute 3 "hidden" ""] ∧
  log (after (expand Fixture.widget Fixture.listed)) =
    [SetAttribute 2 "aria-expanded" "true";
     RemoveAttribute 3 "hidden"; RemoveAttribute 4 "hidden"].
Proof. split; vm_compute; reflexivity. Qed.

(** ** What expand and collapse leave alone *)

Lemma touchesOnly_hideAll rs v w :
  touchesOnly control rs w (hideAll rs (setAttribute control "aria-expanded" v w)).
Proof.
  split; [|split].
  - eapply sameRest_trans; [apply sameRest_setAttribute|apply sameRest_hideAll].
  - intros r n. rewrite getAttribute_hideAll, getAttribute_setAttribute.
    repeat case_decide; intros; try tauto.
  - rewrite getAttribute_hideAll, decide_False by (intros [? _]; done).
    by apply getAttribute_set_other.
Qed.

Lemma touchesOnly_showAll rs v w :
  touchesOnly control rs w (showAll rs (setAttribute control "aria-expanded" v w)).
Proof.
  split; [|split].
  - eapply sameRest_trans; [apply sameRest_setAttribute|apply sameRest_showAll].
  - intros r n. rewrite getAttribute_showAll, getAttribute_setAttribute.
    repeat case_decide; intros; try tauto.
  - rewrite getAttribute_showAll, decide_False by (intros [? _]; done).
    by apply getAttribute_set_other.
Qed.

(** C10: whether it returns or throws, expand (and likewise collapse)
    leaves the trees, the listeners, every class list and node name as they
    were, and changes no attribute other than aria-expanded on the control
    element and hidden on the regions its lookup returned; the aria-controls
    attribute of the control element is as before. *)
Theorem expand_collapse_frame w :
  touchesOnly control (regionsOf this (setAttribute control "aria-expanded" "true" w))
    w (after (expand this w)) ∧
  touchesOnly control (regionsOf this (setAttribute control "aria-expanded" "false" w))
    w (after (collapse this w)) ∧
  regionIds this (after (expand this w)) = regionIds this w ∧
  regionIds this (after (collapse this w)) = regionIds this w.
Proof.
  rewrite after_collapse, after_expand. fold control.
  pose proof (touchesOnly_showAll
    (regionsOf this (setAttribute control "aria-expanded" "true" w)) "true" w) as He.
  pose proof (touchesOnly_hideAll
    (rev (regionsOf this (setAttribute control "aria-expanded" "false" w))) "false" w) as Hc.
  repeat split; try apply He; try apply Hc.
  - intros r n Hne. destruct Hc as (_&Hch&_).
    destruct (Hch r n Hne) as [?|[? Hin]]; [left; done|right].
    split; [done|]. exact (proj1 (elem_of_rev _ _) Hin).
  - unfold regionIds. fold control. destruct He as (_&_&->). done.
  - unfold regionIds. fold control. destruct Hc as (_&_&->). done.
Qed.

End Order.

(** ** Id lists of plain identifiers *)

Section Plain.

Variable this : Collapsible.
Let control := controlElement_ this.

Lemma omap_ext_all {A B} (f g : A -> option B) (l : list A) :
  (∀ x, f x = g x) → omap f l = omap g l.
Proof.
  intros H. induction l as [|x l IH]; [done|]. simpl. rewrite H.
  destruct (g x); [f_equal|]; exact IH.
Qed.

Lemma regionElements_set_plain v w :
  plain this w →
  regionElements this (setAttribute control "aria-expanded" v w) =
  Returns (omap (lookupId w) (regionIds this w))
          (setAttribute control "aria-expanded" v w).
Proof.
  intros Hp.
  assert (regionIds this (setAttribute control "aria-expanded" v w) = regionIds this w)
    as Hids by (apply regionIds_sameControls; by apply getAttribute_set_other).
  rewrite regionElements_ident by (by rewrite Hids).
  rewrite Hids. f_equal. apply omap_ext_all. intros i.
  apply lookupId_sameIds. by apply sameIds_setAttribute.
Qed.

Lemma expand_plain w :
  plain this w →
  expand this w =
  Returns tt (showAll (omap (lookupId w) (regionIds this w))
                (setAttribute control "aria-expanded" "true" w)).
Proof. intros Hp. rewrite expand_eq. fold control. by rewrite regionElements_set_plain. Qed.

Lemma collapse_plain w :
  plain this w →
  collapse this w =
  Returns tt (hideAll (rev (omap (lookupId w) (regionIds this w)))
                (setAttribute control "aria-expanded" "false" w)).
Proof. intros Hp. rewrite collapse_eq. fold control. by rewrite regionElements_set_plain. Qed.

Lemma toggle_eq w :
  toggle this w = if isExpanded this w then collapse this w else expand this w.
Proof. unfold toggle, gets, mbind, M_bind. by destruct (isExpanded this w). Qed.

Lemma addRegionId_eq regionId w :
  addRegionId this regionId w = Returns tt (withRegionId this regionId w).
Proof.
  unfold addRegionId, withRegionId, gets, modify, skip, mbind, M_bind. fold control.
  by destruct (negb _).
Qed.

Lemma addRegionElement_eq region w :
  addRegionElement this region w =
  Returns tt (withRegionId this (elementId (prepared this region w) region)
                (prepared this region w)).
Proof.
  rewrite <- addRegionId_eq.
  unfold addRegionElement, prepared, gets, modify, skip, randomStringM, bump,
    mbind, M_bind, mret, M_ret.
  destruct (hasAttribute w region "id"); cbv beta iota zeta;
    match goal with |- context [isExpanded this ?x] => destruct (isExpanded this x) end;
    reflexivity.
Qed.

Lemma removeRegionElement_returns region w :
  ∃ w', removeRegionElement this region w = Returns tt w'.
Proof.
  unfold removeRegionElement, gets, modify, skip, mbind, M_bind, mret, M_ret.
  destruct region as [r|]; [|eauto].
  destruct (Str.truthy (elementId w r)); eauto.
Qed.

(** Where every id of the list is a plain identifier, the lookup returns,
    in list order, the elements the ids name; an id that no element of the
    document carries is left out, and nothing is thrown.  Expand and collapse
    return and act on these elements. *)
Lemma stale_ids_dropped w :
  Forall (fun i => Css.isIdent i = true) (regionIds this w) →
  let regions := omap (lookupId w) (regionIds this w) in
  regionElements this w = Returns regions w ∧
  (∀ r, r ∈ regions ↔ ∃ i, i ∈ regionIds this w ∧ lookupId w i = Some r) ∧
  expand this w =
    Returns tt (showAll regions (setAttribute control "aria-expanded" "true" w)) ∧
  collapse this w =
    Returns tt (hideAll (rev regions) (setAttribute control "aria-expanded" "false" w)).
Proof.
  intros Hp regions. split; [by apply regionElements_ident|].
  split; [intros r; apply list_elem_of_omap|].
  split; [by apply expand_plain|by apply collapse_plain].
Qed.

(** Expand, collapse, toggle and getRegionElements return when the id list
    holds plain identifiers only; addRegionElement and removeRegionElement
    return whatever the attributes of the control element are; a control
    element without aria-expanded counts as collapsed. *)
Lemma total_on_plain_id_lists w :
  (Forall (fun i => Css.isIdent i = true) (regionIds this w) →
     (∃ w', expand this w = Returns tt w') ∧
     (∃ w', collapse this w = Returns tt w') ∧
     (∃ w', toggle this w = Returns tt w') ∧
     (∃ regions, regionElements this w = Returns regions w)) ∧
  (∀ region, ∃ w', addRegionElement this region w = Returns tt w') ∧
  (∀ region, ∃ w', removeRegionElement this region w = Returns tt w') ∧
  (getAttribute w control "aria-expanded" = None → isExpanded this w = false).
Proof.
  split; [intros Hp; split; [|split; [|split]]|split; [|split]].
  - rewrite expand_plain by done. eauto.
  - rewrite collapse_plain by done. eauto.
  - rewrite toggle_eq. destruct (isExpanded this w);
      [rewrite collapse_plain by done|rewrite expand_plain by done]; eauto.
  - rewrite regionElements_ident by done. eauto.
  - intros region. rewrite addRegionElement_eq. eauto.
  - intros region. apply removeRegionElement_returns.
  - unfold isExpanded. fold control. by intros ->.
Qed.

End Plain.

(** ** The lookup on the sample pages *)

Lemma Forall_of_forallb {A} (f : A -> bool) (l : list A) :
  forallb f l = true → Forall (fun x => f x = true) l.
Proof.
  induction l as [|x l IH]; simpl; [constructor|].
  intros [Hx Hl]%andb_true_iff. constructor; auto.
Qed.

Lemma stale_ids_dropped_witness :
  Forall (fun i => Css.isIdent i = true) (regionIds Fixture.widget Fixture.stale) ∧
  regionIds Fixture.widget Fixture.stale = ["a"; "gone"; "b"] ∧
  regionElements Fixture.widget Fixture.stale = Returns [3; 4] Fixture.stale.
Proof.
  assert (Forall (fun i => Css.isIdent i = true)
            (regionIds Fixture.widget Fixture.stale)) as H
    by (apply Forall_of_forallb; vm_compute; reflexivity).
  split; [exact H|]. split; [reflexivity|].
  exact (proj1 (stale_ids_dropped Fixture.widget Fixture.stale H)).
Defined.

(** C8: on a control that lists a and 9, the id 9 is carried by no element
    of the page; looking the regions up throws the SyntaxError of the selector
    [#9] where the claim has the id dropped and the region a returned, and
    expand and collapse throw with it.  The id gone of the other page, which
    no element carries either, is dropped as the claim says. *)
Theorem digit_id_throws :
  regionIds Fixture.widget Fixture.digitId = ["a"; "9"] ∧
  lookupId Fixture.digitId "a" = Some 3 ∧
  lookupId Fixture.digitId "9" = None ∧
  MaterialExtCollapsible.getRegionElements Fixture.widget Fixture.digitId =
    Throws (SyntaxError "#9") Fixture.digitId ∧
  exception (expand Fixture.widget Fixture.digitId) = Some (SyntaxError "#9") ∧
  exception (collapse Fixture.widget Fixture.digitId) = Some (SyntaxError "#9") ∧
  regionIds Fixture.widget Fixture.stale = ["a"; "gone"; "b"] ∧
  lookupId Fixture.stale "gone" = None ∧
  MaterialExtCollapsible.getRegionElements Fixture.widget Fixture.stale =
    Returns [3; 4] Fixture.stale.
Proof. repeat split; vm_compute; reflexivity. Qed.

(** C7: on the same page collapse writes aria-expanded="false" and throws
    on the selector [#9] before it hides anything: the region a, which the
    first id of the list names, is left without hidden, and the write on the
    control element is the only mutation made.  With a hidden to begin with,
    expand writes aria-expanded="true", throws likewise and leaves a hidden. *)
Theorem collapse_throws_before_hiding :
  let w := Fixture.digitId in
  let w' := after (collapse Fixture.widget w) in
  let v := setAttribute 3 "hidden" "" w in
  let v' := after (expand Fixture.widget v) in
  regionIds Fixture.widget w = ["a"; "9"] ∧
  lookupId w "a" = Some 3 ∧
  exception (collapse Fixture.widget w) = Some (SyntaxError "#9") ∧
  getAttribute w' 2 "aria-expanded" = Some "false" ∧
  hasAttribute w' 3 "hidden" = false ∧
  log w' = [SetAttribute 2 "aria-expanded" "false"] ∧
  exception (expand Fixture.widget v) = Some (SyntaxError "#9") ∧
  getAttribute v' 2 "aria-expanded" = Some "true" ∧
  hasAttribute v' 3 "hidden" = true ∧
  log v' = [SetAttribute 3 "hidden" ""; SetAttribute 2 "aria-expanded" "true"].
Proof. repeat split; vm_compute; reflexivity. Qed.

Lemma total_on_plain_id_lists_witness :
  Forall (fun i => Css.isIdent i = true) (regionIds Fixture.widget Fixture.stale) ∧
  (∃ w', toggle Fixture.widget Fixture.stale = Returns tt w') ∧
  getAttribute Fixture.stale 2 "aria-expanded" = None ∧
  isExpanded Fixture.widget Fixture.stale = false.
Proof.
  assert (Forall (fun i => Css.isIdent i = true)
            (regionIds Fixture.widget Fixture.stale)) as H
    by (apply Forall_of_forallb; vm_compute; reflexivity).
  assert (getAttribute Fixture.stale 2 "aria-expanded" = None) as E
    by (vm_compute; reflexivity).
  destruct (total_on_plain_id_lists Fixture.widget Fixture.stale)
    as (Hcalls & _ & _ & Hmissing).
  split; [exact H|]. split; [exact (proj1 (proj2 (proj2 (Hcalls H))))|].
  split; [exact E|exact (Hmissing E)].
Defined.

(** C2: with aria-controls="" on the control element the id list is the one
    empty id, which no element carries; the selector is [#], and expand,
    collapse, toggle and getRegionElements throw a SyntaxError where the claim
    has them return.  The component writes this value itself: removing a region
    that is not listed leaves aria-controls="", and the next toggle throws. *)
Theorem empty_aria_controls_throws :
  let removed := after (removeRegionElement Fixture.widget (Some 5) Fixture.listed) in
  getAttribute Fixture.emptyControls 2 "aria-controls" = Some "" ∧
  regionIds Fixture.widget Fixture.emptyControls = [""] ∧
  lookupId Fixture.emptyControls "" = None ∧
  exception (expand Fixture.widget Fixture.emptyControls) = Some (SyntaxError "#") ∧
  exception (collapse Fixture.widget Fixture.emptyControls) = Some (SyntaxError "#") ∧
  exception (toggle Fixture.widget Fixture.emptyControls) = Some (SyntaxError "#") ∧
  exception (MaterialExtCollapsible.getRegionElements Fixture.widget
               Fixture.emptyControls) = Some (SyntaxError "#") ∧
  exception (toggle Fixture.widget Fixture.listed) = None ∧
  getAttribute removed 2 "aria-controls" = Some "" ∧
  exception (toggle Fixture.widget removed) = Some (SyntaxError "#").
Proof. repeat split; vm_compute; reflexivity. Qed.

(** ** Adding a region *)

Lemma find_eqb_Some i l x :
  List.find (fun j => String.eqb i j) l = Some x → x = i ∧ i ∈ l.
Proof.
  intros H. apply find_some in H as [Hin Heq].
  apply String.eqb_eq in Heq. subst. split; [done|]. by apply list_elem_of_In.
Qed.

Lemma find_eqb_None i l :
  List.find (fun j => String.eqb i j) l = None → occurrences i l = 0.
Proof.
  intros H. unfold occurrences.
  induction l as [|x l IH]; [done|]. simpl in *.
  destruct (String.eqb i x); [discriminate|]. by apply IH.
Qed.

Lemma occurrences_elem i l : i ∈ l → (1 ≤ occurrences i l)%nat.
Proof.
  unfold occurrences. induction 1 as [|x y l Hin IH]; simpl.
  - rewrite String.eqb_refl. simpl. lia.
  - destruct (String.eqb x y); simpl; lia.
Qed.

Lemma occurrences_app i l l' :
  occurrences i (l ++ l') = occurrences i l + occurrences i l'.
Proof. unfold occurrences. by rewrite List.filter_app, length_app. Qed.

Section Adding.

Variable this : Collapsible.
Let control := controlElement_ this.

(** Up to [addRegionId], adding touches the attributes id, role and hidden
    of the region and nothing else. *)
Lemma prepared_attr region w r n :
  r ≠ region ∨ (n ≠ "id" ∧ n ≠ "role" ∧ n ≠ "hidden") →
  getAttribute (prepared this region w) r n = getAttribute w r n.
Proof.
  intros H. unfold prepared.
  assert (∀ v x, getAttribute (setAttribute region "hidden" v x) r n = getAttribute x r n) as Hh
    by (intros; rewrite getAttribute_setAttribute, decide_False; [done|intuition]).
  assert (∀ x, getAttribute (removeAttribute region "hidden" x) r n = getAttribute x r n) as Hr
    by (intros; rewrite getAttribute_removeAttribute, decide_False; [done|intuition]).
  assert (∀ v x, getAttribute (setAttribute region "role" v x) r n = getAttribute x r n) as Hro
    by (intros; rewrite getAttribute_setAttribute, decide_False; [done|intuition]).
  assert (∀ v x, getAttribute (setAttribute region "id" v x) r n = getAttribute x r n) as Hi
    by (intros; rewrite getAttribute_setAttribute, decide_False; [done|intuition]).
  cbv zeta. destruct (isExpanded this _); rewrite ?Hh, ?Hr, Hro, getAttribute_classList_add;
    destruct (hasAttribute w region "id"); rewrite ?Hi; reflexivity.
Qed.

Lemma prepared_id region w :
  getAttribute (prepared this region w) region "id" =
  Some (match getAttribute w region "id" with
        | Some i => i
        | None => "region-" ++ randomString w (drawn w)
        end)%string.
Proof.
  unfold prepared. cbv zeta.
  destruct (isExpanded this _);
    repeat first [rewrite getAttribute_set_other by done
                 |rewrite getAttribute_remove_other by done];
    rewrite getAttribute_classList_add; unfold hasAttribute;
    destruct (getAttribute w region "id") eqn:E; rewrite ?E; try done;
    apply getAttribute_set_same.
Qed.

Lemma prepared_regionIds region w :
  regionIds this (prepared this region w) = regionIds this w.
Proof.
  unfold regionIds. fold control. rewrite prepared_attr; [done|].
  right. repeat split; discriminate.
Qed.

Lemma regionIds_hasSpace w :
  Forall (fun x => Str.hasSpace x = false) (regionIds this w).
Proof.
  unfold regionIds. destruct (getAttribute w _ _); [apply StrFacts.split_hasSpace|constructor].
Qed.

(** [addRegionId] with a non-empty id without a space: a listed id is left
    as it is, an unlisted one goes to the end of the list. *)
Lemma withRegionId_listed i w :
  i ≠ "" → i ∈ regionIds this w → withRegionId this i w = w.
Proof.
  intros Hne Hin. unfold withRegionId.
  destruct (List.find _ _) as [x|] eqn:E.
  - apply find_eqb_Some in E as [-> _]. simpl.
    apply StrFacts.truthy_true in Hne. by rewrite Hne.
  - apply find_eqb_None in E. apply occurrences_elem in Hin. lia.
Qed.

Lemma withRegionId_unlisted i w :
  Str.hasSpace i = false → i ∉ regionIds this w →
  regionIds this (withRegionId this i w) = regionIds this w ++ [i].
Proof.
  intros Hsp Hnot. unfold withRegionId.
  destruct (List.find _ _) as [x|] eqn:E.
  - apply find_eqb_Some in E as [_ Hin]. contradiction.
  - simpl. unfold regionIds at 1. rewrite getAttribute_set_same.
    apply StrFacts.split_join.
    + destruct (regionIds this w); discriminate.
    + apply Forall_app. split; [apply regionIds_hasSpace|by repeat constructor].
Qed.

Lemma withRegionId_attr i w r n :
  r ≠ control ∨ n ≠ "aria-controls" →
  getAttribute (withRegionId this i w) r n = getAttribute w r n.
Proof.
  intros H. unfold withRegionId. destruct (negb _); [|done].
  rewrite getAttribute_setAttribute, decide_False; [done|]. fold control. tauto.
Qed.

End Adding.

(** ** Removing a region *)

Section Removing.

Variable this : Collapsible.
Let control := controlElement_ this.

(** For a region with a non-empty id the list is rewritten to the ids that
    are equal to the id of the region. *)
Lemma removeRegionElement_eq r w :
  elementId w r ≠ "" →
  removeRegionElement this (Some r) w =
  Returns tt
    (setAttribute control "aria-controls"
       (Str.join (List.filter (fun i => String.eqb i (elementId w r)) (regionIds this w)))
       w).
Proof.
  intros Hne. apply StrFacts.truthy_true in Hne.
  unfold removeRegionElement, gets, modify, mbind, M_bind. by rewrite Hne.
Qed.

(** So every other id is gone afterwards. *)
Lemma removeRegionElement_drops_others r w j :
  elementId w r ≠ "" →
  j ∈ regionIds this (after (removeRegionElement this (Some r) w)) →
  j = elementId w r ∨ j = "".
Proof.
  intros Hne. rewrite removeRegionElement_eq by done. simpl.
  unfold regionIds at 1. fold control. rewrite getAttribute_set_same.
  set (kept := List.filter _ _).
  destruct kept as [|k kept'] eqn:E.
  - simpl. rewrite list_elem_of_singleton. tauto.
  - rewrite StrFacts.split_join.
    + rewrite <- E. unfold kept. rewrite list_elem_of_In, filter_In.
      intros [_ ->%String.eqb_eq]. by left.
    + discriminate.
    + rewrite <- E. unfold kept. apply Forall_forall. intros x.
      rewrite list_elem_of_In, filter_In, <- list_elem_of_In. intros [Hx _].
      pose proof (regionIds_hasSpace this w) as Hall.
      rewrite Forall_forall in Hall. by apply Hall.
Qed.

(** And a region that is not listed empties the list. *)
Lemma removeRegionElement_unlisted r w :
  elementId w r ≠ "" → elementId w r ∉ regionIds this w →
  getAttribute (after (removeRegionElement this (Some r) w)) control "aria-controls" =
  Some "".
Proof.
  intros Hne Hnot. rewrite removeRegionElement_eq by done. simpl.
  rewrite getAttribute_set_same. f_equal.
  induction (regionIds this w) as [|x l IH]; [done|]. simpl.
  destruct (String.eqb_spec x (elementId w r)) as [->|_].
  - exfalso. apply Hnot. by left.
  - apply IH. intros Hin. apply Hnot. by right.
Qed.

End Removing.

(** C1: on a control that lists a and b, removing the region with id a
    leaves the list "a": the id to remove is the one kept, b is dropped. *)
Theorem removeRegionElement_keeps_removed_id :
  let w' := after (removeRegionElement Fixture.widget (Some 3) Fixture.listed) in
  regionIds Fixture.widget Fixture.listed = ["a"; "b"] ∧
  elementId Fixture.listed 3 = "a" ∧
  exception (removeRegionElement Fixture.widget (Some 3) Fixture.listed) = None ∧
  getAttribute w' 2 "aria-controls" = Some "a" ∧
  regionIds Fixture.widget w' = ["a"].
Proof. repeat split; vm_compute; reflexivity. Qed.

(** C3: on a control that lists a and b, removing a region whose id c is
    not in the list rewrites aria-controls to the empty string. *)
Theorem removeRegionElement_unlisted_clears :
  let w' := after (removeRegionElement Fixture.widget (Some 5) Fixture.listed) in
  regionIds Fixture.widget Fixture.listed = ["a"; "b"] ∧
  elementId Fixture.listed 5 = "c" ∧
  exception (removeRegionElement Fixture.widget (Some 5) Fixture.listed) = None ∧
  getAttribute Fixture.listed 2 "aria-controls" = Some "a b" ∧
  getAttribute w' 2 "aria-controls" = Some "" ∧
  regionIds Fixture.widget w' = [""].
Proof. repeat split; vm_compute; reflexivity. Qed.


Section AddingTwice.

Variable this : Collapsible.
Let control := controlElement_ this.

Lemma elementId_prepared_again region w i :
  getAttribute w region "id" = Some i →
  elementId (prepared this region w) region = i.
Proof. intros H. unfold elementId. by rewrite prepared_id, H. Qed.

Lemma occurrences_single i : occurrences i [i] = 1.
Proof. unfold occurrences. simpl. by rewrite String.eqb_refl. Qed.

(** C6, as the code has it: adding a region twice inserts its id at most
    once.  Both calls return; for a region whose id (the one it carries, or
    the one the first call gives it) is not empty and has no space, the
    second call leaves the id list as the first call left it, and the id is
    in that list exactly once provided it was there at most once before. *)
Theorem addRegionElement_twice region w :
  ∃ w1 w2,
    addRegionElement this region w = Returns tt w1 ∧
    addRegionElement this region w1 = Returns tt w2 ∧
    let i := elementId w1 region in
    (i ≠ "" → Str.hasSpace i = false →
     (occurrences i (regionIds this w) ≤ 1)%nat →
     occurrences i (regionIds this w2) = 1 ∧
     getAttribute w2 control "aria-controls" = getAttribute w1 control "aria-controls").
Proof.
  rewrite addRegionElement_eq.
  set (wp := prepared this region w).
  set (i := elementId wp region).
  set (w1 := withRegionId this i wp).
  exists w1. rewrite addRegionElement_eq.
  set (wp2 := prepared this region w1).
  exists (withRegionId this (elementId wp2 region) wp2).
  split; [done|]. split; [done|].
  assert (getAttribute wp region "id" = Some i) as Hid.
  { unfold i, elementId, wp. by rewrite prepared_id. }
  assert (getAttribute w1 region "id" = Some i) as Hid1.
  { unfold w1. rewrite withRegionId_attr; [done|]. right. discriminate. }
  assert (elementId w1 region = i) as Hi1 by (unfold elementId; by rewrite Hid1).
  assert (elementId wp2 region = i) as Hi2 by (by apply elementId_prepared_again).
  rewrite Hi1, Hi2. cbv zeta. intros Hne Hsp Hocc.
  assert (regionIds this wp = regionIds this w) as Hwp by apply prepared_regionIds.
  assert (regionIds this wp2 = regionIds this w1) as Hwp2 by apply prepared_regionIds.
  assert (i ∈ regionIds this w1 ∧ occurrences i (regionIds this w1) = 1) as [Hin1 Hocc1].
  { unfold w1. destruct (List.find (fun j => String.eqb i j) (regionIds this wp)) as [x|] eqn:E.
    - apply find_eqb_Some in E as [_ Hin].
      rewrite withRegionId_listed by done. split; [done|].
      apply occurrences_elem in Hin. rewrite Hwp in *. lia.
    - apply find_eqb_None in E.
      assert (i ∉ regionIds this wp) as Hnot
        by (intros Hin; apply occurrences_elem in Hin; lia).
      rewrite withRegionId_unlisted by done. split; [set_solver|].
      rewrite occurrences_app, E, occurrences_single. done. }
  assert (withRegionId this i wp2 = wp2) as ->.
  { apply withRegionId_listed; [done|]. by rewrite Hwp2. }
  split; [by rewrite Hwp2|].
  unfold wp2. apply prepared_attr. right. repeat split; discriminate.
Qed.

End AddingTwice.

Lemma addRegionElement_twice_witness :
  ∃ w1 w2,
    addRegionElement Fixture.widget 5 Fixture.oddIds = Returns tt w1 ∧
    addRegionElement Fixture.widget 5 w1 = Returns tt w2 ∧
    elementId w1 5 = "c" ∧
    occurrences "c" (regionIds Fixture.widget Fixture.oddIds) = 0 ∧
    occurrences "c" (regionIds Fixture.widget w2) = 1.
Proof.
  destruct (addRegionElement_twice Fixture.widget 5 Fixture.oddIds)
    as (w1 & w2 & E1 & E2 & H).
  exists w1, w2. split; [exact E1|]. split; [exact E2|].
  assert (elementId w1 5 = "c") as Hid.
  { rewrite addRegionElement_eq in E1. injection E1 as <-. vm_compute. reflexivity. }
  split; [exact Hid|]. split; [vm_compute; reflexivity|].
  cbv zeta in H. rewrite Hid in H.
  apply H; [discriminate|reflexivity|vm_compute; lia].
Defined.

(** A region whose id attribute is empty is listed twice by two calls:
    [find] hands back the empty id, which counts as not found. *)
Lemma addRegionElement_twice_empty_id :
  let w1 := after (addRegionElement Fixture.widget 3 Fixture.oddIds) in
  let w2 := after (addRegionElement Fixture.widget 3 w1) in
  elementId Fixture.oddIds 3 = "" ∧
  regionIds Fixture.widget Fixture.oddIds = [] ∧
  regionIds Fixture.widget w1 = [""] ∧
  getAttribute w2 2 "aria-controls" = Some " " ∧
  regionIds Fixture.widget w2 = [""; ""] ∧
  occurrences "" (regionIds Fixture.widget w2) = 2.
Proof. repeat split; vm_compute; reflexivity. Qed.

(** An id with a space falls apart in the list. *)
Lemma addRegionElement_twice_spaced_id :
  let w1 := after (addRegionElement Fixture.widget 4 Fixture.oddIds) in
  let w2 := after (addRegionElement Fixture.widget 4 w1) in
  elementId Fixture.oddIds 4 = "a b" ∧
  regionIds Fixture.widget w2 = ["a"; "b"; "a"; "b"] ∧
  occurrences "a b" (regionIds Fixture.widget w2) = 0.
Proof. repeat split; vm_compute; reflexivity. Qed.

(** An id that the list already holds twice stays there twice. *)
Lemma addRegionElement_twice_listed_twice :
  let w1 := after (addRegionElement Fixture.widget 3 Fixture.listedTwice) in
  let w2 := after (addRegionElement Fixture.widget 3 w1) in
  elementId Fixture.listedTwice 3 = "a" ∧
  regionIds Fixture.widget w2 = ["a"; "a"] ∧
  occurrences "a" (regionIds Fixture.widget w2) = 2.
Proof. repeat split; vm_compute; reflexivity. Qed.

(** ** Runs of expand, collapse and toggle *)

Section Runs.

Variable this : Collapsible.
Let control := controlElement_ this.

Lemma sameIds_hideAll rs w : sameIds w (hideAll rs w).
Proof.
  split; [apply sameRest_hideAll|]. intros r.
  rewrite getAttribute_hideAll, decide_False; [done|]. intros [? _]. done.
Qed.

Lemma sameIds_showAll rs w : sameIds w (showAll rs w).
Proof.
  split; [apply sameRest_showAll|]. intros r.
  rewrite getAttribute_showAll, decide_False; [done|]. intros [? _]. done.
Qed.

Lemma isExpanded_of_attribute (b : bool) w :
  getAttribute w control "aria-expanded" = Some (if b then "true" else "false") →
  isExpanded this w = b.
Proof. unfold isExpanded. fold control. intros ->. by destruct b. Qed.

Lemma hasAttribute_Some w r n v : getAttribute w r n = Some v → hasAttribute w r n = true.
Proof. unfold hasAttribute. by intros ->. Qed.

Lemma hasAttribute_None w r n : getAttribute w r n = None → hasAttribute w r n = false.
Proof. unfold hasAttribute. by intros ->. Qed.

(** One call on a plain id list. *)
Lemma call_plain c w :
  plain this w →
  ∃ w', call this c w = Returns tt w' ∧
        regionIds this w' = regionIds this w ∧
        sameIds w w' ∧
        getAttribute w' control "aria-expanded" =
          Some (if intent c (isExpanded this w) then "true" else "false") ∧
        Forall (fun r => hasAttribute w' r "hidden" = negb (intent c (isExpanded this w)))
          (omap (lookupId w) (regionIds this w)).
Proof.
  intros Hp.
  assert (∃ w', expand this w = Returns tt w' ∧
        regionIds this w' = regionIds this w ∧ sameIds w w' ∧
        getAttribute w' control "aria-expanded" = Some "true" ∧
        Forall (fun r => hasAttribute w' r "hidden" = false)
          (omap (lookupId w) (regionIds this w))) as He.
  { rewrite expand_plain by done. fold control. eexists. split; [done|].
    split; [|split; [|split]].
    - apply regionIds_sameControls. fold control.
      rewrite showAll_other by done. by apply getAttribute_set_other.
    - eapply sameIds_trans; [|apply sameIds_showAll]. by apply sameIds_setAttribute.
    - rewrite showAll_other by done. apply getAttribute_set_same.
    - eapply Forall_impl; [apply showAll_hidden|].
      intros r Hr. exact (hasAttribute_None _ _ _ Hr). }
  assert (∃ w', collapse this w = Returns tt w' ∧
        regionIds this w' = regionIds this w ∧ sameIds w w' ∧
        getAttribute w' control "aria-expanded" = Some "false" ∧
        Forall (fun r => hasAttribute w' r "hidden" = true)
          (omap (lookupId w) (regionIds this w))) as Hc.
  { rewrite collapse_plain by done. fold control. eexists. split; [done|].
    split; [|split; [|split]].
    - apply regionIds_sameControls. fold control.
      rewrite hideAll_other by done. by apply getAttribute_set_other.
    - eapply sameIds_trans; [|apply sameIds_hideAll]. by apply sameIds_setAttribute.
    - rewrite hideAll_other by done. apply getAttribute_set_same.
    - apply Forall_forall. intros r Hr.
      apply (hasAttribute_Some _ _ _ "").
      rewrite getAttribute_hideAll, decide_True; [done|].
      split; [done|]. exact (proj2 (elem_of_rev _ _) Hr). }
  destruct c; simpl; [exact He|exact Hc|].
  rewrite toggle_eq. destruct (isExpanded this w); [exact Hc|exact He].
Qed.

Lemma run_snoc cs c w wm w' :
  run this cs w = Returns tt wm → call this c wm = Returns tt w' →
  run this (cs ++ [c]) w = Returns tt w'.
Proof.
  revert w. induction cs as [|c0 cs IH]; intros w; unfold run in *; simpl;
    unfold mbind, M_bind, mret, M_ret.
  - intros [= ->] ->. done.
  - destruct (call this c0 w) as [[] w0|]; [|discriminate]. apply IH.
Qed.

Lemma run_plain cs w :
  plain this w →
  ∃ wm, run this cs w = Returns tt wm ∧
        regionIds this wm = regionIds this w ∧ sameIds w wm.
Proof.
  revert w. induction cs as [|c cs IH]; intros w Hp.
  - exists w. repeat split; done.
  - destruct (call_plain c w Hp) as (w0 & Hcall & Hids & Hsame & _).
    destruct (IH w0) as (wm & Hrun & Hids' & Hsame'); [unfold plain; by rewrite Hids|].
    exists wm. unfold run in *. simpl. unfold mbind, M_bind. rewrite Hcall.
    split; [done|]. split; [congruence|]. by eapply sameIds_trans.
Qed.

(** From a state whose id list holds plain identifiers only (none, when
    aria-controls is absent), every run of expand, collapse and toggle calls
    returns, and after its last call aria-expanded on the control element says
    what that call asked for ("true" after expand, "false" after collapse, the
    opposite of the state before after toggle), and each region the id list
    resolves to carries hidden exactly when the state is collapsed. *)
Lemma run_state_and_regions cs c w :
  Forall (fun i => Css.isIdent i = true) (regionIds this w) →
  ∃ wm w',
    run this cs w = Returns tt wm ∧
    run this (cs ++ [c]) w = Returns tt w' ∧
    getAttribute w' control "aria-expanded" =
      Some (if intent c (isExpanded this wm) then "true" else "false") ∧
    isExpanded this w' = intent c (isExpanded this wm) ∧
    regionElements this w' = Returns (omap (lookupId w') (regionIds this w')) w' ∧
    Forall (fun r => hasAttribute w' r "hidden" = negb (isExpanded this w'))
      (omap (lookupId w') (regionIds this w')).
Proof.
  intros Hp.
  destruct (run_plain cs w Hp) as (wm & Hrun & Hids & Hsame).
  assert (plain this wm) as Hpm by (unfold plain; by rewrite Hids).
  destruct (call_plain c wm Hpm) as (w' & Hcall & Hids' & Hsame' & Hexp & Hhid).
  exists wm, w'. split; [done|]. split; [by eapply run_snoc|]. split; [done|].
  pose proof (isExpanded_of_attribute _ _ Hexp) as Hb.
  split; [done|].
  assert (omap (lookupId w') (regionIds this w') = omap (lookupId wm) (regionIds this wm)) as ->.
  { rewrite Hids'. apply omap_ext_all. intros i. by apply lookupId_sameIds. }
  split; [|by rewrite Hb].
  rewrite regionElements_ident by (by rewrite Hids').
  f_equal. rewrite Hids'. apply omap_ext_all. intros i. by apply lookupId_sameIds.
Qed.

End Runs.

(** With a listed id that is more than an identifier the lookup can answer
    differently once a call has run.  On the sample page construction returns;
    collapse then hides a, the only region found, and after that the list
    resolves to a and b, with b not hidden in the collapsed state.  Nothing
    throws here. *)
Lemma collapse_changes_what_the_list_resolves_to :
  let built := init 2 Fixture.siblingSelector in
  let w' := after (run Fixture.widget [Collapse] (after built)) in
  returned built = Some Fixture.widget ∧
  regionIds Fixture.widget (after built) = ["a"; "a[hidden]~#b"] ∧
  returned (regionElements Fixture.widget (after built)) = Some [3] ∧
  exception (run Fixture.widget [Collapse] (after built)) = None ∧
  isExpanded Fixture.widget w' = false ∧
  returned (regionElements Fixture.widget w') = Some [3; 4] ∧
  hasAttribute w' 3 "hidden" = true ∧
  hasAttribute w' 4 "hidden" = false.
Proof. repeat split; vm_compute; reflexivity. Qed.

Lemma run_state_and_regions_witness :
  Forall (fun i => Css.isIdent i = true) (regionIds Fixture.widget Fixture.listed) ∧
  ∃ w', run Fixture.widget [Collapse; Expand; Toggle] Fixture.listed = Returns tt w' ∧
        getAttribute w' 2 "aria-expanded" = Some "false" ∧
        omap (lookupId w') (regionIds Fixture.widget w') = [3; 4] ∧
        hasAttribute w' 3 "hidden" = true ∧ hasAttribute w' 4 "hidden" = true.
Proof.
  assert (Forall (fun i => Css.isIdent i = true)
            (regionIds Fixture.widget Fixture.listed)) as H
    by (apply Forall_of_forallb; vm_compute; reflexivity).
  split; [exact H|].
  destruct (run_state_and_regions Fixture.widget [Collapse; Expand] Toggle
              Fixture.listed H) as (wm & w' & Hm & Hrun & Hattr & Hexp & _ & Hhid).
  exists w'. split; [exact Hrun|].
  assert (w' = after (run Fixture.widget [Collapse; Expand; Toggle] Fixture.listed))
    as Hw by (simpl app in Hrun; rewrite Hrun; reflexivity).
  assert (omap (lookupId w') (regionIds Fixture.widget w') = [3; 4]) as Hregions
    by (rewrite Hw; vm_compute; reflexivity).
  assert (isExpanded Fixture.widget w' = false) as Hcollapsed
    by (rewrite Hw; vm_compute; reflexivity).
  rewrite Hregions, Hcollapsed in Hhid.
  split; [rewrite Hw; vm_compute; reflexivity|]. split; [exact Hregions|].
  inversion Hhid as [|? ? H3 Hrest]; subst. inversion Hrest as [|? ? H4 ?]; subst.
  split; [exact H3|exact H4].
Defined.

(** C4: a widget built over sibling regions with the ids a and 1.
    Construction returns, hides both regions and lists "a 1"; expand then
    writes aria-expanded="true" and throws on the selector [#1] before it shows
    a region, so the region a, which the id a resolves to, keeps its hidden
    attribute while the state is expanded, where the claim has it shown. *)
Theorem run_after_init_leaves_region_hidden :
  let built := init 2 Fixture.siblings in
  let w' := after (run Fixture.widget [Expand] (after built)) in
  returned built = Some Fixture.widget ∧
  regionIds Fixture.widget (after built) = ["a"; "1"] ∧
  exception (run Fixture.widget [Expand] (after built)) = Some (SyntaxError "#1") ∧
  getAttribute w' 2 "aria-expanded" = Some "true" ∧
  isExpanded Fixture.widget w' = true ∧
  regionIds Fixture.widget w' = ["a"; "1"] ∧
  resolve w' "a" = Some 3 ∧
  hasAttribute w' 3 "hidden" = true.
Proof. repeat split; vm_compute; reflexivity. Qed.

(** ** What the lookup throws *)

Section Throwing.

Variable this : Collapsible.

Lemma traverse_query_throws ids w e :
  exception (traverse (fun i => document_querySelector ("#" ++ i)) ids w) = Some e →
  ∃ i, i ∈ ids ∧ e = SyntaxError ("#" ++ i) ∧
       select w [document w] ("#" ++ i) = Invalid.
Proof.
  induction ids as [|i ids IH]; simpl; [discriminate|].
  unfold mbind, M_bind, mret, M_ret, document_querySelector at 1.
  destruct (select w [document w] ("#" ++ i)) as [|r] eqn:E.
  - simpl. intros [= <-]. exists i. split; [by left|done].
  - destruct (traverse _ ids w) as [fs w1|e1 w1] eqn:Et; simpl; [discriminate|].
    intros [= <-]. destruct IH as (j & Hj & He & Hs); [done|].
    exists j. split; [by right|done].
Qed.

Lemma regionElements_throws w e :
  exception (regionElements this w) = Some e →
  ∃ i, i ∈ regionIds this w ∧ e = SyntaxError ("#" ++ i) ∧
       select w [document w] ("#" ++ i) = Invalid.
Proof.
  unfold regionElements, gets, mbind, M_bind, mret, M_ret.
  destruct (traverse _ (regionIds this w) w) as [fs w1|e1 w1] eqn:Et;
    simpl; [discriminate|].
  intros [= <-]. apply traverse_query_throws. by rewrite Et.
Qed.

(** An id that is no selector after [#] makes the lookup throw, and with it
    expand, collapse and toggle, which have written aria-expanded by then and
    touch no region. *)
Lemma traverse_query_malformed ids w i :
  i ∈ ids → Css.parse ("#" ++ i) = Css.Malformed →
  ∃ j, j ∈ ids ∧
       exception (traverse (fun i => document_querySelector ("#" ++ i)) ids w) =
         Some (SyntaxError ("#" ++ j)).
Proof.
  intros Hin Hbad. induction ids as [|x ids IH]; [by apply not_elem_of_nil in Hin|].
  simpl. unfold mbind, M_bind, mret, M_ret, document_querySelector at 1.
  destruct (select w [document w] ("#" ++ x)) as [|r] eqn:E.
  - exists x. split; [by left|done].
  - apply elem_of_cons in Hin as [->|Hin].
    + unfold select in E. by rewrite Hbad in E.
    + destruct (IH Hin) as (j & Hj & He). exists j. split; [by right|].
      pose proof (traverse_query_pure ids w) as [Hw _].
      destruct (traverse _ ids w) as [fs w1|e1 w1]; simpl in *; [discriminate|done].
Qed.

Lemma regionElements_malformed w i :
  i ∈ regionIds this w → Css.parse ("#" ++ i) = Css.Malformed →
  ∃ j, j ∈ regionIds this w ∧
       regionElements this w = Throws (SyntaxError ("#" ++ j)) w.
Proof.
  intros Hin Hbad.
  destruct (traverse_query_malformed (regionIds this w) w i Hin Hbad) as (j & Hj & He).
  exists j. split; [done|].
  pose proof (regionElements_pure this w) as [Hw _]. revert Hw.
  unfold regionElements, gets, mbind, M_bind, mret, M_ret.
  destruct (traverse _ (regionIds this w) w) as [fs w1|e1 w1]; simpl in *;
    [discriminate|].
  intros ->. congruence.
Qed.

Lemma calls_malformed w i :
  i ∈ regionIds this w → Css.parse ("#" ++ i) = Css.Malformed →
  (∃ j, j ∈ regionIds this w ∧
        expand this w =
          Throws (SyntaxError ("#" ++ j))
            (setAttribute (controlElement_ this) "aria-expanded" "true" w)) ∧
  (∃ j, j ∈ regionIds this w ∧
        collapse this w =
          Throws (SyntaxError ("#" ++ j))
            (setAttribute (controlElement_ this) "aria-expanded" "false" w)) ∧
  (∃ j, j ∈ regionIds this w ∧
        exception (toggle this w) = Some (SyntaxError ("#" ++ j))).
Proof.
  intros Hin Hbad.
  assert (∀ v, regionIds this (setAttribute (controlElement_ this) "aria-expanded" v w)
               = regionIds this w) as Hids
    by (intros v; apply regionIds_sameControls; by apply getAttribute_set_other).
  assert (∃ j, j ∈ regionIds this w ∧
            expand this w =
              Throws (SyntaxError ("#" ++ j))
                (setAttribute (controlElement_ this) "aria-expanded" "true" w)) as He.
  { destruct (regionElements_malformed
                (setAttribute (controlElement_ this) "aria-expanded" "true" w) i)
      as (j & Hj & He); [by rewrite Hids|done|].
    exists j. split; [by rewrite <- (Hids "true")|]. by rewrite expand_eq, He. }
  assert (∃ j, j ∈ regionIds this w ∧
            collapse this w =
              Throws (SyntaxError ("#" ++ j))
                (setAttribute (controlElement_ this) "aria-expanded" "false" w)) as Hc.
  { destruct (regionElements_malformed
                (setAttribute (controlElement_ this) "aria-expanded" "false" w) i)
      as (j & Hj & Hc); [by rewrite Hids|done|].
    exists j. split; [by rewrite <- (Hids "false")|]. by rewrite collapse_eq, Hc. }
  split; [exact He|]. split; [exact Hc|].
  rewrite toggle_eq. destruct (isExpanded this w).
  - destruct Hc as (j & Hj & ->). by exists j.
  - destruct He as (j & Hj & ->). by exists j.
Qed.

End Throwing.

(** ** Construction *)

Lemma find_None_Forall {A} (f : A -> bool) (l : list A) :
  List.find f l = None ↔ Forall (fun x => f x = false) l.
Proof.
  induction l as [|x l IH]; simpl; [split; [constructor|done]|].
  destruct (f x) eqn:E.
  - split; [discriminate|]. intros [H _]%Forall_cons. congruence.
  - rewrite IH. rewrite Forall_cons. tauto.
Qed.

Lemma querySelector_control element w :
  querySelector element ("." ++ COLLAPSIBLE_CONTROL_CLASS) w =
  Returns (List.find (matches w (Css.ClassSelector COLLAPSIBLE_CONTROL_CLASS))
             (descendants w element)) w.
Proof. reflexivity. Qed.

Lemma initControl_eq element w :
  initControl element w =
  match findControl w element with
  | Some control => Returns control (controlDefaults control w)
  | None => Throws configurationError w
  end.
Proof.
  unfold initControl, mbind, M_bind. rewrite querySelector_control.
  unfold findControl, gets at 1. cbv beta iota.
  destruct (List.find _ _) as [c|];
    [|destruct (classList_contains w element COLLAPSIBLE_CONTROL_CLASS); [|reflexivity]];
    unfold controlDefaults, gets, modify, skip, mret, M_ret; cbv beta iota zeta;
    repeat match goal with
           | |- context [if ?b then _ else _] => destruct b; cbv beta iota
           end; reflexivity.
Qed.

Lemma findControl_None w element :
  findControl w element = None ↔
  classList_contains w element COLLAPSIBLE_CONTROL_CLASS = false ∧
  Forall (fun d => classList_contains w d COLLAPSIBLE_CONTROL_CLASS = false)
    (descendants w element).
Proof.
  unfold findControl.
  destruct (List.find _ _) as [c|] eqn:E.
  - split; [discriminate|]. intros [_ H].
    pose proof (proj2 (find_None_Forall
      (matches w (Css.ClassSelector COLLAPSIBLE_CONTROL_CLASS)) _) H). congruence.
  - pose proof (proj1 (find_None_Forall
      (matches w (Css.ClassSelector COLLAPSIBLE_CONTROL_CLASS)) _) E) as H.
    destruct (classList_contains w element COLLAPSIBLE_CONTROL_CLASS).
    + split; [done|]. intros [? _]; done.
    + split; [|done]. intros _. split; [done|exact H].
Qed.

Lemma findControl_root w element :
  classList_contains w element COLLAPSIBLE_CONTROL_CLASS = true →
  Forall (fun d => classList_contains w d COLLAPSIBLE_CONTROL_CLASS = false)
    (descendants w element) →
  findControl w element = Some element.
Proof.
  intros Hroot Hnone. unfold findControl.
  rewrite (proj2 (find_None_Forall
    (matches w (Css.ClassSelector COLLAPSIBLE_CONTROL_CLASS)) _) Hnone).
  by rewrite Hroot.
Qed.

(** The defaults touch aria-expanded, role and tabindex of the control
    element, and only to fill in. *)
Lemma controlDefaults_attr control w r n :
  r ≠ control ∨ (n ≠ "aria-expanded" ∧ n ≠ "role" ∧ n ≠ "tabindex") →
  getAttribute (controlDefaults control w) r n = getAttribute w r n.
Proof.
  intros H. unfold controlDefaults. cbv zeta.
  repeat match goal with
         | |- context [if ?b then _ else _] => destruct b
         end;
    repeat (rewrite getAttribute_setAttribute, decide_False by intuition); reflexivity.
Qed.

Lemma controlDefaults_expanded control w :
  getAttribute (controlDefaults control w) control "aria-expanded" =
  Some (default "false" (getAttribute w control "aria-expanded")).
Proof.
  unfold controlDefaults, hasAttribute. cbv zeta.
  destruct (getAttribute w control "aria-expanded") as [v|] eqn:E; simpl.
  - repeat match goal with
           | |- context [if ?b then _ else _] => destruct b
           end; rewrite ?getAttribute_set_other by done; exact E.
  - repeat match goal with
           | |- context [if ?b then _ else _] => destruct b
           end; rewrite ?getAttribute_set_other by done; apply getAttribute_set_same.
Qed.

Lemma controlDefaults_tabindex control w :
  getAttribute (controlDefaults control w) control "tabindex" =
  Some (default "0" (getAttribute w control "tabindex")).
Proof.
  unfold controlDefaults. cbv zeta.
  set (w1 := if hasAttribute w control "aria-expanded" then w else _).
  set (w2 := if String.eqb _ "button" then w1 else _).
  assert (getAttribute w2 control "tabindex" = getAttribute w control "tabindex") as H.
  { unfold w2, w1.
    repeat match goal with
           | |- context [if ?b then _ else _] => destruct b
           end; rewrite ?getAttribute_set_other by done; reflexivity. }
  unfold hasAttribute. rewrite <- H.
  destruct (getAttribute w2 control "tabindex") eqn:E; simpl; [done|].
  apply getAttribute_set_same.
Qed.

Lemma controlDefaults_role control w :
  getAttribute (controlDefaults control w) control "role" =
  if String.eqb (Str.toLowerCase (nodeName (elements w control))) "button"
  then getAttribute w control "role" else Some "button".
Proof.
  unfold controlDefaults. cbv zeta.
  set (w1 := if hasAttribute w control "aria-expanded" then w else _).
  assert (nodeName (elements w1 control) = nodeName (elements w control)) as Hn.
  { unfold w1. destruct (hasAttribute _ _ _); [done|]. simpl.
    by rewrite Nat.eqb_refl. }
  assert (getAttribute w1 control "role" = getAttribute w control "role") as Hr.
  { unfold w1. destruct (hasAttribute _ _ _); [done|]. by apply getAttribute_set_other. }
  rewrite Hn. destruct (String.eqb _ "button");
    destruct (hasAttribute _ control "tabindex");
    rewrite ?getAttribute_set_other by done; try done; apply getAttribute_set_same.
Qed.

Section InitRegions.

Variable this : Collapsible.
Let control := controlElement_ this.

Lemma forEach_add regions w :
  forEach regions (addRegionElement this) w = Returns tt (addedAll this regions w).
Proof.
  revert w. induction regions as [|r regions IH]; intros w; [done|].
  simpl. unfold mbind, M_bind. rewrite addRegionElement_eq. apply IH.
Qed.

Lemma added_attr region w r n :
  r ≠ region ∨ (n ≠ "id" ∧ n ≠ "role" ∧ n ≠ "hidden") →
  r ≠ control ∨ n ≠ "aria-controls" →
  getAttribute (added this region w) r n = getAttribute w r n.
Proof.
  intros H1 H2. unfold added. rewrite withRegionId_attr by done.
  by apply prepared_attr.
Qed.

Lemma added_role region w :
  getAttribute (added this region w) region "role" = Some "region".
Proof.
  unfold added. rewrite withRegionId_attr by (right; discriminate).
  unfold prepared. cbv zeta.
  destruct (isExpanded this _);
    first [rewrite getAttribute_set_other by done
          |rewrite getAttribute_remove_other by done];
    apply getAttribute_set_same.
Qed.

Lemma addedAll_attr regions w r n :
  r ∉ regions ∨ (n ≠ "id" ∧ n ≠ "role" ∧ n ≠ "hidden") →
  r ≠ control ∨ n ≠ "aria-controls" →
  getAttribute (addedAll this regions w) r n = getAttribute w r n.
Proof.
  revert w. induction regions as [|x regions IH]; intros w H1 H2; [done|].
  unfold addedAll in *. simpl. rewrite IH.
  - apply added_attr; [|done]. destruct H1 as [H1|H1]; [left|by right].
    intros ->. apply H1. by left.
  - destruct H1 as [H1|H1]; [left|by right]. intros Hin. apply H1. by right.
  - done.
Qed.

Lemma addedAll_role regions w r :
  getAttribute (addedAll this regions w) r "role" =
  if decide (r ∈ regions) then Some "region" else getAttribute w r "role".
Proof.
  revert w. induction regions as [|x regions IH] using rev_ind; intros w.
  - rewrite decide_False; [done|]. apply not_elem_of_nil.
  - unfold addedAll in *. rewrite fold_left_app. simpl.
    destruct (decide (r = x)) as [->|Hne].
    + rewrite added_role. rewrite decide_True; [done|]. apply elem_of_app. right. by left.
    + rewrite added_attr by (try (left; done); right; discriminate).
      rewrite IH. repeat case_decide; try done; exfalso;
        rewrite elem_of_app, list_elem_of_singleton in *; tauto.
Qed.

Lemma discoverRegions_pure w :
  after (discoverRegions this w) = w ∧
  (∀ e, exception (discoverRegions this w) = Some e → ∃ s, e = SyntaxError s).
Proof.
  unfold discoverRegions, gets, mbind, M_bind. fold control.
  destruct (hasAttribute w control "aria-controls");
    [apply regionElements_pure|by split].
Qed.

Lemma discoverRegions_plain w :
  plain this w → ∃ regions, discoverRegions this w = Returns regions w.
Proof.
  intros Hp. unfold discoverRegions, gets, mbind, M_bind. fold control.
  destruct (hasAttribute w control "aria-controls"); [|eauto].
  rewrite regionElements_ident by done. eauto.
Qed.

Lemma initRegions_eq w :
  initRegions this w =
  match discoverRegions this w with
  | Returns regions _ => Returns tt (addedAll this regions w)
  | Throws e _ => Throws e w
  end.
Proof.
  pose proof (discoverRegions_pure w) as [Hw _]. revert Hw.
  unfold initRegions, discoverRegions, gets, mbind, M_bind. fold control.
  destruct (hasAttribute w control "aria-controls"); cbv beta iota.
  - destruct (regionElements this w) as [rs w1|e w1]; simpl; intros ->; [|done].
    apply forEach_add.
  - intros _. apply forEach_add.
Qed.

Lemma listeners_renewed w :
  ∃ w', (removeListeners this ;; addListeners this ;; mret this) w = Returns this w' ∧
        elements w' = elements w ∧ document w' = document w ∧
        detached w' = detached w ∧ log w' = log w.
Proof.
  unfold removeListeners, addListeners, removeEventListener, addEventListener,
    modify, mbind, M_bind, mret, M_ret.
  repeat match goal with
         | |- context [if ?b then _ else _] => destruct b
         end; eexists; (split; [reflexivity|]); repeat split.
Qed.

End InitRegions.

Lemma init_eq element w :
  init element w =
  match findControl w element with
  | None => Throws configurationError (allocated w)
  | Some control =>
      let this := constructed w element control in
      let w1 := controlDefaults control (allocated w) in
      match discoverRegions this w1 with
      | Throws e _ => Throws e w1
      | Returns regions _ =>
          (removeListeners this ;; addListeners this ;; mret this)
            (addedAll this regions w1)
      end
  end.
Proof.
  unfold init. unfold mbind at 1, M_bind at 1. unfold newHandlers.
  fold (allocated w). unfold mbind at 1, M_bind at 1. rewrite initControl_eq.
  change (findControl (allocated w) element) with (findControl w element).
  destruct (findControl w element) as [c|]; [|done]. cbv zeta.
  unfold mbind at 1, M_bind at 1. simpl fst. simpl snd. fold (constructed w element c).
  rewrite initRegions_eq.
  by destruct (discoverRegions _ _).
Qed.

Lemma getAttribute_elements w w' r n :
  elements w' = elements w → getAttribute w' r n = getAttribute w r n.
Proof. unfold getAttribute. by intros ->. Qed.

Lemma scanSiblings_sameClasses w w' sibs :
  (∀ r, classList (elements w' r) = classList (elements w r)) →
  scanSiblings w' sibs = scanSiblings w sibs.
Proof.
  intros H. induction sibs as [|r sibs IH]; [done|]. simpl.
  unfold classList_contains. by rewrite H, IH.
Qed.

(** The count of the functions made is read by nothing but the making of
    the handlers: what the component does to a page is the same whatever the
    count. *)
Lemma controlDefaults_closures control w n :
  controlDefaults control (withClosures w n) = withClosures (controlDefaults control w) n.
Proof.
  unfold controlDefaults. cbv zeta.
  change (hasAttribute (withClosures w n) control "aria-expanded")
    with (hasAttribute w control "aria-expanded").
  destruct (hasAttribute w control "aria-expanded").
  - change (nodeName (elements (withClosures w n) control))
      with (nodeName (elements w control)).
    destruct (String.eqb _ "button").
    + change (hasAttribute (withClosures w n) control "tabindex")
        with (hasAttribute w control "tabindex").
      by destruct (hasAttribute w control "tabindex").
    + set (w2 := setAttribute control "role" "button" w).
      change (setAttribute control "role" "button" (withClosures w n))
        with (withClosures w2 n).
      change (hasAttribute (withClosures w2 n) control "tabindex")
        with (hasAttribute w2 control "tabindex").
      by destruct (hasAttribute w2 control "tabindex").
  - set (w1 := setAttribute control "aria-expanded" "false" w).
    change (setAttribute control "aria-expanded" "false" (withClosures w n))
      with (withClosures w1 n).
    change (nodeName (elements (withClosures w1 n) control))
      with (nodeName (elements w1 control)).
    destruct (String.eqb _ "button").
    + change (hasAttribute (withClosures w1 n) control "tabindex")
        with (hasAttribute w1 control "tabindex").
      by destruct (hasAttribute w1 control "tabindex").
    + set (w2 := setAttribute control "role" "button" w1).
      change (setAttribute control "role" "button" (withClosures w1 n))
        with (withClosures w2 n).
      change (hasAttribute (withClosures w2 n) control "tabindex")
        with (hasAttribute w2 control "tabindex").
      by destruct (hasAttribute w2 control "tabindex").
Qed.

Lemma traverse_query_closures ids w n :
  traverse (fun i => document_querySelector ("#" ++ i)) ids (withClosures w n) =
  match traverse (fun i => document_querySelector ("#" ++ i)) ids w with
  | Returns found _ => Returns found (withClosures w n)
  | Throws e _ => Throws e (withClosures w n)
  end.
Proof.
  induction ids as [|i ids IH]; [done|]. simpl.
  unfold mbind, M_bind in *. unfold document_querySelector at 1 3.
  change (select (withClosures w n) [document (withClosures w n)] ("#" ++ i))
    with (select w [document w] ("#" ++ i)).
  destruct (select w [document w] ("#" ++ i)) as [|r]; [done|].
  rewrite IH.
  pose proof (traverse_query_pure ids w) as [Hw _].
  destruct (traverse _ ids w) as [found w1|e w1]; simpl in Hw; by subst w1.
Qed.

Lemma discoverRegions_closures this w n regions :
  discoverRegions this (withClosures w n) = Returns regions (withClosures w n) →
  discoverRegions this w = Returns regions w.
Proof.
  pose proof (discoverRegions_pure this w) as [Hw _]. revert Hw.
  unfold discoverRegions, regionElements, gets, mbind, M_bind.
  change (hasAttribute (withClosures w n) (controlElement_ this) "aria-controls")
    with (hasAttribute w (controlElement_ this) "aria-controls").
  destruct (hasAttribute w (controlElement_ this) "aria-controls"); cbv beta iota.
  - change (regionIds this (withClosures w n)) with (regionIds this w).
    rewrite traverse_query_closures.
    destruct (traverse _ (regionIds this w) w) as [found w1|e w1]; simpl;
      [|discriminate].
    intros ->. unfold mret, M_ret. by intros [= <-].
  - intros _.
    change (followingSiblings (withClosures w n) (element_ this))
      with (followingSiblings w (element_ this)).
    rewrite (scanSiblings_sameClasses w (withClosures w n)) by done.
    by intros [= <-].
Qed.

Lemma added_closures this region w n :
  added this region (withClosures w n) = withClosures (added this region w) n.
Proof.
  assert (prepared this region (withClosures w n) =
          withClosures (prepared this region w) n) as Hp.
  { unfold prepared. cbv zeta.
    change (hasAttribute (withClosures w n) region "id")
      with (hasAttribute w region "id").
    destruct (hasAttribute w region "id").
    - set (w2 := setAttribute region "role" "region"
                   (classList_add region COLLAPSIBLE_REGION_CLASS w)).
      change (setAttribute region "role" "region"
                (classList_add region COLLAPSIBLE_REGION_CLASS (withClosures w n)))
        with (withClosures w2 n).
      change (isExpanded this (withClosures w2 n)) with (isExpanded this w2).
      by destruct (isExpanded this w2).
    - set (w1 := setAttribute region "id" ("region-" ++ randomString w (drawn w)) (bump w)).
      set (w2 := setAttribute region "role" "region"
                   (classList_add region COLLAPSIBLE_REGION_CLASS w1)).
      change (setAttribute region "role" "region"
                (classList_add region COLLAPSIBLE_REGION_CLASS
                   (setAttribute region "id"
                      ("region-" ++ randomString (withClosures w n) (drawn (withClosures w n)))
                      (bump (withClosures w n)))))
        with (withClosures w2 n).
      change (isExpanded this (withClosures w2 n)) with (isExpanded this w2).
      by destruct (isExpanded this w2). }
  unfold added. rewrite Hp. set (w1 := prepared this region w).
  change (elementId (withClosures w1 n) region) with (elementId w1 region).
  unfold withRegionId.
  change (regionIds this (withClosures w1 n)) with (regionIds this w1).
  by destruct (negb _).
Qed.

Lemma addedAll_closures this regions w n :
  addedAll this regions (withClosures w n) = withClosures (addedAll this regions w) n.
Proof.
  revert w. induction regions as [|r rs IH]; intros w; [done|].
  unfold addedAll in *. simpl. by rewrite added_closures, IH.
Qed.

(** What a returning construction went through. *)
Lemma init_returns_inv element w this w' :
  init element w = Returns this w' →
  ∃ control regions,
    findControl w element = Some control ∧
    this = constructed w element control ∧
    discoverRegions this (controlDefaults control w) =
      Returns regions (controlDefaults control w) ∧
    elements w' = elements (addedAll this regions (controlDefaults control w)).
Proof.
  rewrite init_eq. destruct (findControl w element) as [c|]; [|discriminate].
  cbv zeta. set (this0 := constructed w element c).
  unfold allocated. rewrite controlDefaults_closures.
  set (n := S (S (closures w))). set (w0 := controlDefaults c w).
  pose proof (discoverRegions_pure this0 (withClosures w0 n)) as [Hw _].
  destruct (discoverRegions this0 (withClosures w0 n)) as [rs w1|e w1] eqn:E;
    [|discriminate].
  simpl in Hw. subst w1. apply discoverRegions_closures in E.
  destruct (listeners_renewed this0 (addedAll this0 rs (withClosures w0 n)))
    as (w2 & -> & Hel & _).
  intros [= <- <-]. exists c, rs. split; [done|]. split; [done|]. split; [done|].
  by rewrite Hel, addedAll_closures.
Qed.

(** C5, as the code has it: when init returns, the control element has
    aria-expanded (the value it had, "false" if it had none) and tabindex (the
    value it had, "0" if it had none: the test is on the attribute, not on
    whether the element can take focus); its role is "button" unless it is a
    button element, whose role stays as it was; a control element that is
    itself among the regions found ends with the role "region". *)
Theorem init_control_attributes element w this w' :
  init element w = Returns this w' →
  let control := controlElement_ this in
  getAttribute w' control "aria-expanded" =
    Some (default "false" (getAttribute w control "aria-expanded")) ∧
  getAttribute w' control "tabindex" =
    Some (default "0" (getAttribute w control "tabindex")) ∧
  getAttribute w' control "role" =
    if bool_decide (control ∈ discovered this (controlDefaults control w))
    then Some "region"
    else if String.eqb (Str.toLowerCase (nodeName (elements w control))) "button"
    then getAttribute w control "role"
    else Some "button".
Proof.
  intros H. apply init_returns_inv in H as (c & rs & Hc & -> & Hd & Hel).
  simpl. unfold discovered. rewrite Hd.
  rewrite !(getAttribute_elements _ _ _ _ Hel).
  split; [|split].
  - rewrite addedAll_attr by (right; repeat split; discriminate).
    apply controlDefaults_expanded.
  - rewrite addedAll_attr by (right; repeat split; discriminate).
    apply controlDefaults_tabindex.
  - rewrite addedAll_role. rewrite controlDefaults_role.
    destruct (decide (c ∈ rs)) as [Hin|Hin].
    + by rewrite bool_decide_eq_true_2.
    + by rewrite bool_decide_eq_false_2.
Qed.

Lemma init_control_attributes_witness :
  let w' := after (init 2 Fixture.siblings) in
  init 2 Fixture.siblings = Returns Fixture.widget w' ∧
  getAttribute w' 2 "aria-expanded" = Some "false" ∧
  getAttribute w' 2 "tabindex" = Some "0" ∧
  getAttribute w' 2 "role" = Some "button".
Proof.
  intros w'.
  assert (init 2 Fixture.siblings = Returns Fixture.widget w') as H
    by (vm_compute; reflexivity).
  split; [exact H|].
  exact (init_control_attributes 2 Fixture.siblings Fixture.widget w' H).
Defined.

(** A control element with tabindex="abc" cannot take focus, by
    [isFocusable] and by the rules of HTML alike; init leaves the attribute
    as it is. *)
Lemma init_keeps_odd_tabindex :
  let built := init 2 Fixture.oddTabindex in
  returned built = Some Fixture.widget ∧
  getAttribute Fixture.oddTabindex 2 "tabindex" = Some "abc" ∧
  returned (isFocusable 2 Fixture.oddTabindex) = Some false ∧
  getAttribute (after built) 2 "tabindex" = Some "abc" ∧
  returned (isFocusable 2 (after built)) = Some false.
Proof. repeat split; vm_compute; reflexivity. Qed.

(** A control element that lists its own id ends with the role "region". *)
Lemma init_self_controlled_role :
  let built := init 2 Fixture.selfControlled in
  returned built = Some Fixture.widget ∧
  nodeName (elements Fixture.selfControlled 2) = "DIV" ∧
  getAttribute (after built) 2 "role" = Some "region".
Proof. repeat split; vm_compute; reflexivity. Qed.

(** Construction fails with the configuration error exactly when neither
    the root nor any element below it carries the control class; the only other
    way to fail is the SyntaxError of the selector of an id in an aria-controls
    list that was there before.  When the root carries the class and no element
    below it does, the root is the control element, and construction returns
    provided the id list holds plain identifiers only (none, when aria-controls
    is absent). *)
Lemma init_configuration_error element w :
  (exception (init element w) = Some configurationError ↔
     classList_contains w element COLLAPSIBLE_CONTROL_CLASS = false ∧
     Forall (fun d => classList_contains w d COLLAPSIBLE_CONTROL_CLASS = false)
       (descendants w element)) ∧
  (∀ e, exception (init element w) = Some e →
        e = configurationError ∨
        ∃ c i, findControl w element = Some c ∧
               i ∈ regionIds (constructed w element c) w ∧
               e = SyntaxError ("#" ++ i)) ∧
  (classList_contains w element COLLAPSIBLE_CONTROL_CLASS = true →
   Forall (fun d => classList_contains w d COLLAPSIBLE_CONTROL_CLASS = false)
     (descendants w element) →
   let this := constructed w element element in
   (∀ c w', init element w = Returns c w' → c = this) ∧
   (Forall (fun i => Css.isIdent i = true) (regionIds this w) →
    ∃ w', init element w = Returns this w')).
Proof.
  assert (∀ c, findControl w element = Some c →
            ∀ e, exception (init element w) = Some e →
                 ∃ i, i ∈ regionIds (constructed w element c) w ∧
                      e = SyntaxError ("#" ++ i)) as Hsyn.
  { intros c Hc e. rewrite init_eq, Hc. cbv zeta.
    set (this0 := constructed w element c).
    set (w1 := controlDefaults c (allocated w)).
    assert (regionIds this0 w1 = regionIds this0 w) as Hids.
    { apply (regionIds_sameControls this0 (allocated w) w1).
      apply controlDefaults_attr. right. repeat split; discriminate. }
    destruct (discoverRegions this0 w1) as [rs w2|e1 w2] eqn:E; cbv beta iota.
    - destruct (listeners_renewed this0 (addedAll this0 rs w1))
        as (w3 & Heq & _). rewrite Heq. discriminate.
    - simpl. intros [= <-]. revert E.
      unfold discoverRegions, gets, mbind, M_bind.
      destruct (hasAttribute w1 (controlElement_ this0) "aria-controls");
        [|discriminate].
      intros E. destruct (regionElements_throws this0 w1 e1) as (i & Hi & He & _);
        [by rewrite E|].
      exists i. split; [by rewrite <- Hids|done]. }
  split; [|split].
  - rewrite <- findControl_None. split.
    + intros H. destruct (findControl w element) as [c|] eqn:Hc; [|done].
      destruct (Hsyn c eq_refl _ H) as (i & _ & Hs). discriminate.
    + intros Hc. by rewrite init_eq, Hc.
  - intros e H. destruct (findControl w element) as [c|] eqn:Hc.
    + right. destruct (Hsyn c eq_refl e H) as (i & Hi & He). by exists c, i.
    + left. rewrite init_eq, Hc in H. simpl in H. congruence.
  - intros Hroot Hnone this.
    pose proof (findControl_root w element Hroot Hnone) as Hc. split.
    + intros c w' H. apply init_returns_inv in H as (c0 & _ & Hc0 & -> & _).
      unfold this. congruence.
    + intros Hp. rewrite init_eq, Hc. cbv zeta. fold this.
      assert (plain this (controlDefaults element (allocated w))) as Hp1.
      { unfold plain.
        rewrite (regionIds_sameControls this (allocated w)
                   (controlDefaults element (allocated w))); [done|].
        apply controlDefaults_attr. right. repeat split; discriminate. }
      destruct (discoverRegions_plain this _ Hp1) as [rs ->].
      destruct (listeners_renewed this
                  (addedAll this rs (controlDefaults element (allocated w))))
        as (w2 & -> & _). eauto.
Qed.

Lemma init_configuration_error_witness :
  (classList_contains Fixture.noControl 2 COLLAPSIBLE_CONTROL_CLASS = false ∧
   Forall (fun d => classList_contains Fixture.noControl d COLLAPSIBLE_CONTROL_CLASS = false)
     (descendants Fixture.noControl 2) ∧
   exception (init 2 Fixture.noControl) = Some configurationError) ∧
  (classList_contains Fixture.siblings 2 COLLAPSIBLE_CONTROL_CLASS = true ∧
   Forall (fun i => Css.isIdent i = true) (regionIds Fixture.widget Fixture.siblings) ∧
   ∃ w', init 2 Fixture.siblings = Returns Fixture.widget w').
Proof.
  split.
  - assert (classList_contains Fixture.noControl 2 COLLAPSIBLE_CONTROL_CLASS = false) as H1
      by (vm_compute; reflexivity).
    assert (Forall (fun d => classList_contains Fixture.noControl d
                               COLLAPSIBLE_CONTROL_CLASS = false)
              (descendants Fixture.noControl 2)) as H2 by constructor.
    split; [exact H1|]. split; [exact H2|].
    exact (proj2 (proj1 (init_configuration_error 2 Fixture.noControl)) (conj H1 H2)).
  - assert (classList_contains Fixture.siblings 2 COLLAPSIBLE_CONTROL_CLASS = true) as H1
      by (vm_compute; reflexivity).
    assert (Forall (fun d => classList_contains Fixture.siblings d
                               COLLAPSIBLE_CONTROL_CLASS = false)
              (descendants Fixture.siblings 2)) as H2 by constructor.
    assert (Forall (fun i => Css.isIdent i = true)
              (regionIds Fixture.widget Fixture.siblings)) as H3 by constructor.
    split; [exact H1|]. split; [exact H3|].
    exact (proj2 (proj2 (proj2 (init_configuration_error 2 Fixture.siblings)) H1 H2) H3).
Defined.

(** C9: the root carries the control class, so there is a control element
    and the claim has construction succeed; with aria-controls="" on it, or with
    the list "a 9", construction throws the SyntaxError of the lookup ([#],
    [#9]) and makes no component. *)
Theorem init_throws_on_empty_aria_controls :
  classList_contains Fixture.emptyControls 2 COLLAPSIBLE_CONTROL_CLASS = true ∧
  findControl Fixture.emptyControls 2 = Some 2 ∧
  exception (init 2 Fixture.emptyControls) = Some (SyntaxError "#") ∧
  returned (init 2 Fixture.emptyControls) = None ∧
  classList_contains Fixture.digitId 2 COLLAPSIBLE_CONTROL_CLASS = true ∧
  findControl Fixture.digitId 2 = Some 2 ∧
  exception (init 2 Fixture.digitId) = Some (SyntaxError "#9") ∧
  returned (init 2 Fixture.digitId) = None.
Proof. repeat split; vm_compute; reflexivity. Qed.

(** ** Ids that are no selectors *)

Lemma parse_empty_id : Css.parse ("#" ++ "") = Css.Malformed.
Proof. reflexivity. Qed.

(** An id of name characters that starts with a digit is no selector after
    [#]. *)
Lemma parse_leading_digit c rest :
  Str.isDigit c = true → Css.allChars Css.isNameChar rest = true →
  Css.parse ("#" ++ String c rest) = Css.Malformed.
Proof.
  intros Hd Hall.
  change (Css.parse ("#" ++ String c rest))
    with (Css.classify Css.IdSelector (String c rest)).
  unfold Css.classify.
  destruct c as [[] [] [] [] [] [] [] []]; try discriminate Hd;
    simpl; rewrite Hall; reflexivity.
Qed.

Section NoSelector.

Variable this : Collapsible.
Let control := controlElement_ this.

(** With aria-controls="" every call throws on the selector [#]. *)
Lemma empty_id_list_throws w :
  getAttribute w control "aria-controls" = Some "" →
  regionElements this w = Throws (SyntaxError "#") w ∧
  exception (expand this w) = Some (SyntaxError "#") ∧
  exception (collapse this w) = Some (SyntaxError "#") ∧
  exception (toggle this w) = Some (SyntaxError "#").
Proof.
  intros H.
  assert (regionIds this w = [""]) as Hids by (unfold regionIds; fold control; by rewrite H).
  assert ("" ∈ regionIds this w) as Hin by (rewrite Hids; by left).
  assert (∀ j, j ∈ regionIds this w → SyntaxError ("#" ++ j) = SyntaxError "#") as Hj.
  { intros j. rewrite Hids, list_elem_of_singleton. by intros ->. }
  destruct (regionElements_malformed this w "" Hin parse_empty_id) as (j & Hjin & ->).
  destruct (calls_malformed this w "" Hin parse_empty_id)
    as ((j1 & H1 & ->) & (j2 & H2 & ->) & (j3 & H3 & ->)).
  simpl. by rewrite (Hj j), (Hj j1), (Hj j2), (Hj j3).
Qed.

(** Removing a region whose id is not listed leaves the component in that
    state. *)
Lemma removal_of_unlisted_breaks_lookup r w :
  elementId w r ≠ "" → elementId w r ∉ regionIds this w →
  let w' := after (removeRegionElement this (Some r) w) in
  regionElements this w' = Throws (SyntaxError "#") w' ∧
  exception (expand this w') = Some (SyntaxError "#") ∧
  exception (collapse this w') = Some (SyntaxError "#") ∧
  exception (toggle this w') = Some (SyntaxError "#").
Proof.
  intros Hne Hnot w'. apply empty_id_list_throws.
  by apply removeRegionElement_unlisted.
Qed.

End NoSelector.

(** Construction over a control element whose list holds an id that is no
    selector throws the SyntaxError of a listed id, though the control element
    is there. *)
Lemma init_malformed element w c i :
  findControl w element = Some c →
  i ∈ regionIds (constructed w element c) w →
  Css.parse ("#" ++ i) = Css.Malformed →
  ∃ j, j ∈ regionIds (constructed w element c) w ∧
       exception (init element w) = Some (SyntaxError ("#" ++ j)).
Proof.
  intros Hc Hin Hbad. rewrite init_eq, Hc. cbv zeta.
  set (this0 := constructed w element c).
  set (w1 := controlDefaults c (allocated w)).
  assert (getAttribute w1 c "aria-controls" = getAttribute w c "aria-controls") as Hac.
  { apply (controlDefaults_attr c (allocated w)). right. repeat split; discriminate. }
  assert (regionIds this0 w1 = regionIds this0 w) as Hids
    by (by apply regionIds_sameControls).
  destruct (regionElements_malformed this0 w1 i) as (j & Hj & He);
    [by rewrite Hids|done|].
  exists j. split; [by rewrite <- Hids|].
  unfold discoverRegions, gets, mbind, M_bind. unfold hasAttribute.
  change (controlElement_ this0) with c. rewrite Hac.
  fold this0 in Hin. unfold regionIds in Hin. change (controlElement_ this0) with c in Hin.
  destruct (getAttribute w c "aria-controls"); [|by apply not_elem_of_nil in Hin].
  by rewrite He.
Qed.

(** * Further properties of the component *)

(** ** The id list and the lookup *)

Section IdList.

Variable this : Collapsible.
Let control := controlElement_ this.

(** X1 (regionIds): when the control element has an aria-controls attribute,
    the id list is not empty (the empty attribute gives the one empty id), no
    id in it holds a space, and joining the ids with spaces gives the
    attribute back; without the attribute the list is empty. *)
Theorem regionIds_round_trip w :
  match getAttribute w control "aria-controls" with
  | Some v =>
      regionIds this w ≠ [] ∧ Str.join (regionIds this w) = v ∧
      Forall (fun i => Str.hasSpace i = false) (regionIds this w)
  | None => regionIds this w = []
  end.
Proof.
  pose proof (regionIds_hasSpace this w) as Hsp. revert Hsp.
  unfold regionIds. fold control.
  destruct (getAttribute w control "aria-controls") as [v|]; [|done].
  intros Hsp. split; [apply StrFacts.split_not_nil|].
  split; [apply StrFacts.join_split|done].
Qed.

(** X2 (expand, collapse, toggle, getRegionElements): the only thing these
    calls ever throw is the SyntaxError of the selector [#id] of an id that is
    in the id list; the loop of collapse never reads past its array. *)
Theorem calls_throw_only_listed_selectors c w e :
  (exception (call this c w) = Some e ∨
   exception (MaterialExtCollapsible.getRegionElements this w) = Some e) →
  ∃ i, i ∈ regionIds this w ∧ e = SyntaxError ("#" ++ i).
Proof.
  assert (∀ v, exception
            (regionElements this (setAttribute control "aria-expanded" v w)) = Some e →
            ∃ i, i ∈ regionIds this w ∧ e = SyntaxError ("#" ++ i)) as Hset.
  { intros v H. apply regionElements_throws in H as (i & Hi & He & _).
    exists i. split; [|done].
    rewrite (regionIds_sameControls this w) in Hi; [done|].
    by apply getAttribute_set_other. }
  assert (exception (expand this w) = Some e →
          ∃ i, i ∈ regionIds this w ∧ e = SyntaxError ("#" ++ i)) as Hex.
  { rewrite expand_eq. fold control. intros H. apply (Hset "true").
    by destruct (regionElements this _). }
  assert (exception (collapse this w) = Some e →
          ∃ i, i ∈ regionIds this w ∧ e = SyntaxError ("#" ++ i)) as Hco.
  { rewrite collapse_eq. fold control. intros H. apply (Hset "false").
    by destruct (regionElements this _). }
  intros [H|H].
  - destruct c; simpl in H; [by apply Hex|by apply Hco|].
    rewrite toggle_eq in H. destruct (isExpanded this w); [by apply Hco|by apply Hex].
  - apply regionElements_throws in H as (i & Hi & He & _). eauto.
Qed.

Lemma find_first {A} (f : A -> bool) (l : list A) x :
  List.find f l = Some x →
  f x = true ∧ ∃ l1 l2, l = l1 ++ x :: l2 ∧ Forall (fun y => f y = false) l1.
Proof.
  induction l as [|y l IH]; simpl; [discriminate|].
  destruct (f y) eqn:E.
  - intros [= <-]. split; [done|]. exists [], l. by split.
  - intros H. destruct (IH H) as (Hx & l1 & l2 & -> & Hall).
    split; [done|]. exists (y :: l1), l2. split; [done|]. by constructor.
Qed.

(** X3 (regionElements): for an id list of plain identifiers the lookup
    returns, without changing anything, the regions in the order of the id
    list: going through the list, an id that an element of the document
    carries gives the first such element in tree order, an id that none
    carries gives nothing, and the regions are what the ids gave, in that
    order.  So every region is attached to the document and carries an id of
    the list, and there are at most as many regions as ids. *)
Theorem regionElements_attached w :
  Forall (fun i => Css.isIdent i = true) (regionIds this w) →
  ∃ regions,
    regionElements this w = Returns regions w ∧
    (length regions ≤ length (regionIds this w))%nat ∧
    Forall (fun r =>
      ∃ i before rest,
        i ∈ regionIds this w ∧ getAttribute w r "id" = Some i ∧
        preorder (document w) = before ++ r :: rest ∧
        Forall (fun x => getAttribute w x "id" ≠ Some i) before) regions ∧
    ∃ picks,
      regions = omap (fun pick => pick) picks ∧
      Forall2 (fun i pick =>
        match pick with
        | Some r =>
            ∃ before rest,
              getAttribute w r "id" = Some i ∧
              preorder (document w) = before ++ r :: rest ∧
              Forall (fun x => getAttribute w x "id" ≠ Some i) before
        | None =>
            Forall (fun x => getAttribute w x "id" ≠ Some i) (preorder (document w))
        end) (regionIds this w) picks.
Proof.
  intros Hp. exists (omap (lookupId w) (regionIds this w)).
  split; [by apply regionElements_ident|]. split; [|split].
  - generalize (regionIds this w). intros l.
    induction l as [|i l IH]; simpl in *; [lia|].
    destruct (lookupId w i); unfold omap in *; simpl in *; lia.
  - apply Forall_forall. intros r Hr.
    apply list_elem_of_omap in Hr as (i & Hi & Hl).
    apply find_first in Hl as (Hm & l1 & l2 & Hdoc & Hall).
    simpl in Hm. apply bool_decide_eq_true in Hm.
    exists i, l1, l2. repeat split; try done.
    eapply Forall_impl; [exact Hall|]. intros x Hx. simpl in Hx.
    by apply bool_decide_eq_false in Hx.
  - exists (map (lookupId w) (regionIds this w)). split.
    + generalize (regionIds this w). intros l.
      induction l as [|i l IH]; [done|]. unfold omap in *. simpl.
      destruct (lookupId w i); [f_equal|]; exact IH.
    + generalize (regionIds this w). intros l.
      induction l as [|i l IH]; simpl; constructor; [|exact IH].
      destruct (lookupId w i) as [r|] eqn:Hl.
      * apply find_first in Hl as (Hm & l1 & l2 & Hdoc & Hall).
        simpl in Hm. apply bool_decide_eq_true in Hm.
        exists l1, l2. split; [done|]. split; [done|].
        eapply Forall_impl; [exact Hall|]. intros x Hx. simpl in Hx.
        by apply bool_decide_eq_false in Hx.
      * unfold lookupId in Hl.
        apply (proj1 (find_None_Forall (matches w (Css.IdSelector i)) _)) in Hl.
        eapply Forall_impl; [exact Hl|]. intros x Hx. simpl in Hx.
        by apply bool_decide_eq_false in Hx.
Qed.

End IdList.

Lemma calls_throw_only_listed_selectors_witness :
  exception (call Fixture.widget Toggle Fixture.digitId) = Some (SyntaxError "#9") ∧
  ∃ i, i ∈ regionIds Fixture.widget Fixture.digitId ∧
       SyntaxError "#9" = SyntaxError ("#" ++ i).
Proof.
  assert (exception (call Fixture.widget Toggle Fixture.digitId) =
          Some (SyntaxError "#9")) as H by (vm_compute; reflexivity).
  split; [exact H|].
  exact (calls_throw_only_listed_selectors Fixture.widget Toggle Fixture.digitId
           (SyntaxError "#9") (or_introl H)).
Defined.

Lemma regionElements_attached_witness :
  Forall (fun i => Css.isIdent i = true) (regionIds Fixture.widget shuffled) ∧
  regionIds Fixture.widget shuffled = ["a"; "c"; "b"] ∧
  regionElements Fixture.widget shuffled = Returns [3; 4] shuffled.
Proof.
  assert (Forall (fun i => Css.isIdent i = true) (regionIds Fixture.widget shuffled))
    as H by (apply Forall_of_forallb; vm_compute; reflexivity).
  split; [exact H|]. split; [reflexivity|].
  destruct (regionElements_attached Fixture.widget shuffled H) as (regions & E & _).
  rewrite E. f_equal.
  assert (returned (regionElements Fixture.widget shuffled) = Some [3; 4]) as R
    by (vm_compute; reflexivity).
  rewrite E in R. simpl in R. congruence.
Defined.

(** ** Runs of calls as one call *)

Section OneCall.

Variable this : Collapsible.
Let control := controlElement_ this.

Lemma call_as_settle c w :
  call this c w = settle this (intent c (isExpanded this w)) w.
Proof.
  destruct c; simpl; try done. rewrite toggle_eq. unfold settle.
  by destruct (isExpanded this w).
Qed.

(** Every attribute after expand or collapse on a plain id list. *)
Lemma settle_attr b w r n :
  plain this w →
  getAttribute (after (settle this b w)) r n =
  if decide (n = "hidden" ∧ r ∈ omap (lookupId w) (regionIds this w))
  then (if b then None else Some "")
  else if decide (r = control ∧ n = "aria-expanded")
       then Some (if b then "true" else "false")
       else getAttribute w r n.
Proof.
  intros Hp. unfold settle. destruct b.
  - rewrite expand_plain by done. simpl. fold control.
    rewrite getAttribute_showAll, getAttribute_setAttribute.
    repeat case_decide; try done; tauto.
  - rewrite collapse_plain by done. simpl. fold control.
    rewrite getAttribute_hideAll, getAttribute_setAttribute.
    repeat case_decide; try done; exfalso;
      match goal with
      | H : ¬ _, K : _ ∧ _ |- _ => apply H; destruct K as [? K]; split; [done|];
          first [exact (proj1 (elem_of_rev _ _) K)|exact (proj2 (elem_of_rev _ _) K)]
      end.
Qed.

Lemma settle_plain b w :
  plain this w →
  plain this (after (settle this b w)) ∧
  regionIds this (after (settle this b w)) = regionIds this w ∧
  sameIds w (after (settle this b w)).
Proof.
  intros Hp.
  assert (settle this b w = call this (if b then Expand else Collapse) w) as ->
    by (destruct b; reflexivity).
  destruct (call_plain this (if b then Expand else Collapse) w Hp)
    as (w' & -> & Hids & Hsame & _).
  simpl. split; [unfold plain; by rewrite Hids|]. by split.
Qed.

Lemma settle_twice b1 b2 w r n :
  plain this w →
  getAttribute (after (settle this b2 (after (settle this b1 w)))) r n =
  getAttribute (after (settle this b2 w)) r n.
Proof.
  intros Hp. destruct (settle_plain b1 w Hp) as (Hp1 & Hids & Hsame).
  rewrite (settle_attr b2 _ r n Hp1), (settle_attr b2 w r n Hp).
  rewrite (settle_attr b1 w r n Hp).
  assert (omap (lookupId (after (settle this b1 w))) (regionIds this (after (settle this b1 w)))
          = omap (lookupId w) (regionIds this w)) as ->.
  { rewrite Hids. apply omap_ext_all. intros i. by apply lookupId_sameIds. }
  repeat case_decide; try done; tauto.
Qed.

(** X4 (expand, collapse, toggle): on an id list of plain identifiers a run
    of calls leaves every attribute of every element as one call would: expand
    when the last call meant expanded, collapse otherwise.  So a second expand
    changes nothing, collapse undoes expand and the reverse, and two toggles
    after a call restore what that call left. *)
Theorem run_as_one_call cs c w r n :
  Forall (fun i => Css.isIdent i = true) (regionIds this w) →
  getAttribute (after (run this (cs ++ [c]) w)) r n =
  getAttribute
    (after (settle this (intent c (isExpanded this (after (run this cs w)))) w)) r n.
Proof.
  revert w. induction cs as [|c0 cs IH]; intros w Hp.
  - unfold run. simpl. unfold mbind, M_bind, mret, M_ret.
    rewrite call_as_settle.
    by destruct (settle this _ w).
  - destruct (call_plain this c0 w Hp) as (w0 & Hcall & Hids & _).
    assert (plain this w0) as Hp0 by (unfold plain; by rewrite Hids).
    assert (w0 = after (settle this (intent c0 (isExpanded this w)) w)) as Hw0
      by (rewrite <- call_as_settle, Hcall; done).
    unfold run in *. simpl. unfold mbind, M_bind. rewrite Hcall.
    rewrite (IH w0 Hp0). rewrite Hw0 at 2. apply settle_twice. done.
Qed.

(** X5 (clickHandler, isDisabled): a click on a control element that has
    the attribute disabled or aria-disabled with any value other than "false"
    (in any letter case; the empty value counts as disabled) changes nothing at
    all; when neither attribute says so, the click is a toggle. *)
Theorem click_respects_disabled w :
  (∀ name v, name = "disabled" ∨ name = "aria-disabled" →
             getAttribute w control name = Some v →
             Str.toLowerCase v ≠ "false" →
             clickHandler_ this w = Returns tt w) ∧
  ((∀ name v, name = "disabled" ∨ name = "aria-disabled" →
              getAttribute w control name = Some v →
              Str.toLowerCase v = "false") →
   clickHandler_ this w = toggle this w).
Proof.
  unfold clickHandler_, gets, mbind, M_bind, isDisabled. fold control. split.
  - intros name v Hname Hv Hne.
    assert (negb (String.eqb (Str.toLowerCase v) "false") = true) as Hb
      by (destruct (String.eqb_spec (Str.toLowerCase v) "false"); done).
    destruct Hname as [-> | ->]; rewrite Hv, Hb; [done|].
    by rewrite orb_true_r.
  - intros H.
    assert (∀ name, name = "disabled" ∨ name = "aria-disabled" →
              match getAttribute w control name with
              | Some v => negb (String.eqb (Str.toLowerCase v) "false")
              | None => false
              end = false) as Hoff.
    { intros name Hname. destruct (getAttribute w control name) as [v|] eqn:E; [|done].
      rewrite (H name v Hname E). done. }
    rewrite (Hoff "disabled"), (Hoff "aria-disabled") by auto. done.
Qed.

End OneCall.

Lemma run_as_one_call_witness :
  Forall (fun i => Css.isIdent i = true) (regionIds Fixture.widget Fixture.listed) ∧
  getAttribute (after (run Fixture.widget [Expand; Toggle; Toggle] Fixture.listed))
    3 "hidden" =
  getAttribute (after (expand Fixture.widget Fixture.listed)) 3 "hidden".
Proof.
  assert (Forall (fun i => Css.isIdent i = true)
            (regionIds Fixture.widget Fixture.listed)) as H
    by (apply Forall_of_forallb; vm_compute; reflexivity).
  split; [exact H|].
  assert (intent Toggle
            (isExpanded Fixture.widget
               (after (run Fixture.widget [Expand; Toggle] Fixture.listed))) = true)
    as Hb by (vm_compute; reflexivity).
  pose proof (run_as_one_call Fixture.widget [Expand; Toggle] Toggle
                Fixture.listed 3 "hidden" H) as E.
  rewrite Hb in E. exact E.
Defined.

Lemma click_respects_disabled_witness :
  let w := setAttribute 2 "disabled" "" Fixture.listed in
  getAttribute w 2 "disabled" = Some "" ∧
  clickHandler_ Fixture.widget w = Returns tt w ∧
  clickHandler_ Fixture.widget Fixture.listed = toggle Fixture.widget Fixture.listed.
Proof.
  intros w.
  assert (getAttribute w 2 "disabled" = Some "") as H by (vm_compute; reflexivity).
  split; [exact H|]. split.
  - apply (proj1 (click_respects_disabled Fixture.widget w) "disabled" "");
      [left; reflexivity|exact H|discriminate].
  - apply (proj2 (click_respects_disabled Fixture.widget Fixture.listed)).
    intros name v [-> | ->] E; vm_compute in E; discriminate.
Defined.

(** ** Listeners *)

Section Listeners.

Variable this : Collapsible.
Let control := controlElement_ this.

Let foreign := fun l : Ref * string * Handler =>
  negb (bool_decide (l ∈ ownListeners this)).

Lemma filter_out_two {A} `{EqDecision A} (a b : A) (l : list A) :
  List.filter (fun x => negb (bool_decide (x = b)))
    (List.filter (fun x => negb (bool_decide (x = a))) l) =
  List.filter (fun x => negb (bool_decide (x ∈ [a; b]))) l.
Proof.
  induction l as [|x l IH]; [done|]. simpl.
  destruct (decide (x = a)) as [->|Ha].
  - rewrite bool_decide_eq_true_2 by done. simpl.
    rewrite (bool_decide_eq_true_2 (a ∈ [a; b])) by (by left). simpl. exact IH.
  - rewrite (bool_decide_eq_false_2 (x = a)) by done. simpl.
    destruct (decide (x = b)) as [->|Hb].
    + rewrite bool_decide_eq_true_2 by done. simpl.
      rewrite (bool_decide_eq_true_2 (b ∈ [a; b])) by (right; by left). simpl. exact IH.
    + rewrite (bool_decide_eq_false_2 (x = b)) by done. simpl.
      rewrite (bool_decide_eq_false_2 (x ∈ [a; b])); [simpl; by rewrite IH|].
      rewrite !elem_of_cons. intros [?|[?|H]]; try done. by apply not_elem_of_nil in H.
Qed.

Lemma removeListeners_listeners w :
  ∃ w', removeListeners this w = Returns tt w' ∧
        listeners w' = List.filter foreign (listeners w) ∧
        elements w' = elements w ∧ document w' = document w ∧
        detached w' = detached w ∧ log w' = log w ∧ drawn w' = drawn w.
Proof.
  unfold removeListeners, removeEventListener, modify, mbind, M_bind.
  eexists. split; [reflexivity|]. split; [|by repeat split].
  simpl. apply filter_out_two.
Qed.

Lemma foreign_own l : l ∈ ownListeners this → foreign l = false.
Proof. intros H. unfold foreign. by rewrite bool_decide_eq_true_2. Qed.

Lemma filter_foreign_own L l :
  l ∈ ownListeners this → l ∉ List.filter foreign L.
Proof.
  intros Hown Hin. apply list_elem_of_In, filter_In in Hin as [_ Hf].
  rewrite foreign_own in Hf; done.
Qed.

Lemma addListeners_listeners w :
  Forall (fun l => l ∉ listeners w) (ownListeners this) →
  ∃ w', addListeners this w = Returns tt w' ∧
        listeners w' = listeners w ++ ownListeners this ∧
        elements w' = elements w ∧ log w' = log w.
Proof.
  intros Hnone. unfold ownListeners in *. fold control in Hnone |- *.
  apply Forall_cons in Hnone as [Hkd Hck%Forall_cons]. destruct Hck as [Hck _].
  unfold addListeners, addEventListener, modify, mbind, M_bind. fold control.
  rewrite (bool_decide_eq_false_2 _ Hkd). cbv beta iota.
  rewrite bool_decide_eq_false_2.
  - eexists. split; [reflexivity|]. simpl. rewrite <- app_assoc. by repeat split.
  - simpl. rewrite elem_of_app, list_elem_of_singleton. intros [?|?]; [done|discriminate].
Qed.

Lemma relisten_listeners w :
  ∃ w', (removeListeners this ;; addListeners this ;; mret this) w = Returns this w' ∧
        listeners w' = List.filter foreign (listeners w) ++ ownListeners this ∧
        elements w' = elements w.
Proof.
  destruct (removeListeners_listeners w) as (w1 & E1 & L1 & El1 & _).
  destruct (addListeners_listeners w1) as (w2 & E2 & L2 & El2 & _).
  { apply Forall_forall. intros l Hl. rewrite L1. by apply filter_foreign_own. }
  exists w2. unfold mbind, M_bind, mret, M_ret. rewrite E1, E2.
  split; [done|]. split; [by rewrite L2, L1|congruence].
Qed.

Lemma listeners_prepared region w :
  listeners (prepared this region w) = listeners w.
Proof.
  unfold prepared. cbv zeta.
  destruct (isExpanded this _); destruct (hasAttribute w region "id"); reflexivity.
Qed.

Lemma listeners_addedAll regions w :
  listeners (addedAll this regions w) = listeners w.
Proof.
  revert w. induction regions as [|r rs IH]; intros w; [done|].
  unfold addedAll in *. simpl. rewrite IH. unfold added, withRegionId.
  destruct (negb _); simpl; apply listeners_prepared.
Qed.

(** X7 (downgrade, removeListeners): teardown returns, takes the keydown
    and the click listener of this instance off the control element and leaves
    every other listener in place and in order, those of another instance over
    the same control element among them; it changes no element and makes no
    mutation; a second teardown, or one without listeners attached, changes
    nothing more. *)
Theorem downgrade_removes_own_listeners w :
  let w' := after (downgrade this w) in
  downgrade this w = Returns tt w' ∧
  listeners w' = List.filter foreign (listeners w) ∧
  elements w' = elements w ∧ log w' = log w ∧
  listeners (after (downgrade this w')) = listeners w' ∧
  (Forall (fun l => l ∉ listeners w) (ownListeners this) → listeners w' = listeners w).
Proof.
  intros w'. unfold downgrade in *.
  destruct (removeListeners_listeners w) as (w1 & E1 & L1 & El1 & _ & _ & Lg1 & _).
  assert (w' = w1) as Hw by (unfold w'; by rewrite E1).
  clearbody w'. subst w'.
  split; [done|]. split; [done|]. split; [done|]. split; [done|].
  split.
  - destruct (removeListeners_listeners w1) as (w2 & E2 & L2 & _).
    rewrite E2. simpl. rewrite L2, L1.
    generalize (listeners w). intros L.
    induction L as [|x L IH]; [done|]. simpl.
    destruct (foreign x) eqn:E; simpl; rewrite ?E; by rewrite IH.
  - intros Hnone. rewrite L1.
    assert (∀ l, l ∈ listeners w → foreign l = true) as Hall.
    { intros l Hl. unfold foreign. rewrite bool_decide_eq_false_2; [done|].
      intros Hown. rewrite Forall_forall in Hnone. by apply (Hnone l). }
    revert Hall. generalize (listeners w). intros L Hall.
    induction L as [|x L IH]; [done|]. simpl.
    rewrite (Hall x) by (by left). f_equal. apply IH. intros l Hl. apply Hall. by right.
Qed.

End Listeners.

Lemma listeners_controlDefaults control w :
  listeners (controlDefaults control w) = listeners w.
Proof.
  unfold controlDefaults. cbv zeta.
  repeat match goal with
         | |- context [if ?b then _ else _] => destruct b
         end; reflexivity.
Qed.

Lemma filter_all {A} (f : A -> bool) (l : list A) :
  Forall (fun x => f x = true) l → List.filter f l = l.
Proof.
  induction 1 as [|x l Hx _ IH]; [done|]. simpl. by rewrite Hx, IH.
Qed.

(** A function made before the construction is none of the two handlers of
    the new instance. *)
Lemma made_not_own w element control l :
  made w l = true → l ∉ ownListeners (constructed w element control).
Proof.
  destruct l as [[r k] [n]]. simpl. intros H%Nat.ltb_lt.
  unfold ownListeners. simpl. rewrite !elem_of_cons.
  intros [[= _ _ ->]|[[= _ _ ->]|Hin]]; [lia|lia|by apply not_elem_of_nil in Hin].
Qed.

(** X6 (init, removeListeners, addListeners): the two handlers of an
    instance are functions made for it, so the removal in init finds nothing to
    remove: after construction the listeners are all those that were there
    before, in their order, followed by the keydown and the click listener of
    the new instance on the control element.  Constructing again over the same
    element adds two more and takes none away. *)
Theorem init_listeners element w this w' :
  init element w = Returns this w' →
  Forall (fun l => made w l = true) (listeners w) →
  listeners w' = listeners w ++ ownListeners this ∧
  Forall (fun l => l ∉ listeners w) (ownListeners this) ∧
  closures w' = S (S (closures w)) ∧
  Forall (fun l => made w' l = true) (listeners w').
Proof.
  intros H Hmade.
  assert (∃ c, this = constructed w element c ∧
               listeners w' =
                 List.filter (fun l => negb (bool_decide (l ∈ ownListeners this)))
                   (listeners w) ++ ownListeners this ∧
               closures w' = S (S (closures w))) as (c & -> & L & Hn).
  { revert H. rewrite init_eq.
    destruct (findControl w element) as [c|]; [|discriminate].
    cbv zeta. set (this0 := constructed w element c).
    pose proof (discoverRegions_pure this0 (controlDefaults c (allocated w))) as [Hw _].
    destruct (discoverRegions this0 (controlDefaults c (allocated w))) as [rs w1|e w1];
      [|discriminate].
    unfold allocated in *. rewrite controlDefaults_closures, addedAll_closures.
    set (w0 := addedAll this0 rs (controlDefaults c w)).
    destruct (relisten_listeners this0 (withClosures w0 (S (S (closures w)))))
      as (w2 & E & L & _).
    assert (closures w2 = S (S (closures w))) as Hn.
    { revert E. unfold removeListeners, addListeners, removeEventListener,
        addEventListener, modify, mbind, M_bind, mret, M_ret.
      repeat match goal with
             | |- context [if ?b then _ else _] => destruct b
             end; by intros [= <-]. }
    rewrite E. intros [= <- <-]. exists c. split; [done|]. split; [|done].
    rewrite L. simpl. unfold w0.
    by rewrite listeners_addedAll, listeners_controlDefaults. }
  set (this := constructed w element c) in *.
  assert (Forall (fun l => negb (bool_decide (l ∈ ownListeners this)) = true)
            (listeners w)) as Hforeign.
  { eapply Forall_impl; [exact Hmade|]. intros l Hl.
    rewrite bool_decide_eq_false_2; [done|]. by apply made_not_own. }
  rewrite filter_all in L by done.
  split; [exact L|]. split.
  - apply Forall_forall. intros l Hown Hin.
    rewrite Forall_forall in Hmade. by apply (made_not_own w element c l (Hmade l Hin)).
  - split; [exact Hn|]. rewrite L. apply Forall_app. split.
    + eapply Forall_impl; [exact Hmade|]. intros [[r k] [n]]. unfold made.
      rewrite Hn. intros Hl%Nat.ltb_lt. apply Nat.ltb_lt. lia.
    + unfold ownListeners, this, made. simpl. rewrite Hn.
      repeat constructor; apply Nat.ltb_lt; lia.
Qed.

Lemma init_listeners_witness :
  let w' := after (init 2 listening) in
  init 2 listening = Returns (constructed listening 2 2) w' ∧
  Forall (fun l => made listening l = true) (listeners listening) ∧
  listeners w' =
    [(2, "keydown", Closure 0); (2, "click", Closure 1); (3, "click", Closure 2);
     (2, "keydown", Closure 3); (2, "click", Closure 4)].
Proof.
  intros w'.
  assert (init 2 listening = Returns (constructed listening 2 2) w') as H
    by (vm_compute; reflexivity).
  assert (Forall (fun l => made listening l = true) (listeners listening)) as Hm
    by (repeat constructor).
  split; [exact H|]. split; [exact Hm|].
  rewrite (proj1 (init_listeners 2 listening _ w' H Hm)). reflexivity.
Defined.

(** Two constructions over the same element: four listeners on the control
    element; taking the second instance down leaves those of the first. *)
Example init_twice_doubles_listeners :
  let first := init 2 Fixture.listed in
  let second := init 2 (after first) in
  returned first = Some Fixture.widget ∧
  returned second = Some (constructed (after first) 2 2) ∧
  listeners (after second) =
    [(2, "keydown", Closure 0); (2, "click", Closure 1);
     (2, "keydown", Closure 2); (2, "click", Closure 3)] ∧
  listeners (after (downgrade (constructed (after first) 2 2) (after second))) =
    [(2, "keydown", Closure 0); (2, "click", Closure 1)].
Proof. split; [|split; [|split]]; vm_compute; reflexivity. Qed.

Lemma downgrade_removes_own_listeners_witness :
  (Forall (fun l => l ∉ listeners Fixture.listed) (ownListeners Fixture.widget) ∧
   listeners (after (downgrade Fixture.widget Fixture.listed)) =
     listeners Fixture.listed) ∧
  listeners (after (downgrade Fixture.widget listening)) = [(3, "click", Closure 2)] ∧
  listeners (after (downgrade (constructed listening 2 2) listening)) =
    listeners listening.
Proof.
  assert (Forall (fun l => l ∉ listeners Fixture.listed) (ownListeners Fixture.widget))
    as H by (repeat constructor; apply not_elem_of_nil).
  split; [split; [exact H|]|].
  - exact (proj2 (proj2 (proj2 (proj2 (proj2
      (downgrade_removes_own_listeners Fixture.widget Fixture.listed))))) H).
  - split.
    + rewrite (proj1 (proj2 (downgrade_removes_own_listeners Fixture.widget listening))).
      reflexivity.
    + rewrite (proj1 (proj2
        (downgrade_removes_own_listeners (constructed listening 2 2) listening))).
      reflexivity.
Defined.

(** ** The sibling walk *)

(** X8 (initRegions, sibling walk): the walk over the siblings after the
    root stops at the first sibling that carries the widget class and not the
    region class, and collects, in order, exactly the siblings before it that
    carry the region class; a sibling with both classes is collected and does
    not stop the walk. *)
Theorem scanSiblings_up_to_next_widget w sibs :
  ∃ before rest,
    sibs = before ++ rest ∧
    Forall (fun r => startsWidget w r = false) before ∧
    match rest with
    | [] => True
    | r :: _ => startsWidget w r = true
    end ∧
    scanSiblings w sibs =
      List.filter (fun r => classList_contains w r COLLAPSIBLE_REGION_CLASS) before.
Proof.
  induction sibs as [|r sibs (before & rest & -> & Hb & Hr & Hs)].
  - exists [], []. repeat split; constructor.
  - simpl. unfold startsWidget in *.
    destruct (classList_contains w r COLLAPSIBLE_REGION_CLASS) eqn:Ereg.
    + exists (r :: before), rest. split; [done|]. split.
      * constructor; [by rewrite Ereg|done].
      * split; [done|]. simpl. by rewrite Ereg, Hs.
    + destruct (classList_contains w r JS_COLLAPSIBLE) eqn:Ejs.
      * exists [], (r :: before ++ rest). split; [done|]. split; [constructor|].
        split; [by rewrite Ereg, Ejs|done].
      * exists (r :: before), rest. split; [done|]. split.
        -- constructor; [by rewrite Ereg, Ejs|done].
        -- split; [done|]. simpl. by rewrite Ereg.
Qed.

Example scanSiblings_nested :
  followingSiblings nested 2 = [3; 4; 5; 8; 9] ∧
  scanSiblings nested (followingSiblings nested 2) = [3; 5].
Proof. split; vm_compute; reflexivity. Qed.

(** ** What adding a region does *)

Lemma classList_setAttribute r n v w r' :
  classList (elements (setAttribute r n v w) r') = classList (elements w r').
Proof. simpl. by destruct (Nat.eqb_spec r' r) as [->|]. Qed.

Lemma classList_removeAttribute r n w r' :
  classList (elements (removeAttribute r n w) r') = classList (elements w r').
Proof. simpl. by destruct (Nat.eqb_spec r' r) as [->|]. Qed.

Lemma classList_classList_add r t w r' :
  classList (elements (classList_add r t w) r') =
  if decide (r' = r ∧ t ∉ classList (elements w r))
  then classList (elements w r) ++ [t]
  else classList (elements w r').
Proof.
  unfold classList_add, classList_contains. simpl.
  destruct (Nat.eqb_spec r' r) as [->|Hne].
  - destruct (decide (t ∈ classList (elements w r))) as [Hin|Hin].
    + rewrite bool_decide_eq_true_2 by done. rewrite decide_False; [done|tauto].
    + rewrite bool_decide_eq_false_2 by done. by rewrite decide_True.
  - rewrite decide_False; [done|tauto].
Qed.

Lemma split_join_snoc l x :
  Forall (fun i => Str.hasSpace i = false) l →
  Str.split (Str.join (l ++ [x])) = l ++ Str.split x.
Proof.
  induction 1 as [|y l Hy Hl IH]; [done|].
  change ((y :: l) ++ [x]) with (y :: (l ++ [x])).
  rewrite StrFacts.join_cons by (destruct l; discriminate).
  rewrite StrFacts.split_glue by done. by rewrite IH.
Qed.

Section AddingMore.

Variable this : Collapsible.
Let control := controlElement_ this.

Lemma isExpanded_sameExpanded w w' :
  getAttribute w' control "aria-expanded" = getAttribute w control "aria-expanded" →
  isExpanded this w' = isExpanded this w.
Proof. unfold isExpanded. fold control. by intros ->. Qed.

Lemma prepared_hidden region w :
  hasAttribute (prepared this region w) region "hidden" = negb (isExpanded this w).
Proof.
  unfold prepared. cbv zeta.
  set (w1 := if hasAttribute w region "id" then w else _).
  set (w2 := setAttribute region "role" "region" _).
  assert (isExpanded this w2 = isExpanded this w) as ->.
  { apply isExpanded_sameExpanded. unfold w2.
    rewrite getAttribute_set_other by done. rewrite getAttribute_classList_add.
    unfold w1. destruct (hasAttribute w region "id"); [done|].
    by rewrite getAttribute_set_other. }
  unfold hasAttribute. destruct (isExpanded this w); simpl.
  - by rewrite getAttribute_removeAttribute, decide_True.
  - by rewrite getAttribute_set_same.
Qed.

Lemma classList_prepared region w r :
  classList (elements (prepared this region w) r) =
  if decide (r = region ∧ COLLAPSIBLE_REGION_CLASS ∉ classList (elements w region))
  then classList (elements w region) ++ [COLLAPSIBLE_REGION_CLASS]
  else classList (elements w r).
Proof.
  unfold prepared. cbv zeta.
  assert (∀ x, classList (elements
            (if hasAttribute w region "id" then w
             else setAttribute region "id" ("region-" ++ randomString w (drawn w)) (bump w)) x)
          = classList (elements w x)) as Hsame.
  { intros x. destruct (hasAttribute w region "id"); [done|].
    by rewrite classList_setAttribute. }
  destruct (isExpanded this _);
    repeat first [rewrite classList_setAttribute|rewrite classList_removeAttribute];
    rewrite classList_classList_add; rewrite !Hsame; reflexivity.
Qed.

Lemma classList_withRegionId i w r :
  classList (elements (withRegionId this i w) r) = classList (elements w r).
Proof. unfold withRegionId. destruct (negb _); [apply classList_setAttribute|done]. Qed.

(** X9 (addRegionElement): the call returns; afterwards the region has an
    id (the one it had, else "region-" and the next random string), the role
    "region", the region class, and hidden exactly when the component is
    collapsed; the expanded state is as before, and on every other element
    nothing changes but, possibly, aria-controls on the control element. *)
Theorem addRegionElement_effect region w :
  let w' := after (addRegionElement this region w) in
  addRegionElement this region w = Returns tt w' ∧
  getAttribute w' region "id" =
    Some (match getAttribute w region "id" with
          | Some i => i
          | None => "region-" ++ randomString w (drawn w)
          end)%string ∧
  getAttribute w' region "role" = Some "region" ∧
  classList_contains w' region COLLAPSIBLE_REGION_CLASS = true ∧
  hasAttribute w' region "hidden" = negb (isExpanded this w) ∧
  isExpanded this w' = isExpanded this w ∧
  (∀ r n, r ≠ region → r ≠ control ∨ n ≠ "aria-controls" →
          getAttribute w' r n = getAttribute w r n) ∧
  (∀ r, r ≠ region → classList (elements w' r) = classList (elements w r)).
Proof.
  intros w'. unfold w'. rewrite addRegionElement_eq. simpl.
  fold (added this region w).
  split; [done|]. split; [|split; [|split; [|split; [|split; [|split]]]]].
  - unfold added. rewrite withRegionId_attr by (right; discriminate). apply prepared_id.
  - apply added_role.
  - unfold classList_contains, added.
    rewrite classList_withRegionId, classList_prepared.
    apply bool_decide_eq_true. case_decide as H.
    + apply elem_of_app. right. by left.
    + destruct (decide (COLLAPSIBLE_REGION_CLASS ∈ classList (elements w region)));
        [done|tauto].
  - unfold added, hasAttribute.
    rewrite withRegionId_attr by (right; discriminate). apply prepared_hidden.
  - apply isExpanded_sameExpanded. fold control. unfold added.
    rewrite withRegionId_attr by (right; discriminate).
    apply prepared_attr. right. repeat split; discriminate.
  - intros r n Hr Hc. apply added_attr; [by left|done].
  - intros r Hr. unfold added. rewrite classList_withRegionId, classList_prepared.
    rewrite decide_False; [done|tauto].
Qed.

(** X10 (addRegionId): adding never removes or reorders an id of the list.
    Afterwards the list is the old list, followed by the id of the region when
    that id was not listed (an id with spaces arrives split at its spaces); an
    id already listed, if not empty, is not added again. *)
Theorem addRegionElement_extends_id_list region w :
  let w' := after (addRegionElement this region w) in
  let i := elementId w' region in
  (i ∉ regionIds this w → regionIds this w' = regionIds this w ++ Str.split i) ∧
  (i ∈ regionIds this w → i ≠ "" → regionIds this w' = regionIds this w) ∧
  ∃ tail, regionIds this w' = regionIds this w ++ tail.
Proof.
  cbv zeta. rewrite addRegionElement_eq. cbn [after].
  set (wp := prepared this region w).
  assert (elementId (withRegionId this (elementId wp region) wp) region =
          elementId wp region) as Hi.
  { unfold elementId. rewrite withRegionId_attr; [done|]. right. discriminate. }
  rewrite Hi. clear Hi. set (i := elementId wp region).
  assert (regionIds this wp = regionIds this w) as Hwp by apply prepared_regionIds.
  assert (List.find (fun j => String.eqb i j) (regionIds this wp) = None →
          regionIds this (withRegionId this i wp) = regionIds this wp ++ Str.split i)
    as Hnew.
  { intros E. unfold withRegionId. rewrite E. simpl.
    unfold regionIds at 1. rewrite getAttribute_set_same.
    apply split_join_snoc, regionIds_hasSpace. }
  split; [|split].
  - intros Hnot. rewrite <- Hwp in *.
    destruct (List.find (fun j => String.eqb i j) (regionIds this wp)) as [x|] eqn:E.
    + apply find_eqb_Some in E as [_ Hin]. contradiction.
    + by apply Hnew.
  - intros Hin Hne. rewrite <- Hwp in *. by rewrite withRegionId_listed.
  - rewrite <- Hwp.
    destruct (List.find (fun j => String.eqb i j) (regionIds this wp)) as [x|] eqn:E.
    + apply find_eqb_Some in E as [-> Hin].
      destruct (decide (i = "")) as [Hi|Hi].
      * exists [""]. unfold withRegionId.
        assert (List.find (fun j => String.eqb i j) (regionIds this wp) = Some i) as ->.
        { destruct (List.find _ _) as [y|] eqn:E2.
          - apply find_eqb_Some in E2 as [-> _]. done.
          - apply find_eqb_None in E2. apply occurrences_elem in Hin. lia. }
        rewrite Hi. simpl. unfold regionIds at 1. rewrite getAttribute_set_same.
        rewrite split_join_snoc by apply regionIds_hasSpace. done.
      * exists []. rewrite app_nil_r. by rewrite withRegionId_listed.
    + exists (Str.split i). by apply Hnew.
Qed.

End AddingMore.

Lemma addRegionElement_extends_id_list_witness :
  let w' := after (addRegionElement Fixture.widget 5 Fixture.listed) in
  elementId w' 5 = "c" ∧ ("c" ∉ regionIds Fixture.widget Fixture.listed) ∧
  regionIds Fixture.widget w' = ["a"; "b"; "c"].
Proof.
  intros w'.
  assert (elementId w' 5 = "c") as Hi by (vm_compute; reflexivity).
  assert ("c" ∉ regionIds Fixture.widget Fixture.listed) as Hnot.
  { change (regionIds Fixture.widget Fixture.listed) with ["a"; "b"].
    rewrite !elem_of_cons. intros [?|[?|H]]; try discriminate.
    by apply not_elem_of_nil in H. }
  split; [exact Hi|]. split; [exact Hnot|].
  pose proof (proj1 (addRegionElement_extends_id_list Fixture.widget 5 Fixture.listed))
    as H.
  cbv zeta in H. fold w' in H. rewrite Hi in H. exact (H Hnot).
Defined.

Lemma addRegionElement_effect_witness :
  let w := Fixture.listed in
  let w' := after (addRegionElement Fixture.widget 5 w) in
  getAttribute w' 5 "role" = Some "region" ∧
  hasAttribute w' 5 "hidden" = negb (isExpanded Fixture.widget w) ∧
  getAttribute w' 4 "hidden" = getAttribute w 4 "hidden" ∧
  classList (elements w' 4) = classList (elements w 4).
Proof.
  intros w w'.
  pose proof (addRegionElement_effect Fixture.widget 5 w)
    as (_ & _ & Hrole & _ & Hhidden & _ & Hattr & Hclass).
  split; [exact Hrole|]. split; [exact Hhidden|]. split.
  - apply Hattr; [lia|right; discriminate].
  - apply Hclass. lia.
Defined.

(** ** Adding several regions *)

Section AddingMany.

Variable this : Collapsible.
Let control := controlElement_ this.

Lemma wellNamed_id w r :
  wellNamed w r = true →
  getAttribute w r "id" = Some (elementId w r) ∧
  elementId w r ≠ "" ∧ Str.hasSpace (elementId w r) = false.
Proof.
  unfold wellNamed, elementId.
  destruct (getAttribute w r "id") as [i|]; [|discriminate]. simpl.
  intros [Ht Hs]%andb_true_iff. apply StrFacts.truthy_true in Ht.
  by destruct (Str.hasSpace i).
Qed.

(** Adding a region that has an id leaves every id attribute as it is. *)
Lemma added_ids region w r :
  hasAttribute w region "id" = true →
  getAttribute (added this region w) r "id" = getAttribute w r "id".
Proof.
  intros Hid. unfold added. rewrite withRegionId_attr by (right; discriminate).
  destruct (decide (r = region)) as [->|Hne].
  - rewrite prepared_id. unfold hasAttribute in Hid.
    by destruct (getAttribute w region "id").
  - apply prepared_attr. by left.
Qed.

Lemma added_regionIds region w :
  wellNamed w region = true → elementId w region ∉ regionIds this w →
  regionIds this (added this region w) = regionIds this w ++ [elementId w region].
Proof.
  intros Hw Hnot. destruct (wellNamed_id w region Hw) as (Hid & Hne & Hsp).
  unfold added.
  assert (elementId (prepared this region w) region = elementId w region) as ->
    by (by apply elementId_prepared_again).
  rewrite withRegionId_unlisted;
    [by rewrite prepared_regionIds|done|by rewrite prepared_regionIds].
Qed.

Lemma added_isExpanded region w :
  isExpanded this (added this region w) = isExpanded this w.
Proof.
  apply isExpanded_sameExpanded. unfold added.
  rewrite withRegionId_attr by (right; discriminate).
  apply prepared_attr. right. repeat split; discriminate.
Qed.

Lemma added_hidden region w :
  hasAttribute (added this region w) region "hidden" = negb (isExpanded this w).
Proof.
  unfold added, hasAttribute. rewrite withRegionId_attr by (right; discriminate).
  apply prepared_hidden.
Qed.

Lemma addedAll_snoc regions r w :
  addedAll this (regions ++ [r]) w = added this r (addedAll this regions w).
Proof. unfold addedAll. by rewrite fold_left_app. Qed.

Lemma addedAll_ids regions w r :
  Forall (fun x => hasAttribute w x "id" = true) regions →
  getAttribute (addedAll this regions w) r "id" = getAttribute w r "id".
Proof.
  revert r. induction regions as [|x regions IH] using rev_ind; intros r Hall; [done|].
  apply Forall_app in Hall as [Hall Hx%Forall_cons]. destruct Hx as [Hx _].
  rewrite addedAll_snoc, added_ids; [by apply IH|].
  unfold hasAttribute in *. by rewrite IH.
Qed.

Lemma addedAll_isExpanded regions w :
  isExpanded this (addedAll this regions w) = isExpanded this w.
Proof.
  induction regions as [|x regions IH] using rev_ind; [done|].
  by rewrite addedAll_snoc, added_isExpanded.
Qed.

(** The regions of a list, each with an id of its own that is not empty,
    has no space and is not listed yet, arrive in the id list in their order,
    and each ends hidden or shown as the state says. *)
Lemma addedAll_wellNamed regions w :
  Forall (fun r => wellNamed w r = true) regions →
  NoDup (map (elementId w) regions) →
  Forall (fun r => elementId w r ∉ regionIds this w) regions →
  regionIds this (addedAll this regions w) =
    regionIds this w ++ map (elementId w) regions ∧
  Forall (fun r =>
    hasAttribute (addedAll this regions w) r "hidden" = negb (isExpanded this w) ∧
    getAttribute (addedAll this regions w) r "role" = Some "region" ∧
    getAttribute (addedAll this regions w) r "id" = getAttribute w r "id") regions.
Proof.
  induction regions as [|x regions IH] using rev_ind; intros Hnamed Hdup Hnew.
  - simpl. rewrite app_nil_r. by split.
  - apply Forall_app in Hnamed as [Hnamed Hx%Forall_cons]. destruct Hx as [Hx _].
    apply Forall_app in Hnew as [Hnew Hxn%Forall_cons]. destruct Hxn as [Hxn _].
    rewrite map_app in Hdup. apply NoDup_app in Hdup as (Hdup & Hdisj & _).
    destruct (IH Hnamed Hdup Hnew) as [Hids Hall].
    set (w0 := addedAll this regions w) in *.
    assert (∀ r, getAttribute w0 r "id" = getAttribute w r "id") as Hsame.
    { intros r. apply addedAll_ids. eapply Forall_impl; [exact Hnamed|].
      intros r' Hr'. apply wellNamed_id in Hr' as (Hr' & _).
      unfold hasAttribute. by rewrite Hr'. }
    assert (elementId w0 x = elementId w x) as Hxid
      by (unfold elementId; by rewrite Hsame).
    assert (wellNamed w0 x = true) as Hx0 by (unfold wellNamed; by rewrite Hsame).
    assert (x ∉ regions) as Hxnot.
    { intros Hin. apply (Hdisj (elementId w x)).
      - apply list_elem_of_fmap. by exists x.
      - simpl. by left. }
    rewrite addedAll_snoc. fold w0. split.
    + rewrite added_regionIds; [|done|].
      * rewrite Hids, Hxid, map_app. simpl. by rewrite <- app_assoc.
      * rewrite Hids, Hxid. rewrite elem_of_app. intros [Hin|Hin]; [done|].
        apply (Hdisj (elementId w x)); [done|simpl; by left].
    + apply Forall_app. split.
      * rewrite Forall_forall in Hall. apply Forall_forall. intros r Hr.
        destruct (Hall r Hr) as (Hh & Hro & Hi).
        assert (r ≠ x) as Hne by (intros ->; done).
        unfold hasAttribute.
        rewrite !added_attr by (try (left; done); right; discriminate).
        split; [exact Hh|]. by split.
      * constructor; [|constructor].
        split; [|split].
        -- rewrite added_hidden. unfold w0. by rewrite addedAll_isExpanded.
        -- apply added_role.
        -- rewrite added_ids; [apply Hsame|].
           apply wellNamed_id in Hx0 as (Hx0 & _). unfold hasAttribute. by rewrite Hx0.
Qed.

(** X11 (addRegionElements): for regions that each carry an id of their
    own, not empty and without a space, none of them in the id list yet, the
    call returns, appends their ids to the id list in the order given, gives
    each the role "region" and sets hidden on each exactly when the component
    is collapsed; the ids of the regions and the expanded state stay as they
    were. *)
Theorem addRegionElements_appends regions w :
  Forall (fun r => wellNamed w r = true) regions →
  NoDup (map (elementId w) regions) →
  Forall (fun r => elementId w r ∉ regionIds this w) regions →
  ∃ w',
    MaterialExtCollapsible.addRegionElements this regions w = Returns tt w' ∧
    regionIds this w' = regionIds this w ++ map (elementId w) regions ∧
    isExpanded this w' = isExpanded this w ∧
    Forall (fun r =>
      hasAttribute w' r "hidden" = negb (isExpanded this w') ∧
      getAttribute w' r "role" = Some "region" ∧
      getAttribute w' r "id" = getAttribute w r "id") regions.
Proof.
  intros Hnamed Hdup Hnew. exists (addedAll this regions w).
  unfold MaterialExtCollapsible.addRegionElements.
  split; [apply forEach_add|].
  destruct (addedAll_wellNamed regions w Hnamed Hdup Hnew) as [Hids Hall].
  split; [done|]. split; [apply addedAll_isExpanded|].
  by rewrite addedAll_isExpanded.
Qed.

End AddingMany.

Lemma addRegionElements_appends_witness :
  Forall (fun r => wellNamed Fixture.siblings r = true) [4; 3] ∧
  NoDup (map (elementId Fixture.siblings) [4; 3]) ∧
  Forall (fun r => elementId Fixture.siblings r ∉
                   regionIds Fixture.widget Fixture.siblings) [4; 3] ∧
  ∃ w', MaterialExtCollapsible.addRegionElements Fixture.widget [4; 3]
          Fixture.siblings = Returns tt w' ∧
        regionIds Fixture.widget w' = ["1"; "a"].
Proof.
  assert (Forall (fun r => wellNamed Fixture.siblings r = true) [4; 3]) as H1
    by (apply Forall_of_forallb; vm_compute; reflexivity).
  assert (NoDup (map (elementId Fixture.siblings) [4; 3])) as H2.
  { change (map (elementId Fixture.siblings) [4; 3]) with ["1"; "a"].
    apply NoDup_cons. split; [|apply NoDup_singleton].
    rewrite list_elem_of_singleton. discriminate. }
  assert (Forall (fun r => elementId Fixture.siblings r ∉
                           regionIds Fixture.widget Fixture.siblings) [4; 3]) as H3
    by (repeat constructor; apply not_elem_of_nil).
  split; [exact H1|]. split; [exact H2|]. split; [exact H3|].
  destruct (addRegionElements_appends Fixture.widget [4; 3] Fixture.siblings H1 H2 H3)
    as (w' & E & Hids & _).
  exists w'. split; [exact E|]. rewrite Hids. reflexivity.
Defined.

(** ** Construction over sibling regions *)

Lemma sameRest_controlDefaults control w : sameRest w (controlDefaults control w).
Proof.
  unfold controlDefaults. cbv zeta.
  repeat match goal with
         | |- context [if ?b then _ else _] => destruct b
         end;
    repeat first [apply sameRest_refl
                 |eapply sameRest_trans; [|apply sameRest_setAttribute]].
Qed.

Lemma isExpanded_controlDefaults this w :
  isExpanded this (controlDefaults (controlElement_ this) w) = isExpanded this w.
Proof.
  unfold isExpanded. rewrite controlDefaults_expanded.
  by destruct (getAttribute w (controlElement_ this) "aria-expanded").
Qed.

Lemma classList_addedAll this regions w r :
  r ∉ regions →
  classList (elements (addedAll this regions w) r) = classList (elements w r).
Proof.
  induction regions as [|x regions IH] using rev_ind; intros Hnot; [done|].
  rewrite addedAll_snoc. unfold added.
  rewrite classList_withRegionId, classList_prepared.
  rewrite decide_False.
  - apply IH. intros Hin. apply Hnot, elem_of_app. by left.
  - intros [-> _]. apply Hnot, elem_of_app. right. by left.
Qed.

(** X12 (init, initRegions): a widget whose control element has no
    aria-controls attribute takes the sibling regions found by the walk: when
    each of them carries an id of its own, not empty and without a space, the
    id list after construction holds their ids in document order, each region
    has the role "region", and each carries hidden exactly when the component
    is collapsed, the state being the one aria-expanded gave before. *)
Theorem init_lists_sibling_regions element w this w' :
  init element w = Returns this w' →
  getAttribute w (controlElement_ this) "aria-controls" = None →
  Forall (fun r => wellNamed w r = true)
    (scanSiblings w (followingSiblings w element)) →
  NoDup (map (elementId w) (scanSiblings w (followingSiblings w element))) →
  regionIds this w' =
    map (elementId w) (scanSiblings w (followingSiblings w element)) ∧
  isExpanded this w' = isExpanded this w ∧
  Forall (fun r =>
    hasAttribute w' r "hidden" = negb (isExpanded this w') ∧
    getAttribute w' r "role" = Some "region")
    (scanSiblings w (followingSiblings w element)).
Proof.
  intros H Hnone Hnamed Hdup.
  apply init_returns_inv in H as (c & rs & Hc & -> & Hd & Hel).
  simpl in Hnone. set (this := constructed w element c) in *.
  set (w1 := controlDefaults c w) in *.
  pose proof (sameRest_controlDefaults c w) as (Hdoc & Hdet & _ & _ & _ & _ & Hrest).
  fold w1 in Hdoc, Hdet, Hrest.
  assert (∀ r, getAttribute w1 r "id" = getAttribute w r "id") as Hid.
  { intros r. apply controlDefaults_attr. right. repeat split; discriminate. }
  assert (getAttribute w1 c "aria-controls" = None) as Hnone1.
  { unfold w1. rewrite controlDefaults_attr; [done|]. right. repeat split; discriminate. }
  assert (rs = scanSiblings w (followingSiblings w element)) as ->.
  { revert Hd. unfold discoverRegions, gets, mbind, M_bind, hasAttribute. simpl.
    rewrite Hnone1. intros [= <-].
    unfold followingSiblings. rewrite Hdoc, Hdet.
    apply scanSiblings_sameClasses. intros r. by destruct (Hrest r) as (_ & ? & _). }
  set (rs := scanSiblings w (followingSiblings w element)) in *.
  assert (∀ r, elementId w1 r = elementId w r) as Heid
    by (intros r; unfold elementId; by rewrite Hid).
  assert (regionIds this w1 = []) as Hempty
    by (unfold regionIds; simpl; by rewrite Hnone1).
  destruct (addedAll_wellNamed this rs w1) as [Hids Hall].
  { eapply Forall_impl; [exact Hnamed|]. intros r Hr. unfold wellNamed. by rewrite Hid. }
  { by rewrite (map_ext _ _ Heid). }
  { apply Forall_forall. intros r _. rewrite Hempty. apply not_elem_of_nil. }
  assert (∀ r n, getAttribute w' r n = getAttribute (addedAll this rs w1) r n) as Hattr
    by (intros; by apply getAttribute_elements).
  assert (isExpanded this w' = isExpanded this w) as Hexp.
  { rewrite <- (isExpanded_controlDefaults this w). simpl. fold w1.
    rewrite <- (addedAll_isExpanded this rs w1).
    unfold isExpanded. by rewrite Hattr. }
  split; [|split; [done|]].
  - unfold regionIds at 1. rewrite Hattr. fold (regionIds this (addedAll this rs w1)).
    rewrite Hids, Hempty. simpl. apply map_ext. exact Heid.
  - eapply Forall_impl; [exact Hall|]. intros r (Hh & Hro & _).
    unfold hasAttribute in *. rewrite !Hattr. rewrite Hexp.
    rewrite <- (isExpanded_controlDefaults this w). simpl. fold w1. by split.
Qed.

(** X13 (init, initControl): the control element of a constructed widget
    is the first element below the root, in tree order, that carries the
    control class, and the root itself only when no element below it does; it
    carries the control class in either case.  Construction changes no
    attribute and no class of an element that is neither the control element
    nor one of the regions found. *)
Theorem init_control_and_frame element w this w' :
  init element w = Returns this w' →
  let control := controlElement_ this in
  element_ this = element ∧
  classList_contains w control COLLAPSIBLE_CONTROL_CLASS = true ∧
  ((∃ before rest,
      descendants w element = before ++ control :: rest ∧
      Forall (fun d => classList_contains w d COLLAPSIBLE_CONTROL_CLASS = false) before) ∨
   (control = element ∧
    Forall (fun d => classList_contains w d COLLAPSIBLE_CONTROL_CLASS = false)
      (descendants w element))) ∧
  (∀ r, r ≠ control → r ∉ discovered this (controlDefaults control w) →
        classList (elements w' r) = classList (elements w r) ∧
        ∀ n, getAttribute w' r n = getAttribute w r n).
Proof.
  intros H. apply init_returns_inv in H as (c & rs & Hc & -> & Hd & Hel).
  simpl. unfold discovered. rewrite Hd.
  split; [done|]. unfold findControl in Hc.
  destruct (List.find _ (descendants w element)) as [d|] eqn:E.
  - injection Hc as ->. apply find_first in E as (Hm & l1 & l2 & Hdesc & Hall).
    split; [exact Hm|]. split; [left; eauto|].
    intros r Hr Hnot. rewrite Hel. split.
    + rewrite classList_addedAll by done.
      by destruct (sameRest_controlDefaults c w) as (_&_&_&_&_&_&Hrest);
        destruct (Hrest r) as (_ & ? & _).
    + intros n. rewrite (getAttribute_elements _ _ r n Hel).
      rewrite addedAll_attr; [|by left|].
      * apply controlDefaults_attr. by left.
      * by left.
  - destruct (classList_contains w element COLLAPSIBLE_CONTROL_CLASS) eqn:Eroot;
      [|discriminate].
    injection Hc as <-. split; [done|]. split.
    + right. split; [done|].
      exact (proj1 (find_None_Forall
        (matches w (Css.ClassSelector COLLAPSIBLE_CONTROL_CLASS)) _) E).
    + intros r Hr Hnot. rewrite Hel. split.
      * rewrite classList_addedAll by done.
        by destruct (sameRest_controlDefaults element w) as (_&_&_&_&_&_&Hrest);
          destruct (Hrest r) as (_ & ? & _).
      * intros n. rewrite (getAttribute_elements _ _ r n Hel).
        rewrite addedAll_attr; [|by left|].
        -- apply controlDefaults_attr. by left.
        -- by left.
Qed.

Lemma init_lists_sibling_regions_witness :
  let w' := after (init 2 nested) in
  init 2 nested = Returns (constructed nested 2 7) w' ∧
  scanSiblings nested (followingSiblings nested 2) = [3; 5] ∧
  regionIds (constructed nested 2 7) w' = ["first"; "second"] ∧
  isExpanded (constructed nested 2 7) w' = true ∧
  hasAttribute w' 3 "hidden" = false ∧ hasAttribute w' 5 "hidden" = false.
Proof.
  intros w'. set (this := (constructed nested 2 7)).
  assert (init 2 nested = Returns this w') as H by (vm_compute; reflexivity).
  assert (scanSiblings nested (followingSiblings nested 2) = [3; 5]) as Hs
    by (vm_compute; reflexivity).
  assert (getAttribute nested (controlElement_ this) "aria-controls" = None) as H1
    by (vm_compute; reflexivity).
  assert (Forall (fun r => wellNamed nested r = true)
            (scanSiblings nested (followingSiblings nested 2))) as H2
    by (apply Forall_of_forallb; vm_compute; reflexivity).
  assert (NoDup (map (elementId nested) (scanSiblings nested (followingSiblings nested 2))))
    as H3.
  { rewrite Hs. change (map (elementId nested) [3; 5]) with ["first"; "second"].
    apply NoDup_cons. split; [|apply NoDup_singleton].
    rewrite list_elem_of_singleton. discriminate. }
  destruct (init_lists_sibling_regions 2 nested this w' H H1 H2 H3)
    as (Hids & Hexp & Hall).
  assert (isExpanded this nested = true) as Hb by (vm_compute; reflexivity).
  rewrite Hs in Hids, Hall. rewrite Hb in Hexp. rewrite Hexp in Hall.
  split; [exact H|]. split; [exact Hs|]. split; [exact Hids|]. split; [exact Hexp|].
  apply Forall_cons in Hall as [[H3h _] Hall].
  apply Forall_cons in Hall as [[H5h _] _].
  split; [exact H3h|exact H5h].
Defined.

Lemma init_control_and_frame_witness :
  let w' := after (init 2 nested) in
  init 2 nested = Returns (constructed nested 2 7) w' ∧
  classList_contains nested 7 COLLAPSIBLE_CONTROL_CLASS = true ∧
  classList_contains nested 2 COLLAPSIBLE_CONTROL_CLASS = true.
Proof.
  intros w'.
  assert (init 2 nested = Returns (constructed nested 2 7) w') as H
    by (vm_compute; reflexivity).
  split; [exact H|].
  split; [|vm_compute; reflexivity].
  exact (proj1 (proj2 (init_control_and_frame 2 nested _ w' H))).
Defined.

(** ** Removing again, and what removing leaves alone *)

Section RemovingMore.

Variable this : Collapsible.
Let control := controlElement_ this.

Lemma filter_again {A} (f : A -> bool) (l : list A) :
  List.filter f (List.filter f l) = List.filter f l.
Proof.
  induction l as [|x l IH]; [done|]. simpl.
  destruct (f x) eqn:E; simpl; rewrite ?E, IH; done.
Qed.

Lemma filter_sub_Forall {A} (P : A -> Prop) (f : A -> bool) (l : list A) :
  Forall P l → Forall P (List.filter f l).
Proof.
  induction 1 as [|x l Hx Hl IH]; simpl; [constructor|].
  destruct (f x); [by constructor|done].
Qed.

(** What is written a second time is what was written the first time. *)
Lemma kept_ids_stable i ids :
  i ≠ "" → Forall (fun x => Str.hasSpace x = false) ids →
  Str.join (List.filter (fun x => String.eqb x i)
              (Str.split (Str.join (List.filter (fun x => String.eqb x i) ids)))) =
  Str.join (List.filter (fun x => String.eqb x i) ids).
Proof.
  intros Hne Hsp.
  destruct (List.filter (fun x => String.eqb x i) ids) as [|k kept] eqn:E.
  - simpl. destruct i; [congruence|done].
  - rewrite StrFacts.split_join.
    + by rewrite <- E, filter_again.
    + discriminate.
    + rewrite <- E. by apply filter_sub_Forall.
Qed.

(** X14 (removeRegionElement): the call returns and touches nothing but
    the aria-controls attribute of the control element: no element leaves the
    trees, no class and no listener changes.  With no region, or a region whose
    id is empty, nothing changes at all, the log included.  Removing the same
    region a second time leaves every attribute as the first time left it. *)
Theorem removeRegionElement_frame region w :
  let w1 := after (removeRegionElement this region w) in
  let w2 := after (removeRegionElement this region w1) in
  removeRegionElement this region w = Returns tt w1 ∧
  sameRest w w1 ∧
  (∀ r n, r ≠ control ∨ n ≠ "aria-controls" →
          getAttribute w1 r n = getAttribute w r n) ∧
  (∀ r n, getAttribute w2 r n = getAttribute w1 r n) ∧
  (match region with
   | None => True
   | Some r => elementId w r = ""
   end → w1 = w).
Proof.
  destruct region as [r|]; cbv zeta.
  2: { simpl. repeat split; try done. }
  destruct (decide (elementId w r = "")) as [Hempty|Hne].
  - assert (removeRegionElement this (Some r) w = Returns tt w) as E.
    { unfold removeRegionElement, gets, skip, mbind, M_bind, mret, M_ret.
      by rewrite Hempty. }
    rewrite E. cbn [after]. rewrite E. cbn [after].
    split; [done|]. split; [apply sameRest_refl|]. by repeat split.
  - rewrite (removeRegionElement_eq this r w Hne). cbn [after]. fold control.
    set (kept := Str.join _).
    set (w1 := setAttribute control "aria-controls" kept w).
    assert (elementId w1 r = elementId w r) as Hid.
    { unfold elementId, w1. by rewrite getAttribute_set_other. }
    assert (removeRegionElement this (Some r) w1 =
            Returns tt (setAttribute control "aria-controls" kept w1)) as E.
    { rewrite removeRegionElement_eq by (by rewrite Hid). fold control.
      do 2 f_equal. rewrite Hid. unfold regionIds at 1. fold control.
      unfold w1 at 1. rewrite getAttribute_set_same.
      apply kept_ids_stable; [done|apply regionIds_hasSpace]. }
    rewrite E. cbn [after].
    split; [done|]. split; [apply sameRest_setAttribute|]. split; [|split].
    + intros x n Hx. unfold w1. rewrite getAttribute_setAttribute, decide_False; [done|tauto].
    + intros x n. rewrite getAttribute_setAttribute. case_decide as Hc; [|done].
      destruct Hc as [-> ->]. unfold w1. by rewrite getAttribute_set_same.
    + intros Hc. contradiction.
Qed.

End RemovingMore.

Lemma removeRegionElement_frame_witness :
  elementId Fixture.oddIds 3 = "" ∧
  after (removeRegionElement Fixture.widget (Some 3) Fixture.oddIds) = Fixture.oddIds.
Proof.
  assert (elementId Fixture.oddIds 3 = "") as H by reflexivity.
  split; [exact H|].
  exact (proj2 (proj2 (proj2 (proj2
    (removeRegionElement_frame Fixture.widget (Some 3) Fixture.oddIds)))) H).
Defined.

(** ** isFocusable and a tabindex of digits *)

Module JsFacts.
Import Js.

Lemma whiteSpace_no_digit :
  forallb startsOtherwise whiteSpace = true ∧
  forallb startsOtherwise (map String.rev whiteSpace) = true.
Proof. split; vm_compute; reflexivity. Qed.

Lemma no_prefix_of_digit ws c rest :
  forallb startsOtherwise ws = true → Str.isDigit c = true →
  firstSome (fun p => dropPrefix p (String c rest)) ws = None.
Proof.
  intros Hws Hc. induction ws as [|p ws IH]; [done|]. simpl in *.
  apply andb_true_iff in Hws as [Hp Hws].
  destruct p as [|a p]; [discriminate|]. simpl in *.
  destruct (Ascii.eqb_spec a c) as [->|_]; [by rewrite Hc in Hp|]. by apply IH.
Qed.

Lemma stripWith_digit ws fuel c rest :
  forallb startsOtherwise ws = true → Str.isDigit c = true →
  stripWith ws fuel (String c rest) = String c rest.
Proof.
  intros Hws Hc. destruct fuel; [done|]. simpl.
  by rewrite no_prefix_of_digit.
Qed.

Lemma rev_app_app s t u :
  String.rev_app (String.rev_app s t) u = String.rev_app t (s ++ u)%string.
Proof.
  revert t u. induction s as [|a s IH]; intros t u; simpl.
  - reflexivity.
  - rewrite IH. reflexivity.
Qed.

Lemma append_empty s : (s ++ "")%string = s.
Proof.
  induction s as [|a s IH]; [done|].
  change (String a (s ++ "")%string = String a s). by rewrite IH.
Qed.

Lemma rev_rev s : String.rev (String.rev s) = s.
Proof. unfold String.rev. rewrite rev_app_app. simpl. apply append_empty. Qed.

Lemma allChars_rev_app p s t :
  Css.allChars p (String.rev_app s t) = Css.allChars p s && Css.allChars p t.
Proof.
  revert t. induction s as [|a s IH]; intros t; simpl; [done|].
  rewrite IH. simpl. destruct (p a), (Css.allChars p s); simpl; try done.
Qed.

Lemma rev_app_not_empty s t : t ≠ "" → String.rev_app s t ≠ "".
Proof.
  revert t. induction s as [|a s IH]; intros t Ht; simpl; [done|].
  apply IH. discriminate.
Qed.

Lemma digitString_first s :
  digitString s = true →
  ∃ c rest, s = String c rest ∧ Str.isDigit c = true ∧
            Css.allChars Str.isDigit rest = true.
Proof.
  unfold digitString. destruct s as [|c rest]; [discriminate|]. simpl.
  intros [Hc Hrest]%andb_true_iff. eauto.
Qed.

Lemma digitString_rev s : digitString s = true → digitString (String.rev s) = true.
Proof.
  intros H. destruct (digitString_first s H) as (c & rest & -> & Hc & Hrest).
  unfold digitString, String.rev. simpl.
  rewrite allChars_rev_app. simpl. rewrite Hc, Hrest. simpl.
  rewrite andb_true_r. unfold Str.truthy.
  destruct (String.eqb_spec (String.rev_app rest (String c "")) "") as [E|_]; [|done].
  by apply rev_app_not_empty in E.
Qed.

Lemma trim_digitString s : digitString s = true → trimStart s = s ∧ trim s = s.
Proof.
  intros H. pose proof whiteSpace_no_digit as [Hws Hrev].
  assert (trimStart s = s) as Hstart.
  { destruct (digitString_first s H) as (c & rest & -> & Hc & _).
    unfold trimStart. by apply stripWith_digit. }
  split; [done|]. unfold trim. rewrite Hstart. unfold trimEnd.
  destruct (digitString_first _ (digitString_rev s H)) as (c & rest & E & Hc & _).
  rewrite E. rewrite stripWith_digit by done. rewrite <- E. apply rev_rev.
Qed.

Lemma isDigit_value c :
  Str.isDigit c = true → ∃ v, digitValue c = Some v ∧ (0 ≤ v < 10)%Z.
Proof.
  intros H. unfold digitValue. rewrite H. eexists. split; [done|].
  unfold Str.isDigit in H. apply andb_true_iff in H as [H1 H2].
  apply Nat.leb_le in H1, H2. lia.
Qed.

Lemma digitsFrom_digits s acc :
  Css.allChars Str.isDigit s = true →
  (0 ≤ default 0 acc)%Z → (s = "" → is_Some acc) →
  ∃ v, digitsFrom 10 acc s = (Some v, "") ∧ (0 ≤ v)%Z.
Proof.
  revert acc. induction s as [|c s IH]; intros acc Hall Hacc Hsome; simpl in *.
  - destruct (Hsome eq_refl) as [a ->]. eauto.
  - apply andb_true_iff in Hall as [Hc Hs].
    destruct (isDigit_value c Hc) as (v & Hv & Hrange).
    unfold isDigitIn. rewrite Hv.
    destruct (Z.ltb_spec v 10) as [_|?]; [|lia].
    apply IH; [done|simpl; lia|eauto].
Qed.

(** The eight letters the conversions look for after a leading 0, and the
    two signs, are no digits. *)
Lemma digit_is_no_marker c :
  Str.isDigit c = true →
  Ascii.eqb c "x" = false ∧ Ascii.eqb c "X" = false ∧
  Ascii.eqb c "o" = false ∧ Ascii.eqb c "O" = false ∧
  Ascii.eqb c "b" = false ∧ Ascii.eqb c "B" = false ∧
  Ascii.eqb c "-" = false ∧ Ascii.eqb c "+" = false ∧ Ascii.eqb c "." = false.
Proof.
  intros H.
  repeat split;
    match goal with
    | |- Ascii.eqb c ?k = false =>
        destruct (Ascii.eqb_spec c k) as [->|_]; [discriminate H|reflexivity]
    end.
Qed.

Lemma dropSign_digit c rest :
  Str.isDigit c = true → dropSign (String c rest) = (false, String c rest).
Proof.
  intros H. destruct (digit_is_no_marker c H) as (_&_&_&_&_&_&Hm&Hp&_).
  unfold dropSign.
  destruct c as [[] [] [] [] [] [] [] []]; try reflexivity; discriminate.
Qed.

Lemma parseInt_digitString s :
  digitString s = true → ∃ v, parseInt s = Some v ∧ (0 ≤ v)%Z.
Proof.
  intros H. destruct (trim_digitString s H) as [Hstart _].
  destruct (digitString_first s H) as (c & rest & -> & Hc & Hrest).
  assert (Css.allChars Str.isDigit (String c rest) = true) as Hall
    by (simpl; by rewrite Hc, Hrest).
  destruct (digitsFrom_digits (String c rest) None Hall) as (v & Hv & Hpos);
    [simpl; lia|discriminate|].
  unfold parseInt. rewrite Hstart, dropSign_digit by done.
  assert ((match String c rest with
           | String "0"%char (String x rest') =>
               if Ascii.eqb x "x" || Ascii.eqb x "X" then (16%Z, rest')
               else (10%Z, String c rest)
           | _ => (10%Z, String c rest)
           end) = (10%Z, String c rest)) as ->.
  { destruct rest as [|x rest'].
    - destruct c as [[] [] [] [] [] [] [] []]; reflexivity.
    - simpl in Hrest. apply andb_true_iff in Hrest as [Hx _].
      destruct (digit_is_no_marker x Hx) as (Hx1 & Hx2 & _).
      destruct c as [[] [] [] [] [] [] [] []]; try reflexivity.
      by rewrite Hx1, Hx2. }
  unfold digits. rewrite Hv. simpl. eauto.
Qed.

Lemma numeric_digitString s : digitString s = true → numeric s = true.
Proof.
  intros H. destruct (trim_digitString s H) as [_ Htrim].
  destruct (digitString_first s H) as (c & rest & -> & Hc & Hrest).
  assert (Css.allChars Str.isDigit (String c rest) = true) as Hall
    by (simpl; by rewrite Hc, Hrest).
  destruct (digitsFrom_digits (String c rest) None Hall) as (v & Hv & Hpos);
    [simpl; lia|discriminate|].
  assert (unsignedDecimalOk (String c rest) = true) as Hok.
  { unfold unsignedDecimalOk, digits. rewrite Hv. simpl. apply orb_true_r. }
  unfold numeric. rewrite Htrim. cbv zeta.
  apply orb_true_iff. right.
  destruct rest as [|x rest'].
  - rewrite dropSign_digit by done. simpl.
    destruct c as [[] [] [] [] [] [] [] []]; exact Hok.
  - simpl in Hrest. apply andb_true_iff in Hrest as [Hx _].
    destruct (digit_is_no_marker x Hx) as (Hx1 & Hx2 & Hx3 & Hx4 & Hx5 & Hx6 & _).
    rewrite dropSign_digit by done. simpl snd.
    destruct c as [[] [] [] [] [] [] [] []]; try exact Hok.
    rewrite Hx1, Hx2, Hx3, Hx4, Hx5, Hx6. exact Hok.
Qed.

End JsFacts.

(** X15 (isFocusable): an element whose tabindex attribute is a string of
    decimal digits is focusable, whatever its node name, its type, and whether
    or not it is disabled; the call does not throw and changes nothing. *)
Theorem isFocusable_digit_tabindex element w t :
  getAttribute w element "tabindex" = Some t →
  digitString t = true →
  isFocusable element w = Returns true w.
Proof.
  intros Ht Hd. unfold isFocusable. rewrite Ht.
  unfold Js.isNaN. rewrite (JsFacts.numeric_digitString t Hd). simpl.
  destruct (JsFacts.parseInt_digitString t Hd) as (v & -> & Hv).
  unfold Js.gtMinusOne. destruct (Z.ltb_spec (-1) v); [done|lia].
Qed.

Lemma isFocusable_digit_tabindex_witness :
  let w := setAttribute 2 "tabindex" "007" shuffled in
  getAttribute w 2 "tabindex" = Some "007" ∧ digitString "007" = true ∧
  nodeName (elements w 2) = "BUTTON" ∧ type (elements w 2) = None ∧
  isFocusable 2 w = Returns true w.
Proof.
  intros w.
  assert (getAttribute w 2 "tabindex" = Some "007") as H1 by (vm_compute; reflexivity).
  assert (digitString "007" = true) as H2 by reflexivity.
  split; [exact H1|]. split; [exact H2|]. split; [reflexivity|]. split; [reflexivity|].
  exact (isFocusable_digit_tabindex 2 w "007" H1 H2).
Defined.

(** Without the tabindex the same element makes [isFocusable] throw: its
    node name holds "button" and it has no type. *)
Example isFocusable_throws_without_type :
  exception (isFocusable 2 shuffled) = Some (TypeError "element.type is undefined").
Proof. vm_compute. reflexivity. Qed.

(** ** Construction over a given id list *)

Section InitListed.

Variable this : Collapsible.
Let control := controlElement_ this.

Lemma document_added region w : document (added this region w) = document w.
Proof.
  unfold added, withRegionId, prepared. cbv zeta.
  repeat match goal with
         | |- context [if ?b then _ else _] => destruct b
         end; reflexivity.
Qed.

Lemma document_addedAll regions w : document (addedAll this regions w) = document w.
Proof.
  induction regions as [|x regions IH] using rev_ind; [done|].
  by rewrite addedAll_snoc, document_added.
Qed.

Lemma lookupId_id w i r : lookupId w i = Some r → getAttribute w r "id" = Some i.
Proof.
  unfold lookupId. intros H. apply find_first in H as [H _].
  simpl in H. by apply bool_decide_eq_true in H.
Qed.

(** Adding a region whose id is listed leaves the id list as it is. *)
Lemma added_listed region w i :
  getAttribute w region "id" = Some i → i ≠ "" → i ∈ regionIds this w →
  getAttribute (added this region w) control "aria-controls" =
  getAttribute w control "aria-controls".
Proof.
  intros Hid Hne Hin. unfold added.
  rewrite (elementId_prepared_again this region w i Hid).
  rewrite withRegionId_listed; [|done|by rewrite prepared_regionIds].
  apply prepared_attr. right. repeat split; discriminate.
Qed.

Lemma addedAll_listed regions w :
  Forall (fun r => ∃ i, getAttribute w r "id" = Some i ∧ i ≠ "" ∧ i ∈ regionIds this w)
    regions →
  getAttribute (addedAll this regions w) control "aria-controls" =
    getAttribute w control "aria-controls" ∧
  ∀ r, getAttribute (addedAll this regions w) r "id" = getAttribute w r "id".
Proof.
  intros Hall.
  assert (∀ r, getAttribute (addedAll this regions w) r "id" = getAttribute w r "id")
    as Hids.
  { intros r. apply addedAll_ids. eapply Forall_impl; [exact Hall|].
    intros x (i & Hi & _). unfold hasAttribute. by rewrite Hi. }
  split; [|exact Hids]. clear Hids.
  induction regions as [|x regions IH] using rev_ind; [done|].
  apply Forall_app in Hall as [Hall Hx%Forall_cons].
  destruct Hx as [(i & Hi & Hne & Hin) _].
  specialize (IH Hall). rewrite addedAll_snoc.
  rewrite (added_listed x _ i); [exact IH| |done|].
  - rewrite addedAll_ids; [done|]. eapply Forall_impl; [exact Hall|].
    intros y (j & Hj & _). unfold hasAttribute. by rewrite Hj.
  - by rewrite (regionIds_sameControls this w (addedAll this regions w)).
Qed.

Lemma added_class region w :
  classList_contains (added this region w) region COLLAPSIBLE_REGION_CLASS = true.
Proof.
  unfold classList_contains, added.
  rewrite classList_withRegionId, classList_prepared.
  apply bool_decide_eq_true. case_decide as H.
  - apply elem_of_app. right. by left.
  - destruct (decide (COLLAPSIBLE_REGION_CLASS ∈ classList (elements w region)));
      [done|tauto].
Qed.

Lemma added_class_kept region w r :
  classList_contains w r COLLAPSIBLE_REGION_CLASS = true →
  classList_contains (added this region w) r COLLAPSIBLE_REGION_CLASS = true.
Proof.
  unfold classList_contains, added.
  rewrite classList_withRegionId, classList_prepared.
  intros H%bool_decide_eq_true. apply bool_decide_eq_true.
  case_decide as Hd; [|done]. destruct Hd as [-> Hnot]. contradiction.
Qed.

(** Whatever the regions are, each ends marked as a region, and hidden
    exactly when the component is collapsed. *)
Lemma addedAll_marks regions w :
  Forall (fun r =>
    hasAttribute (addedAll this regions w) r "hidden" = negb (isExpanded this w) ∧
    getAttribute (addedAll this regions w) r "role" = Some "region" ∧
    classList_contains (addedAll this regions w) r COLLAPSIBLE_REGION_CLASS = true)
    regions.
Proof.
  induction regions as [|x regions IH] using rev_ind; [constructor|].
  rewrite addedAll_snoc. set (w0 := addedAll this regions w) in *.
  assert (hasAttribute (added this x w0) x "hidden" = negb (isExpanded this w) ∧
          getAttribute (added this x w0) x "role" = Some "region" ∧
          classList_contains (added this x w0) x COLLAPSIBLE_REGION_CLASS = true) as Hx.
  { rewrite added_hidden. unfold w0. rewrite addedAll_isExpanded.
    split; [done|]. split; [apply added_role|apply added_class]. }
  apply Forall_app. split; [|by constructor].
  rewrite Forall_forall in IH. apply Forall_forall. intros r Hr.
  destruct (decide (r = x)) as [->|Hne]; [exact Hx|].
  destruct (IH r Hr) as (Hh & Hro & Hc). unfold hasAttribute in *.
  rewrite !added_attr by (try (left; done); right; discriminate).
  split; [exact Hh|]. split; [exact Hro|]. by apply added_class_kept.
Qed.

End InitListed.

Lemma init_returns_document element w this w' :
  init element w = Returns this w' → document w' = document w.
Proof.
  rewrite init_eq. destruct (findControl w element) as [c|]; [|discriminate].
  cbv zeta. set (this0 := constructed w element c).
  set (w0 := controlDefaults c (allocated w)).
  pose proof (discoverRegions_pure this0 w0) as [Hw _].
  destruct (discoverRegions this0 w0) as [rs w1|e w1] eqn:E; [|discriminate].
  simpl in Hw. subst w1.
  destruct (listeners_renewed this0 (addedAll this0 rs w0)) as (w2 & -> & _ & Hdoc & _).
  intros [= <- <-]. rewrite Hdoc, document_addedAll.
  by destruct (sameRest_controlDefaults c (allocated w)) as (? & _).
Qed.

(** X16 (init, initRegions): a widget whose control element comes with an
    aria-controls attribute of plain identifiers keeps that attribute, and
    every id attribute, as they are; the listed ids resolve to the same
    regions after construction as before, and each of these regions ends with
    the role "region", the region class, and hidden exactly when the component
    is collapsed. *)
Theorem init_keeps_listed_ids element w this w' :
  init element w = Returns this w' →
  hasAttribute w (controlElement_ this) "aria-controls" = true →
  plain this w →
  getAttribute w' (controlElement_ this) "aria-controls" =
    getAttribute w (controlElement_ this) "aria-controls" ∧
  (∀ r, getAttribute w' r "id" = getAttribute w r "id") ∧
  isExpanded this w' = isExpanded this w ∧
  regionElements this w' = Returns (omap (lookupId w) (regionIds this w)) w' ∧
  Forall (fun r =>
    hasAttribute w' r "hidden" = negb (isExpanded this w) ∧
    getAttribute w' r "role" = Some "region" ∧
    classList_contains w' r COLLAPSIBLE_REGION_CLASS = true)
    (omap (lookupId w) (regionIds this w)).
Proof.
  intros H Hlisted Hplain. pose proof (init_returns_document _ _ _ _ H) as Hdoc.
  apply init_returns_inv in H as (c & rs & Hc & -> & Hd & Hel).
  simpl in Hlisted. set (this := constructed w element c) in *.
  set (w1 := controlDefaults c w) in *.
  assert (∀ r, getAttribute w1 r "id" = getAttribute w r "id") as Hid.
  { intros r. apply controlDefaults_attr. right. repeat split; discriminate. }
  assert (getAttribute w1 c "aria-controls" = getAttribute w c "aria-controls") as Hac.
  { apply controlDefaults_attr. right. repeat split; discriminate. }
  assert (regionIds this w1 = regionIds this w) as Hids
    by (by apply regionIds_sameControls).
  assert (sameIds w w1) as Hsame1.
  { split; [|exact Hid]. by destruct (sameRest_controlDefaults c w) as (? & _). }
  assert (rs = omap (lookupId w) (regionIds this w)) as ->.
  { revert Hd. unfold discoverRegions, gets, mbind, M_bind. simpl.
    unfold hasAttribute in *. rewrite Hac.
    destruct (getAttribute w c "aria-controls"); [|discriminate]. simpl.
    rewrite regionElements_ident by (by rewrite Hids).
    intros [= <-]. rewrite Hids. clear -Hsame1.
    induction (regionIds this w) as [|i ids IH]; [done|].
    unfold omap in *. simpl. rewrite (lookupId_sameIds w w1 i Hsame1).
    destruct (lookupId w i); [f_equal|]; exact IH. }
  set (rs := omap (lookupId w) (regionIds this w)) in *.
  assert (∀ r n, getAttribute w' r n = getAttribute (addedAll this rs w1) r n) as Hattr
    by (intros; by apply getAttribute_elements).
  destruct (addedAll_listed this rs w1) as [Hkept Hidkept].
  { apply Forall_forall. intros r Hr. unfold rs in Hr.
    apply list_elem_of_omap in Hr as (i & Hi & Hr).
    exists i. split; [rewrite Hid; by apply lookupId_id|].
    split; [|by rewrite Hids].
    apply isIdent_not_empty. unfold plain in Hplain.
    rewrite Forall_forall in Hplain. by apply Hplain. }
  simpl in Hkept.
  assert (getAttribute w' c "aria-controls" = getAttribute w c "aria-controls") as Hac'
    by (by rewrite Hattr, Hkept).
  assert (∀ r, getAttribute w' r "id" = getAttribute w r "id") as Hid'
    by (intros r; by rewrite Hattr, Hidkept).
  assert (isExpanded this w1 = isExpanded this w) as Hexp1
    by apply (isExpanded_controlDefaults this w).
  split; [exact Hac'|]. split; [exact Hid'|]. split; [|split].
  - rewrite <- Hexp1, <- (addedAll_isExpanded this rs w1).
    unfold isExpanded. by rewrite Hattr.
  - assert (regionIds this w' = regionIds this w) as Hids'
      by (by apply regionIds_sameControls).
    rewrite regionElements_ident by (by rewrite Hids').
    rewrite Hids'. f_equal. unfold rs.
    assert (sameIds w w') as Hsame' by (by split).
    clear -Hsame'. induction (regionIds this w) as [|i ids IH]; [done|].
    unfold omap in *. simpl. rewrite (lookupId_sameIds w w' i Hsame').
    destruct (lookupId w i); [f_equal|]; exact IH.
  - pose proof (addedAll_marks this rs w1) as Hmarks.
    eapply Forall_impl; [exact Hmarks|]. intros r (Hh & Hro & Hcl).
    unfold hasAttribute, classList_contains in *.
    rewrite !Hattr, Hel, <- Hexp1. by repeat split.
Qed.

Lemma init_keeps_listed_ids_witness :
  let w := Fixture.stale in
  let w' := after (init 2 w) in
  init 2 w = Returns Fixture.widget w' ∧
  hasAttribute w 2 "aria-controls" = true ∧
  regionIds Fixture.widget w' = ["a"; "gone"; "b"] ∧
  regionElements Fixture.widget w' = Returns [3; 4] w' ∧
  hasAttribute w' 3 "hidden" = true ∧ getAttribute w' 4 "role" = Some "region".
Proof.
  intros w w'.
  assert (init 2 w = Returns Fixture.widget w') as H by (vm_compute; reflexivity).
  assert (hasAttribute w 2 "aria-controls" = true) as Hl by reflexivity.
  assert (plain Fixture.widget w) as Hp.
  { apply Forall_of_forallb. vm_compute. reflexivity. }
  destruct (init_keeps_listed_ids 2 w Fixture.widget w' H Hl Hp)
    as (Hac & _ & _ & Hrs & Hall).
  split; [exact H|]. split; [exact Hl|]. split.
  - unfold regionIds. rewrite Hac. vm_compute. reflexivity.
  - split; [exact Hrs|].
    change (omap (lookupId w) (regionIds Fixture.widget w)) with [3; 4] in Hall.
    rewrite Forall_forall in Hall. split.
    + apply (Hall 3). by left.
    + apply (Hall 4). right. by left.
Defined.
